(** * rain: the download orchestrator and the tracker announcer

    A shallow embedding of [internal/downloader/downloader.go] and
    [internal/announcer/announcer.go].

    The orchestrator is one goroutine that owns all of its state, so one
    iteration of the [select] loop of [Run] is modelled as a function from
    the state and the event that was received to the next state, the
    effects the iteration launched (sends on channels, [go] statements,
    semaphore calls) and a continue/return flag; a run-time panic is an
    explicit outcome.

    Go maps keyed by [*peer.Peer] are [gmap]s keyed by the address of the
    transport peer.  The values of those maps are pointers to the
    downloader's own [Peer] objects, which the loop mutates in place and
    which are shared between [connectedPeers], the pieces' membership maps
    and [optimisticUnchokedPeer]: they live in an explicit store. *)

From Stdlib Require Import ZArith QArith.
From stdpp Require Import gmap list sorting strings.

Local Open Scope Z_scope.
Local Open Scope nat_scope.

(** ** Addresses *)

(** The address of a [peer.Peer] (the transport's object for a remote peer);
    the orchestrator only uses it as a map key and as the receiver of the
    send primitives. *)
Abbreviation PeerKey := positive (only parsing).

(** The address of a downloader [Peer] object in the store. *)
Abbreviation loc := positive (only parsing).

(** A [*Peer]: [None] is [nil]. *)
Abbreviation PeerPtr := (option positive) (only parsing).

(** ** Data model *)

(** [int64] arithmetic wraps around. *)
Definition wrap64 (z : Z) : Z := ((z + 2 ^ 63) mod 2 ^ 64 - 2 ^ 63)%Z.

(** The downloader's [Peer].  The struct is declared in a file of the package
    that is not among the sources; its fields are the ones [downloader.go]
    reads and writes, with the spelling used there. *)
Record Peer : Type := mkPeer {
  Peer_Peer : PeerKey;                    (* embedded *peer.Peer *)
  amInterested : bool;
  amChoking : bool;
  peerChoking : bool;
  optimisticUnhoked : bool;
  bytesDownlaodedInChokePeriod : Z        (* int64 *)
}.

Definition set_amInterested (b : bool) (p : Peer) : Peer :=
  mkPeer (Peer_Peer p) b (amChoking p) (peerChoking p) (optimisticUnhoked p)
         (bytesDownlaodedInChokePeriod p).
Definition set_amChoking (b : bool) (p : Peer) : Peer :=
  mkPeer (Peer_Peer p) (amInterested p) b (peerChoking p) (optimisticUnhoked p)
         (bytesDownlaodedInChokePeriod p).
Definition set_peerChoking (b : bool) (p : Peer) : Peer :=
  mkPeer (Peer_Peer p) (amInterested p) (amChoking p) b (optimisticUnhoked p)
         (bytesDownlaodedInChokePeriod p).
Definition set_optimisticUnhoked (b : bool) (p : Peer) : Peer :=
  mkPeer (Peer_Peer p) (amInterested p) (amChoking p) (peerChoking p) b
         (bytesDownlaodedInChokePeriod p).
Definition set_bytes (z : Z) (p : Peer) : Peer :=
  mkPeer (Peer_Peer p) (amInterested p) (amChoking p) (peerChoking p)
         (optimisticUnhoked p) z.

(** A [piecedownloader.PieceDownloader]: the piece (by index) and the peer it
    was created for by [piecedownloader.New(p.Piece, pe.Peer)]. *)
Record PieceDownloader : Type := mkPD {
  pdPiece : nat;
  pdPeer : PeerKey
}.

Global Instance PieceDownloader_eq_dec : EqDecision PieceDownloader.
Proof. solve_decision. Defined.

(** The downloader's [Piece] (declared next to [Peer]); [Index] is the field
    of the embedded [*torrentdata.Piece]. *)
Record Piece : Type := mkPiece {
  Index : nat;                                   (* uint32 *)
  havingPeers : gmap positive (option positive);       (* map[*peer.Peer]*Peer *)
  allowedFastPeers : gmap positive (option positive);  (* map[*peer.Peer]*Peer *)
  requestedPeers : gmap positive PieceDownloader;
  writing : bool
}.

Definition set_havingPeers (m : gmap positive (option positive)) (p : Piece) :=
  mkPiece (Index p) m (allowedFastPeers p) (requestedPeers p) (writing p).
Definition set_allowedFastPeers (m : gmap positive (option positive)) (p : Piece) :=
  mkPiece (Index p) (havingPeers p) m (requestedPeers p) (writing p).
Definition set_requestedPeers (m : gmap positive PieceDownloader) (p : Piece) :=
  mkPiece (Index p) (havingPeers p) (allowedFastPeers p) m (writing p).
Definition set_writing (b : bool) (p : Piece) :=
  mkPiece (Index p) (havingPeers p) (allowedFastPeers p) (requestedPeers p) b.

(** A block request and a block, as the loop sees them. *)
Record RequestMsg : Type := mkRequest {
  reqPeer : PeerKey;
  reqFastExtension : bool;     (* msg.Peer.FastExtension *)
  reqIndex : nat;
  reqBegin : nat;
  reqLength : nat
}.

Record PieceMsg : Type := mkPieceMsg {
  pmPeer : PeerKey;
  pmIndex : nat;
  pmBegin : nat;
  pmData : list Byte.byte
}.

(** What one iteration of the loop launches, in program order. *)
Inductive Effect : Type :=
| SendHave (p : PeerKey) (i : nat)
| SendInterested (p : PeerKey)
| SendNotInterested (p : PeerKey)
| SendChoke (p : PeerKey)
| SendUnchoke (p : PeerKey)
| SendReject (p : PeerKey) (i b l : nat)
| GoSendPiece (r : RequestMsg)                    (* go d.sendPiece(pe, msg) *)
| StartDownload (pd : PieceDownloader)            (* workers.StartWithOnFinishHandler *)
| WriteRequest (i : nat) (buf : list Byte.byte)   (* d.writeRequests <- ... *)
| ErrSend (err : string)                          (* d.errC <- resp.Error *)
| CheckCompletion                                 (* d.data.CheckCompletion() *)
| SemSignal (n : nat)                             (* downloaders.Signal(n) *)
| SemBlock                                        (* downloaders.Block() *)
| ToUnchokeC (pd : PieceDownloader)
| ToChokeC (pd : PieceDownloader)
| ToPieceC (pd : PieceDownloader) (m : PieceMsg)
| LogLine (s : string).

(** The state the loop owns.  [bitfield] is [d.data.Bitfield()];
    [sortedPieces] holds pointers into [pieces], kept as indices; [store]
    holds the [Peer] objects that [&Peer{...}] allocated. *)
Record Downloader : Type := mkDownloader {
  bitfield : list bool;
  pieces : list Piece;
  sortedPieces : list nat;
  store : gmap positive Peer;
  connectedPeers : gmap positive (option positive);
  downloads : gmap positive PieceDownloader;
  optimisticUnchokedPeer : option positive
}.

Definition set_bitfield (x : list bool) (d : Downloader) :=
  mkDownloader x (pieces d) (sortedPieces d) (store d) (connectedPeers d)
               (downloads d) (optimisticUnchokedPeer d).
Definition set_pieces (x : list Piece) (d : Downloader) :=
  mkDownloader (bitfield d) x (sortedPieces d) (store d) (connectedPeers d)
               (downloads d) (optimisticUnchokedPeer d).
Definition set_sortedPieces (x : list nat) (d : Downloader) :=
  mkDownloader (bitfield d) (pieces d) x (store d) (connectedPeers d)
               (downloads d) (optimisticUnchokedPeer d).
Definition set_store (x : gmap positive Peer) (d : Downloader) :=
  mkDownloader (bitfield d) (pieces d) (sortedPieces d) x (connectedPeers d)
               (downloads d) (optimisticUnchokedPeer d).
Definition set_connectedPeers (x : gmap positive (option positive)) (d : Downloader) :=
  mkDownloader (bitfield d) (pieces d) (sortedPieces d) (store d) x
               (downloads d) (optimisticUnchokedPeer d).
Definition set_downloads (x : gmap positive PieceDownloader) (d : Downloader) :=
  mkDownloader (bitfield d) (pieces d) (sortedPieces d) (store d)
               (connectedPeers d) x (optimisticUnchokedPeer d).
Definition set_optimisticUnchokedPeer (x : option positive) (d : Downloader) :=
  mkDownloader (bitfield d) (pieces d) (sortedPieces d) (store d)
               (connectedPeers d) (downloads d) x.

(** ** The loop's monad: state, effect trace, panic *)

Inductive Result (A : Type) : Type :=
| Ok (a : A) (d : Downloader) (tr : list Effect)
| Panic (why : string).
Arguments Ok {A} a d tr.
Arguments Panic {A} why.

Definition M (A : Type) : Type := Downloader → Result A.

Definition ret {A} (a : A) : M A := λ d, Ok a d [].

Definition bind {A B} (m : M A) (f : A → M B) : M B :=
  λ d, match m d with
       | Ok a d1 t1 =>
           match f a d1 with
           | Ok b d2 t2 => Ok b d2 (t1 ++ t2)
           | Panic w => Panic w
           end
       | Panic w => Panic w
       end.

Notation "'do' x <- m ; k" := (bind m (λ x, k))
  (at level 10, x name, m at level 100, k at level 200).
Notation "m ;; k" := (bind m (λ _, k))
  (at level 100, k at level 200, right associativity).

Definition get : M Downloader := λ d, Ok d d [].
Definition modify (f : Downloader → Downloader) : M unit := λ d, Ok tt (f d) [].
Definition emit (e : Effect) : M unit := λ d, Ok tt d [e].
Definition panic {A} (why : string) : M A := λ _, Panic why.

(** [for _, x := range l { body x }] over an already enumerated list. *)
Fixpoint forEach {A} (l : list A) (body : A → M unit) : M unit :=
  match l with
  | [] => ret tt
  | x :: l' => body x ;; forEach l' body
  end.

(** ** Pointers and indexing *)

(** Reading through a [*Peer]: a [nil] pointer panics.  An address outside
    the store is not a Go state (objects are never freed); it is given the
    same outcome. *)
Definition load (pe : option positive) : M Peer :=
  λ d, match pe with
       | None => Panic "nil pointer dereference"
       | Some a =>
           match store d !! a with
           | Some p => Ok p d []
           | None => Panic "nil pointer dereference"
           end
       end.

(** Writing a field through a [*Peer]. *)
Definition update (pe : option positive) (f : Peer → Peer) : M unit :=
  do p <- load pe;
  match pe with
  | Some a => modify (λ d, set_store (<[a := f p]> (store d)) d)
  | None => ret tt
  end.

(** [m[k]] on a map of pointers: the zero value [nil] when [k] is absent. *)
Definition mapGet (m : gmap positive (option positive)) (k : positive) : option positive :=
  default None (m !! k).

(** [d.pieces[i]] as an r-value and as an l-value: out of range panics. *)
Definition pieceAt (i : nat) : M Piece :=
  λ d, match pieces d !! i with
       | Some p => Ok p d []
       | None => Panic "index out of range"
       end.

Definition updatePiece (i : nat) (f : Piece → Piece) : M unit :=
  do p <- pieceAt i;
  modify (λ d, set_pieces (<[i := f p]> (pieces d)) d).

(** Modelled from the spec: the [Bitfield] of locally complete pieces, whose
    package is not among the sources, is the spec's ordered sequence of bits
    indexed from 0 with [set], [test], [count] and [len].  An index past the
    end is outside what the spec describes; it is treated like a slice index
    out of range. *)
Definition bfTest (i : nat) : M bool :=
  λ d, match bitfield d !! i with
       | Some b => Ok b d []
       | None => Panic "index out of range"
       end.

(** Modelled from the spec: [set(i)] of the same bitfield. *)
Definition bfSet (i : nat) : M unit :=
  λ d, match bitfield d !! i with
       | Some _ => Ok tt (set_bitfield (<[i := true]> (bitfield d)) d) []
       | None => Panic "index out of range"
       end.

(** Modelled from the spec: [count()], the number of set bits (of the
    bitfield a peer sent). *)
Definition bfCount (bf : list bool) : nat := length (filter (λ b, b = true) bf).

(** ** What the Go run time and the piece store decide *)

(** The order [sort.Sort] establishes for a [Less]: no element is [Less]
    than one before it. *)
Definition inOrder {A} (less : A → A → bool) : relation A :=
  λ a b, less b a = false.

Global Instance inOrder_dec {A} (less : A → A → bool) a b :
  Decision (inOrder less a b) := bool_eq_dec (less b a) false.

(** The loop depends on three things it does not control: the order in which
    [range] enumerates a map (unspecified, and chosen anew each time a [range]
    statement is run: the first two arguments are the line of the statement
    and the iteration of the loop around it), the permutation
    [sort.Sort] produces (not stable), and the value of [rand.Intn]; and on
    the piece store's hash check.  All results below hold for every such
    choice. *)
Class Runtime : Type := {
  mapRange : nat → nat → list (positive * option positive) → list (positive * option positive);
  mapRange_perm : ∀ line k l, mapRange line k l ≡ₚ l;
  goSort : ∀ {A : Type}, (A → A → bool) → list A → list A;
  goSort_perm : ∀ A (less : A → A → bool) l, goSort less l ≡ₚ l;
  goSort_sorted : ∀ A (less : A → A → bool) l,
      Transitive (inOrder less) → Total (inOrder less) →
      StronglySorted (inOrder less) (goSort less l);
  randIntn : nat → nat;
  randIntn_lt : ∀ n, 0 < n → randIntn n < n;
  Verify : nat → list Byte.byte → bool
}.

Section Orchestrator.

Context `{rt : Runtime}.

(** [for k, v := range m] at the [range] statement of line [line], run for
    the [k]-th time in this iteration of the loop. *)
Definition range (line k : nat) (m : gmap positive (option positive)) : list (positive * option positive) :=
  mapRange line k (map_to_list m).

(** ** [chokePeer], [unchokePeer], [updateInterestedState] *)

Definition chokePeer (pe : option positive) : M unit :=
  do p <- load pe;
  if negb (amChoking p) then
    update pe (set_amChoking true) ;;
    emit (SendChoke (Peer_Peer p))
  else ret tt.

Definition unchokePeer (pe : option positive) : M unit :=
  do p <- load pe;
  if amChoking p then
    update pe (set_amChoking false) ;;
    emit (SendUnchoke (Peer_Peer p))
  else ret tt.

(** The loop of [updateInterestedState]: [i] runs from [i] to
    [Bitfield().Len()], [n] iterations remain, and the loop breaks at the
    first piece we lack and the peer has. *)
Fixpoint interestedLoop (pe : option positive) (i n : nat) : M bool :=
  match n with
  | O => ret false
  | S n' =>
      do weHave <- bfTest i;
      do pc <- pieceAt i;
      do p <- load pe;
      let peerHave := bool_decide (is_Some (havingPeers pc !! Peer_Peer p)) in
      if negb weHave && peerHave then ret true
      else interestedLoop pe (S i) n'
  end.

Definition updateInterestedState (pe : option positive) : M unit :=
  do d <- get;
  do interested <- interestedLoop pe 0 (length (bitfield d));
  do p <- load pe;
  if negb (amInterested p) && interested then
    update pe (set_amInterested true) ;;
    emit (SendInterested (Peer_Peer p))
  else if amInterested p && negb interested then
    update pe (set_amInterested false) ;;
    emit (SendNotInterested (Peer_Peer p))
  else ret tt.

(** ** The selector: [nextDownload] *)

(** [len(p.havingPeers)] and [p.Index] through a pointer into [pieces]. *)
Definition availability (ps : list Piece) (i : nat) : nat :=
  from_option (λ p, size (havingPeers p)) 0 (ps !! i).

Definition indexOf (ps : list Piece) (i : nat) : nat :=
  from_option Index 0 (ps !! i).

(** Modelled from the spec: [ByAvailability], the [sort.Interface] over
    [[]*Piece] that [nextDownload] sorts with, is declared outside the
    sources; the spec gives its order as availability ascending, key
    [len(having_peers)], ties broken by piece index.  The arguments are the
    pointers being compared. *)
Definition ByAvailability_Less (ps : list Piece) (i j : nat) : bool :=
  (availability ps i <? availability ps j)
  || ((availability ps i =? availability ps j) && (indexOf ps i <? indexOf ps j)).

(** The first loop over [p.havingPeers]: allowed-fast peers, whatever their
    choke state. *)
Fixpoint firstAllowedFast (p : Piece) (l : list (positive * option positive))
  : M (option PieceDownloader) :=
  match l with
  | [] => ret None
  | (_, pe) :: l' =>
      do x <- load pe;
      do d <- get;
      if negb (bool_decide (is_Some (allowedFastPeers p !! Peer_Peer x))) then
        firstAllowedFast p l'
      else if bool_decide (is_Some (downloads d !! Peer_Peer x)) then
        firstAllowedFast p l'
      else ret (Some (mkPD (Index p) (Peer_Peer x)))
  end.

(** The second loop over [p.havingPeers]: peers that do not choke us. *)
Fixpoint firstUnchoked (p : Piece) (l : list (positive * option positive))
  : M (option PieceDownloader) :=
  match l with
  | [] => ret None
  | (_, pe) :: l' =>
      do x <- load pe;
      do d <- get;
      if peerChoking x then firstUnchoked p l'
      else if bool_decide (is_Some (downloads d !! Peer_Peer x)) then
        firstUnchoked p l'
      else ret (Some (mkPD (Index p) (Peer_Peer x)))
  end.

(** [for _, p := range d.sortedPieces]; [k] counts the iterations. *)
Fixpoint scanPieces (k : nat) (l : list nat) : M (option PieceDownloader) :=
  match l with
  | [] => ret None
  | i :: l' =>
      do p <- pieceAt i;
      do have <- bfTest (Index p);
      if have then scanPieces (S k) l'
      else if 0 <? size (requestedPeers p) then scanPieces (S k) l'
      else if writing p then scanPieces (S k) l'
      else if size (havingPeers p) =? 0 then scanPieces (S k) l'
      else
        do r <- firstAllowedFast p (range 258 k (havingPeers p));
        match r with
        | Some pd => ret (Some pd)
        | None =>
            do r <- firstUnchoked p (range 268 k (havingPeers p));
            match r with
            | Some pd => ret (Some pd)
            | None => scanPieces (S k) l'
            end
        end
  end.

(** [nextDownload] (lines 242-280). *)
Definition nextDownload : M (option PieceDownloader) :=
  do d <- get;
  let sorted := goSort (ByAvailability_Less (pieces d)) (sortedPieces d) in
  modify (set_sortedPieces sorted) ;;
  scanPieces 0 sorted.

(** ** The choking timers *)

(** [pe.bytesDownlaodedInChokePeriod] through a pointer. *)
Definition rateOf (st : gmap positive Peer) (pe : option positive) : Z :=
  from_option bytesDownlaodedInChokePeriod 0%Z (pe ≫= (st !!.)).

(** Modelled from the spec: [ByDownloadRate], the [sort.Interface] over
    [[]*Peer] of the regular unchoke, is declared outside the sources; the
    spec gives its order as [bytes_downloaded_in_choke_period] descending. *)
Definition ByDownloadRate_Less (st : gmap positive Peer) (a b : option positive) : bool :=
  (rateOf st b <? rateOf st a)%Z.

(** [for _, pe := range d.connectedPeers { if keep(pe) { peers = append(peers, pe) } }] *)
Fixpoint collect (keep : Peer → bool) (l : list (positive * option positive))
  : M (list (option positive)) :=
  match l with
  | [] => ret []
  | (_, pe) :: l' =>
      do p <- load pe;
      do rest <- collect keep l';
      ret (if keep p then pe :: rest else rest)
  end.

(** [for i, pe := range peers { if i == 3 { break }; d.unchokePeer(pe);
    unchokedPeers[pe] = struct{}{} }], returning [unchokedPeers]. *)
Fixpoint unchokeTop (i : nat) (peers : list (option positive))
         (unchokedPeers : gset (option positive)) : M (gset (option positive)) :=
  match peers with
  | [] => ret unchokedPeers
  | pe :: peers' =>
      if i =? 3 then ret unchokedPeers
      else
        unchokePeer pe ;;
        unchokeTop (S i) peers' ({[pe]} ∪ unchokedPeers)
  end.

(** [case <-unchokeTimer.C] (lines 180-203). *)
Definition tickUnchoke : M unit :=
  do d <- get;
  do peers <- collect (λ p, negb (optimisticUnhoked p)) (range 182 0 (connectedPeers d));
  do d <- get;
  let peers := goSort (ByDownloadRate_Less (store d)) peers in
  forEach (range 188 0 (connectedPeers d)) (λ kv, update kv.2 (set_bytes 0%Z)) ;;
  do unchokedPeers <- unchokeTop 0 peers ∅;
  forEach (range 199 0 (connectedPeers d))
          (λ kv, if bool_decide (kv.2 ∈ unchokedPeers) then ret tt else chokePeer kv.2).

(** [case <-optimisticUnchokeTimer.C] (lines 204-218). *)
Definition tickOptimisticUnchoke : M unit :=
  do d <- get;
  do peers <- collect (λ p, negb (optimisticUnhoked p) && amChoking p)
                      (range 206 0 (connectedPeers d));
  (match optimisticUnchokedPeer d with
   | Some _ =>
       update (optimisticUnchokedPeer d) (set_optimisticUnhoked false) ;;
       chokePeer (optimisticUnchokedPeer d)
   | None => ret tt
   end) ;;
  (* rand.Intn panics when its argument is not positive *)
  if length peers =? 0 then panic "invalid argument to Intn"
  else
    match peers !! randIntn (length peers) with
    | None => panic "index out of range"
    | Some pe =>
        update pe (set_optimisticUnhoked true) ;;
        unchokePeer pe ;;
        modify (set_optimisticUnchokedPeer pe)
    end.

(** ** One iteration of the loop of [Run] *)

(** How a finished piece downloader is read by the inner [select]:
    [pd.DoneC] with the bytes (and then whether the write request was sent
    or [stopC] won the second [select]), [pd.ErrC], or [stopC]. *)
Inductive PdOutcome : Type :=
| PdDone (buf : list Byte.byte) (submitted : bool)
| PdErr (err : string)
| PdStop.

(** The case of the outer [select] that fired, with what was received. *)
Inductive Event : Type :=
| EvWait                                              (* <-downloaders.Wait *)
| EvDownloadDone (pd : PieceDownloader) (o : PdOutcome)
| EvWriteResponse (i : nat) (err : option string)
| EvHave (pe : PeerKey) (i : nat)
| EvBitfield (pe : PeerKey) (bf : list bool)
| EvHaveAll (pe : PeerKey)
| EvAllowedFast (pe : PeerKey) (i : nat)
| EvUnchoke (pe : PeerKey)
| EvChoke (pe : PeerKey)
| EvPiece (msg : PieceMsg)
| EvRequest (msg : RequestMsg)
| EvUnchokeTick
| EvOptimisticUnchokeTick
| EvConnect (p : PeerKey)
| EvDisconnect (pe : PeerKey)
| EvStop.

(** [Next]: the loop goes on to its next iteration; [Return]: [Run] returns. *)
Inductive Flow : Type := Next | Return.

(** [case <-downloaders.Wait] (lines 77-93). *)
Definition onWait : M Flow :=
  do pd <- nextDownload;
  match pd with
  | None => emit SemBlock ;; ret Next
  | Some pd =>
      emit (LogLine "downloading piece") ;;
      modify (λ d, set_downloads (<[pdPeer pd := pd]> (downloads d)) d) ;;
      updatePiece (pdPiece pd)
        (λ p, set_requestedPeers (<[pdPeer pd := pd]> (requestedPeers p)) p) ;;
      emit (StartDownload pd) ;;
      ret Next
  end.

(** [case pd := <-d.downloadDone] (lines 94-115). *)
Definition onDownloadDone (pd : PieceDownloader) (o : PdOutcome) : M Flow :=
  modify (λ d, set_downloads (delete (pdPeer pd) (downloads d)) d) ;;
  updatePiece (pdPiece pd)
    (λ p, set_requestedPeers (delete (pdPeer pd) (requestedPeers p)) p) ;;
  emit (SemSignal 1) ;;
  match o with
  | PdDone buf submitted =>
      do p <- pieceAt (pdPiece pd);
      let ok := Verify (Index p) buf in
      if negb ok then ret Next
      else if submitted then
        emit (WriteRequest (pdPiece pd) buf) ;;
        updatePiece (pdPiece pd) (set_writing true) ;;
        ret Next
      else ret Return
  | PdErr err => emit (LogLine "could not download piece:") ;; ret Next
  | PdStop => ret Return
  end.

(** [case resp := <-d.writeResponses] (lines 116-128); [i] is
    [resp.Request.Piece.Index] and [err] is [resp.Error]. *)
Definition onWriteResponse (i : nat) (err : option string) : M Flow :=
  updatePiece i (set_writing false) ;;
  match err with
  | Some e => emit (ErrSend e) ;; ret Next
  | None =>
      bfSet i ;;
      emit CheckCompletion ;;
      do d <- get;
      forEach (range 125 0 (connectedPeers d))
              (λ kv, do p <- load kv.2;
                     emit (SendHave (Peer_Peer p) i) ;;
                     updateInterestedState kv.2) ;;
      ret Next
  end.

(** [d.pieces[i].havingPeers[pe] = d.connectedPeers[pe]] *)
Definition addHaving (i : nat) (pe : PeerKey) : M unit :=
  do d <- get;
  updatePiece i (λ p, set_havingPeers (<[pe := mapGet (connectedPeers d) pe]> (havingPeers p)) p).

(** [case msg := <-d.messages.Have] (lines 129-133). *)
Definition onHave (pe : PeerKey) (i : nat) : M Flow :=
  emit (SemSignal 1) ;;
  addHaving i pe ;;
  do d <- get;
  updateInterestedState (mapGet (connectedPeers d) pe) ;;
  ret Next.

(** [case msg := <-d.messages.Bitfield] (lines 134-142). *)
Definition onBitfield (pe : PeerKey) (bf : list bool) : M Flow :=
  forEach (seq 0 (length bf))
          (λ i, if default false (bf !! i) then addHaving i pe else ret tt) ;;
  emit (SemSignal (bfCount bf)) ;;
  do d <- get;
  updateInterestedState (mapGet (connectedPeers d) pe) ;;
  ret Next.

(** [case pe := <-d.messages.HaveAll] (lines 143-149). *)
Definition onHaveAll (pe : PeerKey) : M Flow :=
  do d <- get;
  forEach (seq 0 (length (pieces d))) (λ i, addHaving i pe) ;;
  emit (SemSignal (length (pieces d))) ;;
  updateInterestedState (mapGet (connectedPeers d) pe) ;;
  ret Next.

(** [case msg := <-d.messages.AllowedFast] (lines 150-151). *)
Definition onAllowedFast (pe : PeerKey) (i : nat) : M Flow :=
  do d <- get;
  updatePiece i (λ p, set_allowedFastPeers
                        (<[pe := mapGet (connectedPeers d) pe]> (allowedFastPeers p)) p) ;;
  ret Next.

(** [case pe := <-d.messages.Unchoke] (lines 152-157). *)
Definition onUnchoke (pe : PeerKey) : M Flow :=
  emit (SemSignal 1) ;;
  do d <- get;
  update (mapGet (connectedPeers d) pe) (set_peerChoking false) ;;
  match downloads d !! pe with
  | Some pd => emit (ToUnchokeC pd)
  | None => ret tt
  end ;;
  ret Next.

(** [case pe := <-d.messages.Choke] (lines 158-162). *)
Definition onChoke (pe : PeerKey) : M Flow :=
  do d <- get;
  update (mapGet (connectedPeers d) pe) (set_peerChoking true) ;;
  match downloads d !! pe with
  | Some pd => emit (ToChokeC pd)
  | None => ret tt
  end ;;
  ret Next.

(** [case msg := <-d.messages.Piece] (lines 163-169). *)
Definition onPiece (msg : PieceMsg) : M Flow :=
  do d <- get;
  match connectedPeers d !! pmPeer msg with
  | Some pe =>
      update pe (λ p, set_bytes (wrap64 (bytesDownlaodedInChokePeriod p
                                         + Z.of_nat (length (pmData msg)))) p)
  | None => ret tt
  end ;;
  match downloads d !! pmPeer msg with
  | Some pd => emit (ToPieceC pd msg)
  | None => ret tt
  end ;;
  ret Next.

(** [case msg := <-d.messages.Request] (lines 170-179); [rejectPiece] and
    [sendPiece] are the goroutines it launches. *)
Definition onRequest (msg : RequestMsg) : M Flow :=
  do d <- get;
  match connectedPeers d !! reqPeer msg with
  | Some pe =>
      do p <- load pe;
      if amChoking p then
        if reqFastExtension msg then
          emit (SendReject (reqPeer msg) (reqIndex msg) (reqBegin msg) (reqLength msg))
        else ret tt
      else emit (GoSendPiece msg)
  | None => ret tt
  end ;;
  ret Next.

(** [case p := <-d.messages.Connect] (lines 219-228); the new [Peer] gets an
    address that is not in use. *)
Definition onConnect (p : PeerKey) : M Flow :=
  do d <- get;
  let a := fresh (dom (store d)) in
  modify (λ d, set_store (<[a := mkPeer p false true true false 0%Z]> (store d)) d) ;;
  modify (λ d, set_connectedPeers (<[p := Some a]> (connectedPeers d)) d) ;;
  do d <- get;
  (if size (connectedPeers d) <=? 4 then unchokePeer (Some a) else ret tt) ;;
  ret Next.

(** [case pe := <-d.messages.Disconnect] (lines 229-235). *)
Definition onDisconnect (pe : PeerKey) : M Flow :=
  modify (λ d, set_connectedPeers (delete pe (connectedPeers d)) d) ;;
  do d <- get;
  forEach (seq 0 (length (pieces d)))
          (λ i, updatePiece i (λ p, set_havingPeers (delete pe (havingPeers p)) p) ;;
                updatePiece i (λ p, set_allowedFastPeers (delete pe (allowedFastPeers p)) p) ;;
                updatePiece i (λ p, set_requestedPeers (delete pe (requestedPeers p)) p)) ;;
  ret Next.

(** The body of the [select] of [Run] (lines 76-238). *)
Definition handle (e : Event) : M Flow :=
  match e with
  | EvWait => onWait
  | EvDownloadDone pd o => onDownloadDone pd o
  | EvWriteResponse i err => onWriteResponse i err
  | EvHave pe i => onHave pe i
  | EvBitfield pe bf => onBitfield pe bf
  | EvHaveAll pe => onHaveAll pe
  | EvAllowedFast pe i => onAllowedFast pe i
  | EvUnchoke pe => onUnchoke pe
  | EvChoke pe => onChoke pe
  | EvPiece msg => onPiece msg
  | EvRequest msg => onRequest msg
  | EvUnchokeTick => tickUnchoke ;; ret Next
  | EvOptimisticUnchokeTick => tickOptimisticUnchoke ;; ret Next
  | EvConnect p => onConnect p
  | EvDisconnect pe => onDisconnect pe
  | EvStop => ret Return
  end.

(** The loop [for { select { ... } }] of [Run], fed the events its [select]
    receives, in order. *)
Fixpoint run (es : list Event) : M Flow :=
  match es with
  | [] => ret Next
  | e :: es' =>
      do f <- handle e;
      match f with
      | Next => run es'
      | Return => ret Return
      end
  end.

End Orchestrator.

(** [New]: every piece starts with empty maps, and [sortedPieces[i]] points
    at [pieces[i]].  [n] is [len(d.Pieces)] and [bf] the torrent's bitfield. *)
Definition New (n : nat) (bf : list bool) : Downloader :=
  mkDownloader bf
               (map (λ i, mkPiece i ∅ ∅ ∅ false) (seq 0 n))
               (seq 0 n) ∅ ∅ ∅ None.

(** A run time to compute with: [range] enumerates a map in the order of
    [map_to_list], [sort.Sort] is a merge sort, [rand.Intn] returns 0, and
    the hash check is [verify]. *)
Definition simpleRuntime (verify : nat → list Byte.byte → bool) : Runtime :=
  {| mapRange := λ _ _ l, l;
     mapRange_perm := λ _ _ l, reflexivity l;
     goSort := λ A less, merge_sort (inOrder less);
     goSort_perm := λ A less l, merge_sort_Permutation _ l;
     goSort_sorted := λ A less l HT HTot, StronglySorted_merge_sort _ l;
     randIntn := λ _, 0;
     randIntn_lt := λ n H, H;
     Verify := verify |}.

(** The state [Run] is in after a prefix of events, starting from [New]. *)
Definition stateAfter (rt : Runtime) (n : nat) (bf : list bool) (es : list Event)
  : option Downloader :=
  match run es (New n bf) with
  | Ok _ d _ => Some d
  | Panic _ => None
  end.

(** ** Predicates the statements are written with *)

(** The pointer [pe] stored under the key [k] is the address of a [Peer]
    object of the store whose embedded [*peer.Peer] is [k]. *)
Definition pointsTo (d : Downloader) (k : positive) (pe : option positive) : Prop :=
  match pe ≫= (store d !!.) with
  | Some x => Peer_Peer x = k
  | None => False
  end.

Global Instance pointsTo_dec d k pe : Decision (pointsTo d k pe).
Proof. unfold pointsTo. destruct (pe ≫= (store d !!.)); apply _. Defined.

(** What Go's types and [New] guarantee about a state of the loop, and what
    the model's indices and addresses have to respect: the bitfield has one
    bit per piece, [pieces[i].Index] is [i], [sortedPieces] holds one pointer
    to each piece, and the values of [connectedPeers] and of the pieces'
    [havingPeers] are live [Peer] objects of the key they are stored
    under. *)
Record wf (d : Downloader) : Prop := mkWf {
  wf_bitfield : length (bitfield d) = length (pieces d);
  wf_indices : Index <$> pieces d = seq 0 (length (pieces d));
  wf_sortedPieces : sortedPieces d ≡ₚ seq 0 (length (pieces d));
  wf_connectedPeers : map_Forall (pointsTo d) (connectedPeers d);
  wf_havingPeers :
    Forall (λ pc, map_Forall (pointsTo d) (havingPeers pc)) (pieces d)
}.

Global Instance wf_dec d : Decision (wf d).
Proof.
  refine (match decide
    (length (bitfield d) = length (pieces d)
     ∧ Index <$> pieces d = seq 0 (length (pieces d))
     ∧ sortedPieces d ≡ₚ seq 0 (length (pieces d))
     ∧ map_Forall (pointsTo d) (connectedPeers d)
     ∧ Forall (λ pc, map_Forall (pointsTo d) (havingPeers pc)) (pieces d))
          with
          | left H => left _
          | right H => right _
          end).
  - by destruct H as (? & ? & ? & ? & ?).
  - intros []. by apply H.
Defined.

(** The four guards of the scan in [nextDownload], as one test: the piece is
    not in the bitfield, nobody is requested for it, it is not being written
    and some peer has it. *)
Definition eligible (d : Downloader) (pc : Piece) : bool :=
  match bitfield d !! Index pc with
  | Some false =>
      (size (requestedPeers pc) =? 0) && negb (writing pc)
      && negb (size (havingPeers pc) =? 0)
  | _ => false
  end.

(** [q] passes the first loop over [pc.havingPeers]: it has the piece, it
    allowed it fast, and it has no download. *)
Definition fastCandidate (d : Downloader) (pc : Piece) (q : positive) : Prop :=
  is_Some (havingPeers pc !! q) ∧ is_Some (allowedFastPeers pc !! q)
  ∧ downloads d !! q = None.

(** [q] passes the second loop: it has the piece, it does not choke us, and
    it has no download. *)
Definition openCandidate (d : Downloader) (pc : Piece) (q : positive) : Prop :=
  ∃ a x, havingPeers pc !! q = Some (Some a) ∧ store d !! a = Some x
         ∧ peerChoking x = false ∧ downloads d !! q = None.

Definition candidate (d : Downloader) (pc : Piece) (q : positive) : Prop :=
  fastCandidate d pc q ∨ openCandidate d pc q.

(** [q] is a peer the two loops may return for [pc]: an allowed-fast
    candidate, or, when the piece has none, a candidate that does not choke
    us. *)
Definition chosen (d : Downloader) (pc : Piece) (q : positive) : Prop :=
  fastCandidate d pc q
  ∨ ((∀ q', ¬ fastCandidate d pc q') ∧ openCandidate d pc q).

(** There is a piece we lack and [q] has. *)
Definition wants (d : Downloader) (q : positive) : Prop :=
  ∃ i pc, bitfield d !! i = Some false ∧ pieces d !! i = Some pc
          ∧ is_Some (havingPeers pc !! q).

(** What [Disconnect] does to one piece. *)
Definition forget (pe : positive) (p : Piece) : Piece :=
  set_requestedPeers (delete pe (requestedPeers p))
    (set_allowedFastPeers (delete pe (allowedFastPeers p))
       (set_havingPeers (delete pe (havingPeers p)) p)).

(** The [Have] messages of a trace, in order. *)
Definition haves (tr : list Effect) : list (positive * nat) :=
  omap (λ e, match e with SendHave p i => Some (p, i) | _ => None end) tr.

(** The write requests of a trace. *)
Definition writeRequests (tr : list Effect) : list nat :=
  omap (λ e, match e with WriteRequest i _ => Some i | _ => None end) tr.

(** ** Triples and invariants *)

(** [hoare P m Q]: from a state satisfying [P], if [m] does not panic, its
    result and final state satisfy [Q]. *)
Definition hoare {A} (P : Downloader → Prop) (m : M A)
           (Q : A → Downloader → Prop) : Prop :=
  ∀ d, P d → match m d with
             | Ok a d' _ => Q a d'
             | Panic _ => True
             end.

(** [m] keeps the invariant [I], whatever it returns. *)
Definition preserves {A} (I : Downloader → Prop) (m : M A) : Prop :=
  hoare I m (λ _, I).

(** The objects of [d] are still in the store of [d'], under the same
    address and for the same transport peer. *)
Definition extends (d d' : Downloader) : Prop :=
  ∀ a x, store d !! a = Some x →
         ∃ x', store d' !! a = Some x' ∧ Peer_Peer x' = Peer_Peer x.

(** The peer [pe] is connected, with its object at [a]; the peer [pe] is
    not connected. *)
Definition knows (pe a : positive) (d : Downloader) : Prop :=
  wf d ∧ mapGet (connectedPeers d) pe = Some a.

Definition unknown (pe : positive) (d : Downloader) : Prop :=
  mapGet (connectedPeers d) pe = None.

(** The object at [a] is flagged as the optimistic pick. *)
Definition flagged (a : positive) (d : Downloader) : Prop :=
  ∃ x, store d !! a = Some x ∧ optimisticUnhoked x = true.

(** The same, and we choke it. *)
Definition flaggedChoked (a : positive) (d : Downloader) : Prop :=
  ∃ x, store d !! a = Some x ∧ optimisticUnhoked x = true ∧ amChoking x = true.

(** ** What an iteration may launch *)

(** Every effect [m] launches, when it does not panic, satisfies [ok]. *)
Definition launches {A} (ok : Effect → Prop) (m : M A) : Prop :=
  ∀ d, match m d with
       | Ok _ _ tr => Forall ok tr
       | Panic _ => True
       end.

(** The kinds of effect each case of the [select] can launch. *)
Definition mayLaunch (e : Event) (eff : Effect) : Prop :=
  match e, eff with
  | EvWait, (SemBlock | LogLine _ | StartDownload _) => True
  | EvDownloadDone _ _, (SemSignal _ | WriteRequest _ _ | LogLine _) => True
  | EvWriteResponse _ _,
    (ErrSend _ | CheckCompletion | SendHave _ _ | SendInterested _
     | SendNotInterested _) => True
  | (EvHave _ _ | EvBitfield _ _ | EvHaveAll _),
    (SemSignal _ | SendInterested _ | SendNotInterested _) => True
  | EvUnchoke _, (SemSignal _ | ToUnchokeC _) => True
  | EvChoke _, ToChokeC _ => True
  | EvPiece _, ToPieceC _ _ => True
  | EvRequest _, (SendReject _ _ _ _ | GoSendPiece _) => True
  | (EvUnchokeTick | EvOptimisticUnchokeTick), (SendChoke _ | SendUnchoke _) => True
  | EvConnect _, SendUnchoke _ => True
  | _, _ => False
  end.

(** No piece has more than one peer requested for it. *)
Definition oneRequest (d : Downloader) : Prop :=
  Forall (λ pc, size (requestedPeers pc) ≤ 1) (pieces d).

(** The parts of the state, and which of them each case of the [select]
    can write. *)
Inductive Field : Type :=
| FBitfield | FPieces | FSortedPieces | FStore | FConnectedPeers | FDownloads
| FOptimisticUnchokedPeer.

Definition mayWrite (e : Event) (fld : Field) : Prop :=
  match e, fld with
  | EvWait, (FSortedPieces | FDownloads | FPieces) => True
  | EvDownloadDone _ _, (FDownloads | FPieces) => True
  | EvWriteResponse _ _, (FPieces | FBitfield | FStore) => True
  | (EvHave _ _ | EvBitfield _ _ | EvHaveAll _), (FPieces | FStore) => True
  | EvAllowedFast _ _, FPieces => True
  | (EvUnchoke _ | EvChoke _ | EvPiece _ | EvUnchokeTick), FStore => True
  | EvOptimisticUnchokeTick, (FStore | FOptimisticUnchokedPeer) => True
  | EvConnect _, (FStore | FConnectedPeers) => True
  | EvDisconnect _, (FConnectedPeers | FPieces) => True
  | _, _ => False
  end.

(** [d'] differs from [d] at most in the parts that [w] allows. *)
Record agree (w : Field → Prop) (d d' : Downloader) : Prop := mkAgree {
  agree_bitfield : ¬ w FBitfield → bitfield d' = bitfield d;
  agree_pieces : ¬ w FPieces → pieces d' = pieces d;
  agree_sortedPieces : ¬ w FSortedPieces → sortedPieces d' = sortedPieces d;
  agree_store : ¬ w FStore → store d' = store d;
  agree_connectedPeers : ¬ w FConnectedPeers → connectedPeers d' = connectedPeers d;
  agree_downloads : ¬ w FDownloads → downloads d' = downloads d;
  agree_optimisticUnchokedPeer :
    ¬ w FOptimisticUnchokedPeer → optimisticUnchokedPeer d' = optimisticUnchokedPeer d
}.

(** [m] writes only the parts that [w] allows. *)
Definition writes {A} (w : Field → Prop) (m : M A) : Prop :=
  ∀ d, match m d with
       | Ok _ d' _ => agree w d d'
       | Panic _ => True
       end.

(** [succeeds P m Q]: from a state satisfying [P], [m] does not panic, and its
    result and final state satisfy [Q]. *)
Definition succeeds {A} (P : Downloader → Prop) (m : M A)
           (Q : A → Downloader → Prop) : Prop :=
  ∀ d, P d → ∃ a d' tr, m d = Ok a d' tr ∧ Q a d'.

(** A well-formed state whose connected peers are [C]. *)
Definition connected (C : gmap positive (option positive)) (d : Downloader) : Prop :=
  wf d ∧ connectedPeers d = C.

(** The pointer [pe] is at a live [Peer] object that satisfies [φ]. *)
Definition holds (φ : Peer → Prop) (pe : option positive) (d : Downloader) : Prop :=
  ∃ a x, pe = Some a ∧ store d !! a = Some x ∧ φ x.

(** * The announcer ([internal/announcer/announcer.go]) *)

Module Announcer.

(** [time.Duration] is an [int64] count of nanoseconds. *)
Definition Second : Z := 1000000000.
Definition Minute : Z := 60 * Second.

Definition stopEventTimeout : Z := Minute.

(** The exported fields of [backoff.ExponentialBackOff] that [New] sets.
    The two factors are [float64] constants, exactly representable; they are
    kept as rationals. *)
Record BackOffConfig : Type := mkConfig {
  InitialInterval : Z;
  RandomizationFactor : Q;
  Multiplier : Q;
  MaxInterval : Z;
  MaxElapsedTime : Z
}.

Inductive Event : Type := EventNone | EventCompleted | EventStarted | EventStopped.

(** What [tracker.Announce] returns on success. *)
Record AnnounceResponse (Addr : Type) : Type := mkResponse {
  Interval : Z;
  Peers : list Addr
}.
Arguments mkResponse {Addr} _ _.
Arguments Interval {Addr} _.
Arguments Peers {Addr} _.

Section Announcer.

(** The back-off library (github.com/cenkalti/backoff) is outside the
    repository: its two methods are taken as they come, acting on the
    library's own state (current interval, start time, random source) under
    the configuration they were built with. *)
Context {BackOffState Transfer Addr : Type}.
Context (Reset : BackOffConfig → BackOffState → BackOffState).
Context (NextBackOff : BackOffConfig → BackOffState → Z * BackOffState).

Record Announcer : Type := mkAnnouncer {
  backoffConfig : BackOffConfig;
  backoffState : BackOffState;
  nextAnnounce : Z;
  completedC : bool          (* false once the channel is set to nil *)
}.

(** [New]: [s0] is the library state of a freshly built
    [ExponentialBackOff]; [nextAnnounce] starts at its zero value. *)
Definition New (s0 : BackOffState) : Announcer :=
  mkAnnouncer
    (mkConfig (5 * Second) (1 # 2) 2 (30 * Minute) 0 (* never stop *))
    s0 0 true.

(** What [announce] meets on its way: [stopC] at the first or at the second
    [select], or the transfer it is handed, the result of
    [tracker.Announce], and whether [stopC] wins the last [select] against
    the send on [peerList.NewPeers]. *)
Inductive World : Type :=
| StopBeforeRequest
| StopBeforeResponse
| Announced (t : Transfer) (res : string + AnnounceResponse Addr) (stopAtPush : bool).

Inductive Effect : Type :=
| SendRequest                                 (* a.requests <- req *)
| CallTracker (t : Transfer) (e : Event)      (* a.tracker.Announce(...) *)
| LogError (err : string)
| PushPeers (ps : list Addr).                 (* a.peerList.NewPeers <- r.Peers *)

Definition announce (e : Event) (w : World) (a : Announcer) : Announcer * list Effect :=
  match w with
  | StopBeforeRequest => (a, [])
  | StopBeforeResponse => (a, [SendRequest])
  | Announced t res stopAtPush =>
      match res with
      | inl err =>
          let (next, s) := NextBackOff (backoffConfig a) (backoffState a) in
          (mkAnnouncer (backoffConfig a) s next (completedC a),
           [SendRequest; CallTracker t e; LogError err])
      | inr r =>
          let s := Reset (backoffConfig a) (backoffState a) in
          (mkAnnouncer (backoffConfig a) s (Interval r) (completedC a),
           [SendRequest; CallTracker t e]
             ++ (if stopAtPush then [] else [PushPeers (Peers r)]))
      end
  end.

(** The cases of the [select] of [Run]. *)
Inductive Select : Type :=
| Timer (w : World)            (* <-time.After(a.nextAnnounce) *)
| Completed (w : World)        (* <-a.completedC *)
| Stop.

Fixpoint loop (sel : list Select) (a : Announcer) : Announcer * list Effect :=
  match sel with
  | [] => (a, [])
  | Timer w :: sel' =>
      let (a1, t1) := announce EventNone w a in
      let (a2, t2) := loop sel' a1 in
      (a2, t1 ++ t2)
  | Completed w :: sel' =>
      if completedC a then
        let (a1, t1) := announce EventCompleted w a in
        let a1 := mkAnnouncer (backoffConfig a1) (backoffState a1)
                              (nextAnnounce a1) false in
        let (a2, t2) := loop sel' a1 in
        (a2, t1 ++ t2)
      else loop sel' a             (* a nil channel is never ready *)
  | Stop :: _ => (a, [])
  end.

Definition Run (w : World) (sel : list Select) (a : Announcer)
  : Announcer * list Effect :=
  let a0 := mkAnnouncer (backoffConfig a)
                        (Reset (backoffConfig a) (backoffState a))
                        (nextAnnounce a) (completedC a) in
  let (a1, t1) := announce EventStarted w a0 in
  let (a2, t2) := loop sel a1 in
  (a2, t1 ++ t2).

(** The peer lists a trace pushed to the sink. *)
Definition pushed (tr : list Effect) : list (list Addr) :=
  omap (λ e, match e with PushPeers ps => Some ps | _ => None end) tr.

End Announcer.

End Announcer.

(** * Concrete runs *)

(** The run time of the examples; its hash check rejects every buffer. *)
Definition rt0 : Runtime := simpleRuntime (λ _ _, false).

Definition reached (n : nat) (bf : list bool) (es : list Event) : Downloader :=
  default (New 0 []) (stateAfter rt0 n bf es).

(** Two pieces, two peers.  Peer 1 has both pieces and chokes us; peer 2 has
    piece 1 and has unchoked us. *)
Definition twoPeers : Downloader :=
  reached 2 [false; false]
          [EvConnect 1; EvConnect 2; EvHave 1 0; EvHave 1 1; EvHave 2 1;
           EvUnchoke 2].

(** One piece, one peer that has it and has unchoked us, and the download of
    the piece from that peer under way. *)
Definition downloading : Downloader :=
  reached 1 [false] [EvConnect 1; EvHave 1 0; EvUnchoke 1; EvWait].

(** The same, after the peer has disconnected. *)
Definition disconnected : Downloader :=
  reached 1 [false] [EvConnect 1; EvHave 1 0; EvUnchoke 1; EvWait; EvDisconnect 1].

(** Five peers; the first four were unchoked as they connected, the fifth by
    the optimistic unchoke. *)
Definition fivePeers : Downloader :=
  reached 1 [false]
          [EvConnect 1; EvConnect 2; EvConnect 3; EvConnect 4; EvConnect 5;
           EvOptimisticUnchokeTick].

(** The same, after the regular unchoke timer has fired: it has choked
    peer 5, whose flag is still set, and peer 1. *)
Definition rechoked : Downloader :=
  reached 1 [false]
          [EvConnect 1; EvConnect 2; EvConnect 3; EvConnect 4; EvConnect 5;
           EvOptimisticUnchokeTick; EvUnchokeTick].

(** A run time whose hash check accepts every buffer. *)
Definition rt1 : Runtime := simpleRuntime (λ _ _, true).

(** A back-off library to compute with: no state, the initial interval as
    every next interval. *)
Definition announce0 :=
  Announcer.announce (BackOffState := unit) (Transfer := unit) (Addr := nat)
                     (λ _ s, s) (λ c s, (Announcer.InitialInterval c, s)).

(** The piece of [downloading], with peer 1 requested for it. *)
Definition piece0 : Piece :=
  mkPiece 0 {[1%positive := Some 1%positive]} ∅ {[1%positive := mkPD 0 1]} false.

(** An announce from [New] that the tracker answers with an interval of
    30 min and two peers, with [stopC] closed when the peers are offered to
    the peer list. *)
Definition stoppedAnnounce :=
  announce0 Announcer.EventNone
            (Announcer.Announced tt
               (inr (Announcer.mkResponse 1800000000000 [1; 2])) true)
            (Announcer.New tt).

(** * Properties *)

(** ** Running the monad *)

Lemma bind_get {B} (f : Downloader → M B) d : bind get f d = f d d.
Proof. unfold bind, get. by destruct (f d d). Qed.

Lemma bind_ret {A B} (a : A) (f : A → M B) d : bind (ret a) f d = f a d.
Proof. unfold bind, ret. by destruct (f a d). Qed.

Lemma bind_modify {B} g (f : unit → M B) d : bind (modify g) f d = f tt (g d).
Proof. unfold bind, modify. by destruct (f tt (g d)). Qed.

Lemma bind_run {A B} (m : M A) (f : A → M B) d a d1 t1 :
  m d = Ok a d1 t1 →
  bind m f d = match f a d1 with
               | Ok b d2 t2 => Ok b d2 (t1 ++ t2)
               | Panic w => Panic w
               end.
Proof. unfold bind. by intros ->. Qed.

Lemma bind_run0 {A B} (m : M A) (f : A → M B) d a d1 :
  m d = Ok a d1 [] → bind m f d = f a d1.
Proof. intros H. rewrite (bind_run _ _ _ _ _ _ H). by destruct (f a d1). Qed.

Lemma bind_panic {A B} (m : M A) (f : A → M B) d w :
  m d = Panic w → bind m f d = Panic w.
Proof. unfold bind. by intros ->. Qed.

Lemma bind_emit {B} e (f : unit → M B) d :
  bind (emit e) f d = match f tt d with
                      | Ok b d2 t2 => Ok b d2 (e :: t2)
                      | Panic w => Panic w
                      end.
Proof. done. Qed.

Lemma load_ok d a x : store d !! a = Some x → load (Some a) d = Ok x d [].
Proof. intros H. unfold load. by rewrite H. Qed.

Lemma update_ok d a x f :
  store d !! a = Some x →
  update (Some a) f d = Ok tt (set_store (<[a := f x]> (store d)) d) [].
Proof. intros H. unfold update. by rewrite (bind_run0 _ _ _ _ _ (load_ok _ _ _ H)). Qed.

Lemma pieceAt_ok d i pc : pieces d !! i = Some pc → pieceAt i d = Ok pc d [].
Proof. intros H. unfold pieceAt. by rewrite H. Qed.

Lemma bfTest_ok d i b : bitfield d !! i = Some b → bfTest i d = Ok b d [].
Proof. intros H. unfold bfTest. by rewrite H. Qed.

Lemma updatePiece_ok d i p f :
  pieces d !! i = Some p →
  updatePiece i f d = Ok tt (set_pieces (<[i := f p]> (pieces d)) d) [].
Proof.
  intros H. unfold updatePiece. by rewrite (bind_run0 _ _ _ _ _ (pieceAt_ok _ _ _ H)).
Qed.

Lemma set_amInterested_id b p : amInterested p = b → set_amInterested b p = p.
Proof. intros <-. by destruct p. Qed.

Lemma set_store_id d : set_store (store d) d = d.
Proof. by destruct d. Qed.

Lemma set_pieces_id d : set_pieces (pieces d) d = d.
Proof. by destruct d. Qed.

(** A loop whose body keeps an invariant of the entries processed so far,
    the state and the trace, runs to its end and establishes it for the
    whole list. *)
Lemma forEach_inv {A} (l : list A) (body : A → M unit)
      (I : list A → Downloader → list Effect → Prop) d :
  I [] d [] →
  (∀ done x rest d1 t1,
      l = done ++ x :: rest → I done d1 t1 →
      ∃ d2 t2, body x d1 = Ok tt d2 t2 ∧ I (done ++ [x]) d2 (t1 ++ t2)) →
  ∃ d' tr, forEach l body d = Ok tt d' tr ∧ I l d' tr.
Proof.
  intros H0 Hstep.
  cut (∀ rest done d1 t1,
          l = done ++ rest → I done d1 t1 →
          ∃ d' tr, forEach rest body d1 = Ok tt d' tr ∧ I l d' (t1 ++ tr)).
  { intros Hgen. apply (Hgen l [] d []); done. }
  induction rest as [|x rest IH]; intros done d1 t1 Hl HI.
  - exists d1, []. rewrite !app_nil_r in *. by subst.
  - destruct (Hstep done x rest d1 t1 Hl HI) as (d2 & t2 & Hb & HI2).
    destruct (IH (done ++ [x]) d2 (t1 ++ t2)) as (d' & tr & Hrun & HI');
      [by rewrite <- app_assoc|done|].
    exists d', (t2 ++ tr). cbn [forEach].
    rewrite (bind_run _ _ _ _ _ _ Hb), Hrun. by rewrite app_assoc.
Qed.

(** ** Well-formed states *)

Lemma pointsTo_inv d k pe :
  pointsTo d k pe → ∃ a x, pe = Some a ∧ store d !! a = Some x ∧ Peer_Peer x = k.
Proof.
  unfold pointsTo. destruct pe as [a|]; cbn; [|done].
  destruct (store d !! a) as [x|] eqn:E; [|done]. eauto.
Qed.

Lemma pointsTo_intro d k a x :
  store d !! a = Some x → Peer_Peer x = k → pointsTo d k (Some a).
Proof. intros H1 H2. unfold pointsTo. cbn. by rewrite H1. Qed.

Lemma wf_index d i pc : wf d → pieces d !! i = Some pc → Index pc = i.
Proof.
  intros Hwf Hpc. assert (Hi := wf_indices _ Hwf).
  assert ((Index <$> pieces d) !! i = Some (Index pc)) as Hl
    by (by rewrite list_lookup_fmap, Hpc).
  rewrite Hi in Hl. apply lookup_seq in Hl. lia.
Qed.

Lemma wf_connected d k pe :
  wf d → connectedPeers d !! k = Some pe → pointsTo d k pe.
Proof. intros Hwf. apply (wf_connectedPeers _ Hwf). Qed.

Lemma wf_having d i pc k pe :
  wf d → pieces d !! i = Some pc → havingPeers pc !! k = Some pe → pointsTo d k pe.
Proof.
  intros Hwf Hpc. assert (H := wf_havingPeers _ Hwf).
  rewrite Forall_lookup in H. apply (H _ _ Hpc).
Qed.

(** ** A small Hoare logic for the loop's monad *)


Lemma hoare_weaken {A} (P P' : Downloader → Prop) (m : M A) (Q Q' : A → Downloader → Prop) :
  hoare P' m Q' → (∀ d, P d → P' d) → (∀ a d, Q' a d → Q a d) → hoare P m Q.
Proof.
  intros H HP HQ d Hd. specialize (H d (HP d Hd)).
  destruct (m d); [by apply HQ|done].
Qed.

Lemma hoare_ret {A} (P : Downloader → Prop) (a : A) (Q : A → Downloader → Prop) :
  (∀ d, P d → Q a d) → hoare P (ret a) Q.
Proof. intros H d Hd. by apply H. Qed.

Lemma hoare_bind {A B} (P : Downloader → Prop) (m : M A) (f : A → M B)
      (R : A → Downloader → Prop) (Q : B → Downloader → Prop) :
  hoare P m R → (∀ a, hoare (R a) (f a) Q) → hoare P (bind m f) Q.
Proof.
  intros Hm Hf d Hd. unfold bind. specialize (Hm d Hd).
  destruct (m d) as [a d1 t1|]; [|done].
  specialize (Hf a d1 Hm). by destruct (f a d1).
Qed.

Lemma hoare_get (P : Downloader → Prop) : hoare P get (λ a d, a = d ∧ P d).
Proof. by intros d Hd. Qed.

Lemma hoare_modify (P : Downloader → Prop) f (Q : unit → Downloader → Prop) :
  (∀ d, P d → Q tt (f d)) → hoare P (modify f) Q.
Proof. intros H d Hd. by apply H. Qed.

Lemma hoare_emit (P : Downloader → Prop) e : hoare P (emit e) (λ _, P).
Proof. by intros d Hd. Qed.

Lemma hoare_panic {A} (P : Downloader → Prop) w (Q : A → Downloader → Prop) :
  hoare P (panic w) Q.
Proof. by intros d Hd. Qed.

Lemma hoare_load (P : Downloader → Prop) pe :
  hoare P (load pe)
        (λ x d, P d ∧ ∃ a, pe = Some a ∧ store d !! a = Some x).
Proof.
  intros d Hd. unfold load. destruct pe as [a|]; [|done].
  destruct (store d !! a) eqn:E; [|done]. eauto.
Qed.

Lemma hoare_update (P : Downloader → Prop) pe f (Q : unit → Downloader → Prop) :
  (∀ d a x, P d → pe = Some a → store d !! a = Some x →
            Q tt (set_store (<[a := f x]> (store d)) d)) →
  hoare P (update pe f) Q.
Proof.
  intros H d Hd. unfold update, bind, load. destruct pe as [a|]; [|done].
  destruct (store d !! a) eqn:E; [|done]. cbn. by eapply H.
Qed.

Lemma hoare_pieceAt (P : Downloader → Prop) i :
  hoare P (pieceAt i) (λ p d, P d ∧ pieces d !! i = Some p).
Proof. intros d Hd. unfold pieceAt. by destruct (pieces d !! i) eqn:E. Qed.

Lemma hoare_updatePiece (P : Downloader → Prop) i f (Q : unit → Downloader → Prop) :
  (∀ d p, P d → pieces d !! i = Some p →
          Q tt (set_pieces (<[i := f p]> (pieces d)) d)) →
  hoare P (updatePiece i f) Q.
Proof.
  intros H d Hd. unfold updatePiece, bind, pieceAt.
  destruct (pieces d !! i) eqn:E; [|done]. cbn. by eapply H.
Qed.

Lemma hoare_bfTest (P : Downloader → Prop) i :
  hoare P (bfTest i) (λ b d, P d ∧ bitfield d !! i = Some b).
Proof. intros d Hd. unfold bfTest. by destruct (bitfield d !! i) eqn:E. Qed.

Lemma hoare_bfSet (P : Downloader → Prop) i (Q : unit → Downloader → Prop) :
  (∀ d, P d → i < length (bitfield d) →
        Q tt (set_bitfield (<[i := true]> (bitfield d)) d)) →
  hoare P (bfSet i) Q.
Proof.
  intros H d Hd. unfold bfSet. destruct (bitfield d !! i) eqn:E; [|done].
  apply H; [done|]. by apply lookup_lt_Some in E.
Qed.

Lemma hoare_forEach {A} (I : Downloader → Prop) (l : list A) (body : A → M unit) :
  (∀ x, x ∈ l → hoare I (body x) (λ _, I)) →
  hoare I (forEach l body) (λ _, I).
Proof.
  induction l as [|x l IH]; intros Hb.
  - by apply hoare_ret.
  - cbn [forEach]. eapply hoare_bind.
    + apply Hb. left.
    + intros ?. apply IH. intros y Hy. apply Hb. by right.
Qed.

Lemma hoare_if {A} (P : Downloader → Prop) (b : bool) (m1 m2 : M A) Q :
  (b = true → hoare P m1 Q) → (b = false → hoare P m2 Q) →
  hoare P (if b then m1 else m2) Q.
Proof. destruct b; auto. Qed.

(** Reading the result of a run back from a triple. *)
Lemma hoare_run {A} (P : Downloader → Prop) (m : M A) Q d a d' tr :
  hoare P m Q → P d → m d = Ok a d' tr → Q a d'.
Proof. intros H Hd Hr. specialize (H d Hd). by rewrite Hr in H. Qed.

Lemma bind_assoc {A B C} (m : M A) (f : A → M B) (g : B → M C) d :
  bind (bind m f) g d = bind m (λ a, bind (f a) g) d.
Proof.
  unfold bind. destruct (m d) as [a d1 t1|]; [|done].
  destruct (f a d1) as [b d2 t2|]; [|done].
  destruct (g b d2) as [c d3 t3|]; [|done]. by rewrite app_assoc.
Qed.

Lemma hoare_ext {A} (P : Downloader → Prop) (m m' : M A) Q :
  (∀ d, m d = m' d) → hoare P m Q → hoare P m' Q.
Proof. intros He H d Hd. rewrite <- He. by apply H. Qed.

Lemma hoare_True {A} (P : Downloader → Prop) (m : M A) : hoare P m (λ _ _, True).
Proof. intros d _. by destruct (m d). Qed.

Lemma bind_ext {A B} (m : M A) (f g : A → M B) d :
  (∀ a d1, f a d1 = g a d1) → bind m f d = bind m g d.
Proof. intros H. unfold bind. destruct (m d) as [a d1 t1|]; [|done]. by rewrite H. Qed.


Lemma preserves_bind {A B} I (m : M A) (f : A → M B) :
  preserves I m → (∀ a, preserves I (f a)) → preserves I (bind m f).
Proof. intros Hm Hf. eapply hoare_bind; [exact Hm|exact Hf]. Qed.

Lemma preserves_ret {A} I (a : A) : preserves I (ret a).
Proof. by apply hoare_ret. Qed.

Lemma preserves_get I : preserves I get.
Proof. by intros d Hd. Qed.

Lemma preserves_emit I e : preserves I (emit e).
Proof. apply hoare_emit. Qed.

Lemma preserves_panic {A} I w : preserves I (panic (A := A) w).
Proof. apply hoare_panic. Qed.

Lemma preserves_load I pe : preserves I (load pe).
Proof. eapply hoare_weaken; [apply (hoare_load I)|done|by intros ?? [? _]]. Qed.

Lemma preserves_pieceAt I i : preserves I (pieceAt i).
Proof. eapply hoare_weaken; [apply (hoare_pieceAt I)|done|by intros ?? [? _]]. Qed.

Lemma preserves_bfTest I i : preserves I (bfTest i).
Proof. eapply hoare_weaken; [apply (hoare_bfTest I)|done|by intros ?? [? _]]. Qed.

Lemma preserves_modify I f : (∀ d, I d → I (f d)) → preserves I (modify f).
Proof. intros H. by apply hoare_modify. Qed.

Lemma preserves_update I pe f :
  (∀ d a x, I d → store d !! a = Some x →
            I (set_store (<[a := f x]> (store d)) d)) →
  preserves I (update pe f).
Proof. intros H. apply hoare_update. intros d a x Hd _ Hx. by apply H. Qed.

Lemma preserves_updatePiece I i f :
  (∀ d p, I d → pieces d !! i = Some p →
          I (set_pieces (<[i := f p]> (pieces d)) d)) →
  preserves I (updatePiece i f).
Proof. intros H. by apply hoare_updatePiece. Qed.

Lemma preserves_forEach {A} I (l : list A) (body : A → M unit) :
  (∀ x, preserves I (body x)) → preserves I (forEach l body).
Proof. intros H. apply hoare_forEach. intros x _. apply H. Qed.

(** ** The invariant *)


Lemma pointsTo_extends d d' k pe : extends d d' → pointsTo d k pe → pointsTo d' k pe.
Proof.
  intros He Hp. destruct (pointsTo_inv _ _ _ Hp) as (a & x & -> & Hx & Hk).
  destruct (He _ _ Hx) as (x' & Hx' & Hk'). eapply pointsTo_intro; [done|congruence].
Qed.

Lemma wf_set_store d st :
  wf d → extends d (set_store st d) → wf (set_store st d).
Proof.
  intros [H1 H2 H3 H4 H5] He. split; try done.
  - eapply map_Forall_impl; [exact H4|]. intros k pe. by apply pointsTo_extends.
  - eapply Forall_impl; [exact H5|]. intros pc Hpc.
    eapply map_Forall_impl; [exact Hpc|]. intros k pe. by apply pointsTo_extends.
Qed.

Lemma wf_store_update d a x y :
  wf d → store d !! a = Some x → Peer_Peer y = Peer_Peer x →
  wf (set_store (<[a := y]> (store d)) d).
Proof.
  intros Hwf Hx Hk. apply wf_set_store; [done|].
  intros a' x' Hx'. cbn. destruct (decide (a' = a)) as [->|Hne].
  - rewrite lookup_insert_eq. eexists. split; [done|]. congruence.
  - rewrite lookup_insert_ne by done. eauto.
Qed.

Lemma wf_store_alloc d a y :
  wf d → store d !! a = None → wf (set_store (<[a := y]> (store d)) d).
Proof.
  intros Hwf Hx. apply wf_set_store; [done|].
  intros a' x' Hx'. cbn. destruct (decide (a' = a)) as [->|Hne].
  - congruence.
  - rewrite lookup_insert_ne by done. eauto.
Qed.

Lemma wf_set_piece d i p p' :
  wf d → pieces d !! i = Some p → Index p' = Index p →
  map_Forall (pointsTo d) (havingPeers p') →
  wf (set_pieces (<[i := p']> (pieces d)) d).
Proof.
  intros [H1 H2 H3 H4 H5] Hp Hi Hh. split; cbn; rewrite ?length_insert; try done.
  - rewrite list_fmap_insert, Hi. rewrite list_insert_id; [done|].
    by rewrite list_lookup_fmap, Hp.
  - by apply Forall_insert.
Qed.

Lemma wf_set_bitfield d bf :
  wf d → length bf = length (bitfield d) → wf (set_bitfield bf d).
Proof. intros [H1 H2 H3 H4 H5] Hl. split; try done. cbn. congruence. Qed.

Lemma wf_set_sortedPieces d l :
  wf d → l ≡ₚ sortedPieces d → wf (set_sortedPieces l d).
Proof. intros [H1 H2 H3 H4 H5] Hl. split; try done. cbn. by rewrite Hl. Qed.

Lemma wf_set_connectedPeers d m :
  wf d → map_Forall (pointsTo d) m → wf (set_connectedPeers m d).
Proof. intros [H1 H2 H3 H4 H5] Hm. by split. Qed.

Lemma wf_set_downloads d m : wf d → wf (set_downloads m d).
Proof. by intros [H1 H2 H3 H4 H5]. Qed.

Lemma wf_set_optimisticUnchokedPeer d o : wf d → wf (set_optimisticUnchokedPeer o d).
Proof. by intros [H1 H2 H3 H4 H5]. Qed.

Lemma New_wf n bf : length bf = n → wf (New n bf).
Proof.
  intros Hl. split; cbn; rewrite ?length_map, ?length_seq.
  - done.
  - rewrite <- list_fmap_compose. apply list_eq. intros i.
    rewrite list_lookup_fmap. by destruct (seq 0 n !! i).
  - done.
  - apply map_Forall_empty.
  - apply Forall_fmap, Forall_forall. intros i _. apply map_Forall_empty.
Qed.

(** Updates of a [Peer] through the setters of the loop keep the
    invariant. *)
Lemma update_wf pe f :
  (∀ x, Peer_Peer (f x) = Peer_Peer x) → preserves wf (update pe f).
Proof. intros Hf. apply preserves_update. intros d a x Hwf Hx. by eapply wf_store_update. Qed.

Lemma chokePeer_wf pe : preserves wf (chokePeer pe).
Proof.
  unfold chokePeer. apply preserves_bind; [apply preserves_load|]. intros p.
  destruct (negb (amChoking p)); [|apply preserves_ret].
  apply preserves_bind; [by apply update_wf|]. intros _. apply preserves_emit.
Qed.

Lemma unchokePeer_wf pe : preserves wf (unchokePeer pe).
Proof.
  unfold unchokePeer. apply preserves_bind; [apply preserves_load|]. intros p.
  destruct (amChoking p); [|apply preserves_ret].
  apply preserves_bind; [by apply update_wf|]. intros _. apply preserves_emit.
Qed.

Lemma interestedLoop_preserves I pe i n : preserves I (interestedLoop pe i n).
Proof.
  revert i. induction n as [|n IH]; intros i; cbn [interestedLoop].
  - apply preserves_ret.
  - apply preserves_bind; [apply preserves_bfTest|]. intros w.
    apply preserves_bind; [apply preserves_pieceAt|]. intros pc.
    apply preserves_bind; [apply preserves_load|]. intros p.
    destruct (_ && _); [apply preserves_ret|apply IH].
Qed.

Lemma updateInterestedState_wf pe : preserves wf (updateInterestedState pe).
Proof.
  unfold updateInterestedState.
  apply preserves_bind; [apply preserves_get|]. intros d0.
  apply preserves_bind; [apply interestedLoop_preserves|]. intros b.
  apply preserves_bind; [apply preserves_load|]. intros p.
  destruct (_ && _).
  { apply preserves_bind; [by apply update_wf|]. intros _. apply preserves_emit. }
  destruct (_ && _).
  { apply preserves_bind; [by apply update_wf|]. intros _. apply preserves_emit. }
  apply preserves_ret.
Qed.

(** Through a [nil] pointer [updateInterestedState] always panics. *)
Lemma updateInterestedState_nil I Q : hoare I (updateInterestedState None) Q.
Proof.
  unfold updateInterestedState.
  eapply hoare_bind; [apply preserves_get|]. intros d0.
  eapply hoare_bind; [apply interestedLoop_preserves|]. intros b.
  eapply hoare_bind; [apply (hoare_load I)|]. intros p.
  intros d (_ & a & ? & _). done.
Qed.

Lemma hoare_bind_get {B} I (f : Downloader → M B) Q :
  (∀ d0, hoare (λ d, d = d0 ∧ I d) (f d0) Q) → hoare I (bind get f) Q.
Proof.
  intros H. eapply hoare_bind; [apply (hoare_get I)|].
  intros d0. eapply hoare_weaken; [apply (H d0)| |done]. by intros d [-> ?].
Qed.

Lemma wf_pieces_having d i p :
  wf d → pieces d !! i = Some p → map_Forall (pointsTo d) (havingPeers p).
Proof.
  intros Hwf Hp. assert (H := wf_havingPeers _ Hwf).
  rewrite Forall_lookup in H. by eapply H.
Qed.

Lemma updatePiece_wf i f :
  (∀ p, Index (f p) = Index p) → (∀ p, havingPeers (f p) = havingPeers p) →
  preserves wf (updatePiece i f).
Proof.
  intros Hi Hh. apply preserves_updatePiece. intros d p Hwf Hp.
  eapply wf_set_piece; [done|done|apply Hi|]. rewrite Hh. by eapply wf_pieces_having.
Qed.

Lemma mapGet_Some m k a : mapGet m k = Some a → m !! k = Some (Some a).
Proof. unfold mapGet. by destruct (m !! k) as [[?|]|]; cbn; intros [= ->]. Qed.


Lemma addHaving_knows pe a i : preserves (knows pe a) (addHaving i pe).
Proof.
  unfold addHaving. apply hoare_bind_get. intros d0.
  apply hoare_updatePiece. intros d p [-> [Hwf Hg]] Hp. split; [|done].
  eapply wf_set_piece; [done|done|done|]. cbn. rewrite Hg.
  apply map_Forall_insert_2; [|by eapply wf_pieces_having].
  eapply wf_connected; [done|]. by apply mapGet_Some.
Qed.

Lemma addHaving_unknown pe i : preserves (unknown pe) (addHaving i pe).
Proof.
  unfold addHaving. apply hoare_bind_get. intros d0.
  apply hoare_updatePiece. by intros d p [-> Hg] Hp.
Qed.

Lemma knows_update pe a :
  hoare (knows pe a)
        (do d <- get; updateInterestedState (mapGet (connectedPeers d) pe) ;; ret Next)
        (λ _, wf).
Proof.
  apply hoare_bind_get. intros d0.
  apply hoare_bind with (R := λ _, wf); [|intros ?; by apply hoare_ret].
  eapply hoare_weaken; [apply updateInterestedState_wf| |done]. by intros d [-> [? _]].
Qed.

Lemma unknown_update pe :
  hoare (unknown pe)
        (do d <- get; updateInterestedState (mapGet (connectedPeers d) pe) ;; ret Next)
        (λ _ _, False).
Proof.
  apply hoare_bind_get. intros d0.
  apply hoare_bind with (R := λ _ _, False); [|by intros ? d []].
  intros d [-> Hg]. unfold unknown in Hg. rewrite Hg.
  by apply (updateInterestedState_nil (λ _, True)).
Qed.

Section Properties.
Context `{rt : Runtime}.

(** ** [updateInterestedState] *)

Lemma interestedLoop_spec d a p n i :
  store d !! a = Some p →
  i + n = length (bitfield d) →
  length (bitfield d) ≤ length (pieces d) →
  ∃ b : bool,
    interestedLoop (Some a) i n d = Ok b d [] ∧
    (b = true ↔ ∃ j pc, i ≤ j ∧ bitfield d !! j = Some false
                        ∧ pieces d !! j = Some pc
                        ∧ is_Some (havingPeers pc !! Peer_Peer p)).
Proof.
  intros Hst. revert i. induction n as [|n IH]; intros i Hlen Hle.
  - exists false. split; [done|]. split; [done|].
    intros (j & pc & Hj & Hbf & _). apply lookup_lt_Some in Hbf. lia.
  - destruct (lookup_lt_is_Some_2 (bitfield d) i) as [w Hw]; [lia|].
    destruct (lookup_lt_is_Some_2 (pieces d) i) as [pc Hpc]; [lia|].
    destruct (IH (S i)) as (b & Hrun & Hb); [lia|done|].
    cbn [interestedLoop]. unfold bind, bfTest, pieceAt, load, ret.
    rewrite Hw, Hpc, Hst. cbn.
    destruct (negb w && bool_decide (is_Some (havingPeers pc !! Peer_Peer p))) eqn:E.
    + exists true. split; [done|]. split; [|done]. intros _.
      apply andb_true_iff in E as [E1 E2]. apply bool_decide_eq_true in E2.
      destruct w; [done|]. exists i, pc. eauto.
    + exists b. rewrite Hrun. split; [done|]. rewrite Hb. split.
      * intros (j & pc' & ? & ? & ? & ?). exists j, pc'. split; [lia|done].
      * intros (j & pc' & Hj & Hbf & Hp & Hh).
        destruct (decide (j = i)) as [->|].
        -- rewrite Hw in Hbf. rewrite Hpc in Hp. simplify_eq.
           rewrite bool_decide_eq_true_2 in E by done. done.
        -- exists j, pc'. split; [lia|done].
Qed.

(** The run of [updateInterestedState] on a live object: its result, final
    state and trace. *)
Lemma updateInterestedState_run d a p :
  store d !! a = Some p →
  length (bitfield d) ≤ length (pieces d) →
  ∃ b : bool,
    (b = true ↔ wants d (Peer_Peer p)) ∧
    updateInterestedState (Some a) d =
      Ok tt (set_store (<[a := set_amInterested b p]> (store d)) d)
         (if bool_decide (b = amInterested p) then []
          else if b then [SendInterested (Peer_Peer p)]
               else [SendNotInterested (Peer_Peer p)]).
Proof.
  intros Hst Hle.
  destruct (interestedLoop_spec d a p (length (bitfield d)) 0 Hst) as (b & Hrun & Hb);
    [done|done|].
  exists b. split.
  { rewrite Hb. unfold wants. split.
    - intros (j & pc & _ & ?). eauto.
    - intros (j & pc & ?). exists j, pc. split; [lia|done]. }
  unfold updateInterestedState, bind, get, load, update, modify, emit, ret, bind, load.
  rewrite Hrun. cbn. rewrite Hst. cbn.
  destruct (amInterested p) eqn:Ea, b; cbn; rewrite ?Hst; cbn; try done.
  - by rewrite set_amInterested_id, insert_id, set_store_id.
  - by rewrite set_amInterested_id, insert_id, set_store_id.
Qed.

(** C8. After [updateInterestedState] on a peer [q], the peer's
    [amInterested] is [b], where [b] is true exactly when there is a piece
    we lack and [q] has (evaluated in the final state, whose bitfield and
    pieces are those of the initial one); no other field and no other peer
    changes; and the trace is one [Interested] or [NotInterested] message
    to [q] when [b] differs from the flag that was stored, and is empty
    when it does not. *)
Theorem updateInterestedState_spec d a p :
  store d !! a = Some p →
  length (bitfield d) ≤ length (pieces d) →
  ∃ (b : bool) d' tr,
    updateInterestedState (Some a) d = Ok tt d' tr ∧
    (b = true ↔ wants d' (Peer_Peer p)) ∧
    store d' !! a = Some (set_amInterested b p) ∧
    (∀ a', a' ≠ a → store d' !! a' = store d !! a') ∧
    bitfield d' = bitfield d ∧ pieces d' = pieces d ∧
    tr = (if bool_decide (b = amInterested p) then []
          else [if b then SendInterested (Peer_Peer p)
                else SendNotInterested (Peer_Peer p)]).
Proof.
  intros Hst Hle.
  destruct (updateInterestedState_run d a p Hst Hle) as (b & Hb & Hrun).
  exists b. eexists _, _. split; [exact Hrun|]. split; [exact Hb|].
  cbn. split; [apply lookup_insert_eq|]. split.
  { intros a' Hne. by rewrite lookup_insert_ne. }
  do 2 (split; [done|]). by destruct (bool_decide _), b.
Qed.
(** ** The selector *)

Lemma elem_of_range line k (m : gmap positive (option positive)) q pe :
  (q, pe) ∈ range line k m ↔ m !! q = Some pe.
Proof. unfold range. rewrite mapRange_perm. apply elem_of_map_to_list. Qed.

Lemma firstAllowedFast_spec d pc l :
  (∀ k pe, (k, pe) ∈ l → pointsTo d k pe) →
  ∃ r, firstAllowedFast pc l d = Ok r d [] ∧
       match r with
       | Some pd =>
           pdPiece pd = Index pc ∧ (∃ pe, (pdPeer pd, pe) ∈ l)
           ∧ is_Some (allowedFastPeers pc !! pdPeer pd)
           ∧ downloads d !! pdPeer pd = None
       | None =>
           ∀ k pe, (k, pe) ∈ l →
                   ¬ (is_Some (allowedFastPeers pc !! k) ∧ downloads d !! k = None)
       end.
Proof.
  induction l as [|[k pe] l IH]; intros Hl.
  - exists None. split; [done|]. intros k pe H. by apply elem_of_nil in H.
  - destruct (pointsTo_inv _ _ _ (Hl k pe ltac:(left))) as (a & x & -> & Hx & Hk).
    destruct IH as (r & Hr & Hspec).
    { intros. apply Hl. by right. }
    cbn [firstAllowedFast]. rewrite (bind_run0 _ _ _ _ _ (load_ok _ _ _ Hx)), bind_get.
    rewrite Hk.
    destruct (decide (is_Some (allowedFastPeers pc !! k))) as [Hf|Hf].
    + rewrite (bool_decide_eq_true_2 _ Hf). cbn [negb].
      destruct (downloads d !! k) as [pd0|] eqn:Hd.
      * rewrite bool_decide_eq_true_2 by eauto.
        exists r. split; [done|]. destruct r as [pd|].
        -- destruct Hspec as (? & [pe' ?] & ? & ?). repeat split; try done.
           exists pe'. by right.
        -- intros k' pe' [[= -> ->]|Hin]%elem_of_cons.
           ++ rewrite Hd. by intros [_ ?].
           ++ by eapply Hspec.
      * rewrite bool_decide_eq_false_2 by (by intros [? ?]).
        exists (Some (mkPD (Index pc) k)). split; [done|]. cbn.
        repeat split; try done. exists (Some a). left.
    + rewrite (bool_decide_eq_false_2 _ Hf). cbn [negb].
      exists r. split; [done|]. destruct r as [pd|].
      * destruct Hspec as (? & [pe' ?] & ? & ?). repeat split; try done.
        exists pe'. by right.
      * intros k' pe' [[= -> ->]|Hin]%elem_of_cons.
        -- by intros [? _].
        -- by eapply Hspec.
Qed.

Lemma firstUnchoked_spec d pc l :
  (∀ k pe, (k, pe) ∈ l → pointsTo d k pe) →
  ∃ r, firstUnchoked pc l d = Ok r d [] ∧
       match r with
       | Some pd =>
           pdPiece pd = Index pc ∧
           ∃ a x, (pdPeer pd, Some a) ∈ l ∧ store d !! a = Some x
                  ∧ peerChoking x = false ∧ downloads d !! pdPeer pd = None
       | None =>
           ∀ k a x, (k, Some a) ∈ l → store d !! a = Some x →
                    ¬ (peerChoking x = false ∧ downloads d !! k = None)
       end.
Proof.
  induction l as [|[k pe] l IH]; intros Hl.
  - exists None. split; [done|]. intros k a x H. by apply elem_of_nil in H.
  - destruct (pointsTo_inv _ _ _ (Hl k pe ltac:(left))) as (a & x & -> & Hx & Hk).
    destruct IH as (r & Hr & Hspec).
    { intros. apply Hl. by right. }
    cbn [firstUnchoked]. rewrite (bind_run0 _ _ _ _ _ (load_ok _ _ _ Hx)), bind_get.
    rewrite Hk.
    assert (Hrest : ∃ r0, firstUnchoked pc l d = Ok r0 d [] ∧
       match r0 with
       | Some pd =>
           pdPiece pd = Index pc ∧
           ∃ a0 x0, (pdPeer pd, Some a0) ∈ (k, Some a) :: l ∧ store d !! a0 = Some x0
                  ∧ peerChoking x0 = false ∧ downloads d !! pdPeer pd = None
       | None => True
       end).
    { exists r. split; [done|]. destruct r as [pd|]; [|done].
      destruct Hspec as (? & a0 & x0 & ? & ?). split; [done|].
      exists a0, x0. split; [by right|done]. }
    destruct (peerChoking x) eqn:Hc.
    + exists r. split; [done|]. destruct r as [pd|].
      * destruct Hrest as (r0 & Hr0 & H0). rewrite Hr in Hr0. by simplify_eq.
      * intros k' a' x' [[= -> ->]|Hin]%elem_of_cons Hx'.
        -- rewrite Hx in Hx'. simplify_eq. rewrite Hc. by intros [? _].
        -- by eapply Hspec.
    + destruct (downloads d !! k) as [pd0|] eqn:Hd.
      * rewrite bool_decide_eq_true_2 by eauto.
        exists r. split; [done|]. destruct r as [pd|].
        -- destruct Hrest as (r0 & Hr0 & H0). rewrite Hr in Hr0. by simplify_eq.
        -- intros k' a' x' [[= -> ->]|Hin]%elem_of_cons Hx'.
           ++ rewrite Hd. by intros [_ ?].
           ++ by eapply Hspec.
      * rewrite bool_decide_eq_false_2 by (by intros [? ?]).
        exists (Some (mkPD (Index pc) k)). split; [done|]. cbn.
        split; [done|]. exists a, x. split; [left|done].
Qed.

Lemma eligible_guards d pc b :
  bitfield d !! Index pc = Some b →
  eligible d pc =
    negb b && negb (0 <? size (requestedPeers pc)) && negb (writing pc)
    && negb (size (havingPeers pc) =? 0).
Proof.
  intros H. unfold eligible. rewrite H. destruct b; [done|].
  by destruct (size (requestedPeers pc)).
Qed.

(** What the two loops over [p.havingPeers] decide for one piece. *)
Lemma pickPeer_spec d pc n :
  (∀ k pe, havingPeers pc !! k = Some pe → pointsTo d k pe) →
  ∃ r1, firstAllowedFast pc (range 258 n (havingPeers pc)) d = Ok r1 d [] ∧
    match r1 with
    | Some pd => pdPiece pd = Index pc ∧ fastCandidate d pc (pdPeer pd)
    | None =>
        (∀ q, ¬ fastCandidate d pc q) ∧
        ∃ r2, firstUnchoked pc (range 268 n (havingPeers pc)) d = Ok r2 d [] ∧
          match r2 with
          | Some pd => pdPiece pd = Index pc ∧ openCandidate d pc (pdPeer pd)
          | None => ∀ q, ¬ openCandidate d pc q
          end
    end.
Proof.
  intros Hh.
  destruct (firstAllowedFast_spec d pc (range 258 n (havingPeers pc))) as (r1 & Hr1 & H1).
  { intros k pe Hin. apply elem_of_range in Hin. eauto. }
  exists r1. split; [done|]. destruct r1 as [pd|].
  - destruct H1 as (? & [pe Hin] & ? & ?). apply elem_of_range in Hin.
    split; [done|]. split; [eauto|done].
  - split.
    { intros q ([pe Hq] & Hf & Hd). eapply (H1 q pe); [by apply elem_of_range|done]. }
    destruct (firstUnchoked_spec d pc (range 268 n (havingPeers pc))) as (r2 & Hr2 & H2).
    { intros k pe Hin. apply elem_of_range in Hin. eauto. }
    exists r2. split; [done|]. destruct r2 as [pd|].
    + destruct H2 as (? & a & x & Hin & ? & ? & ?). apply elem_of_range in Hin.
      split; [done|]. by exists a, x.
    + intros q (a & x & Hq & Hx & Hc & Hd).
      eapply (H2 q a x); [by apply elem_of_range|done|done].
Qed.

Lemma scanPieces_spec d l n :
  length (bitfield d) = length (pieces d) →
  (∀ i pc, pieces d !! i = Some pc → Index pc = i) →
  (∀ i pc k pe, pieces d !! i = Some pc → havingPeers pc !! k = Some pe →
                pointsTo d k pe) →
  (∀ i, i ∈ l → i < length (pieces d)) →
  ∃ r, scanPieces n l d = Ok r d [] ∧
    match r with
    | Some pd =>
        ∃ l1 l2 pc, l = l1 ++ pdPiece pd :: l2
          ∧ pieces d !! pdPiece pd = Some pc
          ∧ eligible d pc = true
          ∧ chosen d pc (pdPeer pd)
          ∧ ∀ j pcj, j ∈ l1 → pieces d !! j = Some pcj →
                     eligible d pcj = true → ∀ q, ¬ candidate d pcj q
    | None =>
        ∀ j pcj, j ∈ l → pieces d !! j = Some pcj →
                 eligible d pcj = true → ∀ q, ¬ candidate d pcj q
    end.
Proof.
  intros Hbf Hidx Hhav. revert n. induction l as [|i l IH]; intros n Hl.
  - exists None. split; [done|]. intros j pcj Hj. by apply elem_of_nil in Hj.
  - destruct (lookup_lt_is_Some_2 (pieces d) i) as [pc Hpc]; [apply Hl; left|].
    assert (Hi := Hidx _ _ Hpc).
    destruct (lookup_lt_is_Some_2 (bitfield d) i) as [b Hb].
    { rewrite Hbf. by apply lookup_lt_Some in Hpc. }
    destruct (IH (S n)) as (r & Hr & Hspec).
    { intros. apply Hl. by right. }
    (* what skipping this piece gives *)
    assert (Hskip : (eligible d pc = true → ∀ q, ¬ candidate d pc q) →
      ∃ r0, scanPieces (S n) l d = Ok r0 d [] ∧
        match r0 with
        | Some pd =>
            ∃ l1 l2 pc0, i :: l = l1 ++ pdPiece pd :: l2
              ∧ pieces d !! pdPiece pd = Some pc0
              ∧ eligible d pc0 = true
              ∧ chosen d pc0 (pdPeer pd)
              ∧ ∀ j pcj, j ∈ l1 → pieces d !! j = Some pcj →
                         eligible d pcj = true → ∀ q, ¬ candidate d pcj q
        | None =>
            ∀ j pcj, j ∈ i :: l → pieces d !! j = Some pcj →
                     eligible d pcj = true → ∀ q, ¬ candidate d pcj q
        end).
    { intros Hno. exists r. split; [done|]. destruct r as [pd|].
      - destruct Hspec as (l1 & l2 & pc0 & -> & ? & ? & ? & Hbefore).
        exists (i :: l1), l2, pc0. repeat split; try done.
        intros j pcj [->|Hj]%elem_of_cons Hpj He.
        + rewrite Hpc in Hpj. simplify_eq. by apply Hno.
        + by eapply Hbefore.
      - intros j pcj [->|Hj]%elem_of_cons Hpj He.
        + rewrite Hpc in Hpj. simplify_eq. by apply Hno.
        + by eapply Hspec. }
    cbn [scanPieces].
    rewrite (bind_run0 _ _ _ _ _ (pieceAt_ok _ _ _ Hpc)).
    rewrite Hi.
    erewrite bind_run0; [|apply bfTest_ok; exact Hb].
    assert (He := eligible_guards d pc b). rewrite Hi in He. specialize (He Hb).
    destruct b.
    { apply Hskip. by rewrite He. }
    destruct (0 <? size (requestedPeers pc)).
    { apply Hskip. by rewrite He. }
    destruct (writing pc).
    { apply Hskip. by rewrite He. }
    destruct (size (havingPeers pc) =? 0).
    { apply Hskip. by rewrite He. }
    cbn in He.
    destruct (pickPeer_spec d pc n) as (r1 & Hr1 & H1); [by eauto|].
    rewrite (bind_run0 _ _ _ _ _ Hr1). destruct r1 as [pd|].
    + destruct H1 as [Hp Hc]. rewrite Hi in Hp.
      exists (Some pd). split; [done|].
      exists [], l, pc. rewrite Hp. repeat split; try done.
      * by left.
      * intros j pcj Hj. by apply elem_of_nil in Hj.
    + destruct H1 as [Hnf (r2 & Hr2 & H2)].
      rewrite (bind_run0 _ _ _ _ _ Hr2). destruct r2 as [pd|].
      * destruct H2 as [Hp Hc]. rewrite Hi in Hp.
        exists (Some pd). split; [done|].
        exists [], l, pc. rewrite Hp. repeat split; try done.
        -- by right.
        -- intros j pcj Hj. by apply elem_of_nil in Hj.
      * apply Hskip. intros _ q [Hq|Hq]; [by eapply Hnf|by eapply H2].
Qed.

Global Instance ByAvailability_trans ps : Transitive (inOrder (ByAvailability_Less ps)).
Proof.
  intros a b c. unfold inOrder, ByAvailability_Less.
  generalize (availability ps a) (availability ps b) (availability ps c)
             (indexOf ps a) (indexOf ps b) (indexOf ps c).
  intros x y z u v w.
  destruct (Nat.ltb_spec y x), (Nat.eqb_spec y x), (Nat.ltb_spec v u),
           (Nat.ltb_spec z y), (Nat.eqb_spec z y), (Nat.ltb_spec w v),
           (Nat.ltb_spec z x), (Nat.eqb_spec z x), (Nat.ltb_spec w u);
    cbn; intros; try done; lia.
Qed.

Global Instance ByAvailability_total ps : Total (inOrder (ByAvailability_Less ps)).
Proof.
  intros a b. unfold inOrder, ByAvailability_Less.
  generalize (availability ps a) (availability ps b) (indexOf ps a) (indexOf ps b).
  intros x y u v.
  destruct (Nat.ltb_spec y x), (Nat.eqb_spec y x), (Nat.ltb_spec v u),
           (Nat.ltb_spec x y), (Nat.eqb_spec x y), (Nat.ltb_spec u v);
    cbn; auto; lia.
Qed.

Lemma inOrder_ByAvailability ps i j :
  inOrder (ByAvailability_Less ps) i j →
  availability ps i < availability ps j
  ∨ (availability ps i = availability ps j ∧ indexOf ps i ≤ indexOf ps j).
Proof.
  unfold inOrder, ByAvailability_Less.
  destruct (Nat.ltb_spec (availability ps j) (availability ps i)),
           (Nat.eqb_spec (availability ps j) (availability ps i)),
           (Nat.ltb_spec (indexOf ps j) (indexOf ps i)); cbn; intros; try done; lia.
Qed.

Lemma nextDownload_run d :
  wf d →
  ∃ r sorted,
    sorted = goSort (ByAvailability_Less (pieces d)) (sortedPieces d) ∧
    nextDownload d = Ok r (set_sortedPieces sorted d) [] ∧
    match r with
    | Some pd =>
        ∃ l1 l2 pc, sorted = l1 ++ pdPiece pd :: l2
          ∧ pieces d !! pdPiece pd = Some pc
          ∧ eligible d pc = true
          ∧ chosen d pc (pdPeer pd)
          ∧ ∀ j pcj, j ∈ l1 → pieces d !! j = Some pcj →
                     eligible d pcj = true → ∀ q, ¬ candidate d pcj q
    | None =>
        ∀ j pcj, j ∈ sorted → pieces d !! j = Some pcj →
                 eligible d pcj = true → ∀ q, ¬ candidate d pcj q
    end.
Proof.
  intros Hwf.
  set (sorted := goSort (ByAvailability_Less (pieces d)) (sortedPieces d)).
  destruct (scanPieces_spec (set_sortedPieces sorted d) sorted 0) as (r & Hr & Hspec).
  { apply (wf_bitfield _ Hwf). }
  { intros i pc. apply (wf_index d i pc Hwf). }
  { intros i pc k pe. apply (wf_having d i pc k pe Hwf). }
  { intros i Hi. unfold sorted in Hi. rewrite goSort_perm, (wf_sortedPieces _ Hwf) in Hi.
    apply elem_of_seq in Hi. cbn. lia. }
  exists r, sorted. split; [done|]. split; [|exact Hspec].
  unfold nextDownload. rewrite bind_get, bind_modify. exact Hr.
Qed.

Lemma wf_sorted_elem d j pcj :
  wf d → pieces d !! j = Some pcj →
  j ∈ goSort (ByAvailability_Less (pieces d)) (sortedPieces d).
Proof.
  intros Hwf Hj. rewrite goSort_perm, (wf_sortedPieces _ Hwf).
  apply elem_of_seq. apply lookup_lt_Some in Hj. lia.
Qed.

(** C5. In a well-formed state [nextDownload] returns without panic and
    without effect, changing only the order of [sortedPieces].  When it
    returns a downloader, its piece is eligible (the four guards), and its
    peer has the piece, has no active download, and is either an
    allowed-fast peer of the piece, whatever its choke state, or, when the
    piece has no allowed-fast candidate, a peer that does not choke us.
    When it returns nil, no eligible piece has any candidate peer. *)
Theorem nextDownload_spec d :
  wf d →
  ∃ r d', nextDownload d = Ok r d' [] ∧
    bitfield d' = bitfield d ∧ pieces d' = pieces d ∧ store d' = store d ∧
    connectedPeers d' = connectedPeers d ∧ downloads d' = downloads d ∧
    match r with
    | Some pd =>
        ∃ pc, pieces d !! pdPiece pd = Some pc
              ∧ eligible d pc = true
              ∧ chosen d pc (pdPeer pd)
    | None =>
        ∀ j pcj q, pieces d !! j = Some pcj → eligible d pcj = true →
                   ¬ candidate d pcj q
    end.
Proof.
  intros Hwf. destruct (nextDownload_run d Hwf) as (r & sorted & -> & Hrun & Hspec).
  exists r. eexists. split; [exact Hrun|]. do 5 (split; [done|]).
  destruct r as [pd|].
  - destruct Hspec as (l1 & l2 & pc & _ & ? & ? & ? & _). by exists pc.
  - intros j pcj q Hj He. eapply Hspec; [|done|done].
    by eapply wf_sorted_elem.
Qed.

(** C4 (amended). The piece [nextDownload] returns is first, by
    availability and then by index, among the eligible pieces that have a
    candidate peer. *)
Theorem nextDownload_rarest d pd d' tr :
  wf d →
  nextDownload d = Ok (Some pd) d' tr →
  ∀ j pcj q, pieces d !! j = Some pcj → eligible d pcj = true →
             candidate d pcj q →
    availability (pieces d) (pdPiece pd) < availability (pieces d) j
    ∨ (availability (pieces d) (pdPiece pd) = availability (pieces d) j
       ∧ pdPiece pd ≤ j).
Proof.
  intros Hwf Hrun j pcj q Hj He Hc.
  destruct (nextDownload_run d Hwf) as (r & sorted & Hs & Hrun' & Hspec).
  rewrite Hrun in Hrun'. injection Hrun' as <- _ _.
  destruct Hspec as (l1 & l2 & pc & Hsplit & Hpc & _ & _ & Hbefore).
  assert (Hin : j ∈ sorted) by (subst sorted; by eapply wf_sorted_elem).
  assert (Hss : StronglySorted (inOrder (ByAvailability_Less (pieces d))) sorted).
  { subst sorted. apply goSort_sorted; apply _. }
  rewrite Hsplit in Hin, Hss.
  apply elem_of_app in Hin as [Hin|Hin].
  { exfalso. by eapply (Hbefore j pcj Hin Hj He q). }
  apply StronglySorted_app_1_r in Hss.
  assert (Hord : inOrder (ByAvailability_Less (pieces d)) (pdPiece pd) j).
  { apply elem_of_cons in Hin as [->|Hin].
    - destruct (total (inOrder (ByAvailability_Less (pieces d))) (pdPiece pd) (pdPiece pd));
        done.
    - apply StronglySorted_cons in Hss as [Hall _].
      rewrite Forall_forall in Hall. by apply Hall. }
  apply inOrder_ByAvailability in Hord.
  unfold indexOf in Hord. rewrite Hpc, Hj in Hord. cbn in Hord.
  rewrite (wf_index _ _ _ Hwf Hpc), (wf_index _ _ _ Hwf Hj) in Hord. done.
Qed.
(** ** [Disconnect] *)

Lemma forEach_pieces (g : Piece → Piece) (body : nat → M unit) :
  (∀ d i p, pieces d !! i = Some p →
            body i d = Ok tt (set_pieces (<[i := g p]> (pieces d)) d) []) →
  ∀ m k d, k + m ≤ length (pieces d) →
    ∃ ps', forEach (seq k m) body d = Ok tt (set_pieces ps' d) []
           ∧ ∀ i, ps' !! i = if bool_decide (k ≤ i < k + m)
                             then g <$> pieces d !! i else pieces d !! i.
Proof.
  intros Hbody. induction m as [|m IH]; intros k d Hlen.
  - exists (pieces d). rewrite set_pieces_id. split; [done|].
    intros i. rewrite bool_decide_eq_false_2; [done|lia].
  - destruct (lookup_lt_is_Some_2 (pieces d) k) as [p Hp]; [lia|].
    cbn [seq forEach]. rewrite (bind_run0 _ _ _ _ _ (Hbody _ _ _ Hp)).
    destruct (IH (S k) (set_pieces (<[k:=g p]> (pieces d)) d)) as (ps' & Hrun & Hps).
    { cbn. rewrite length_insert. lia. }
    rewrite Hrun. exists ps'. split; [done|].
    intros i. rewrite Hps. cbn [pieces set_pieces].
    destruct (decide (i = k)) as [->|Hne].
    + rewrite list_lookup_insert_eq by (apply lookup_lt_Some in Hp; done).
      rewrite bool_decide_eq_false_2 by lia. rewrite bool_decide_eq_true_2 by lia.
      by rewrite Hp.
    + rewrite list_lookup_insert_ne by done.
      destruct (decide (S k ≤ i < S k + m)).
      * rewrite !bool_decide_eq_true_2 by lia. done.
      * rewrite !bool_decide_eq_false_2 by lia. done.
Qed.

Lemma onDisconnect_run d q :
  ∃ ps', handle (EvDisconnect q) d
         = Ok Next (set_pieces ps' (set_connectedPeers (delete q (connectedPeers d)) d)) []
         ∧ ∀ i, ps' !! i = forget q <$> pieces d !! i.
Proof.
  cbn [handle]. unfold onDisconnect.
  set (d1 := set_connectedPeers (delete q (connectedPeers d)) d).
  destruct (forEach_pieces (forget q)
    (λ i, updatePiece i (λ p, set_havingPeers (delete q (havingPeers p)) p) ;;
          updatePiece i (λ p, set_allowedFastPeers (delete q (allowedFastPeers p)) p) ;;
          updatePiece i (λ p, set_requestedPeers (delete q (requestedPeers p)) p))
    ) with (m := length (pieces d1)) (k := 0) (d := d1) as (ps' & Hrun & Hps).
  { intros d0 i p Hp.
    rewrite (bind_run0 _ _ _ _ _ (updatePiece_ok _ _ _ _ Hp)).
    erewrite bind_run0; last first.
    { apply updatePiece_ok. cbn. apply list_lookup_insert_eq. by apply lookup_lt_Some in Hp. }
    erewrite updatePiece_ok; last first.
    { cbn. apply list_lookup_insert_eq. rewrite length_insert. by apply lookup_lt_Some in Hp. }
    cbn. by rewrite !list_insert_insert_eq. }
  { done. }
  exists ps'. split.
  - rewrite bind_modify. fold d1. rewrite bind_get.
    by rewrite (bind_run0 _ _ _ _ _ Hrun).
  - intros i. rewrite Hps. cbn. case_bool_decide; [done|].
    rewrite lookup_ge_None_2; [done|]. lia.
Qed.

(** C2 (amended). [Disconnect(q)] removes [q] from [connectedPeers] and
    from the three maps of every piece, launches nothing, and leaves
    [downloads] as it was. *)
Theorem disconnect_spec d q :
  ∃ d', handle (EvDisconnect q) d = Ok Next d' [] ∧
    connectedPeers d' = delete q (connectedPeers d) ∧
    (∀ i pc, pieces d' !! i = Some pc →
             havingPeers pc !! q = None ∧ allowedFastPeers pc !! q = None
             ∧ requestedPeers pc !! q = None) ∧
    downloads d' = downloads d.
Proof.
  destruct (onDisconnect_run d q) as (ps' & Hrun & Hps).
  eexists. split; [exact Hrun|]. split; [done|]. split; [|done].
  intros i pc. cbn. rewrite Hps. destruct (pieces d !! i) as [p|]; [|done].
  cbn. intros [= <-]. cbn. by rewrite !lookup_delete_eq.
Qed.

(** ** The optimistic unchoke with no candidate *)

(** C3. With no peer connected (the state [New] builds), the optimistic
    unchoke tick panics in [rand.Intn], whatever the run time chooses. *)
Theorem optimistic_tick_panics n bf :
  handle EvOptimisticUnchokeTick (New n bf) = Panic "invalid argument to Intn".
Proof.
  cbn [handle]. apply bind_panic.
  unfold tickOptimisticUnchoke, range. rewrite !bind_get.
  cbn [New connectedPeers optimisticUnchokedPeer].
  rewrite map_to_list_empty.
  assert (mapRange 206 0 [] = []) as ->.
  { apply Permutation_nil_r. apply mapRange_perm. }
  done.
Qed.


(** ** [WriteResponse] *)

(** C10. A [WriteResponse] that carries an error clears the piece's
    [writing] flag and sends the error on [errC], and that is all: the
    trace has this one effect (no completion check, no [Have], no interest
    message), and bitfield, peers and every other part of the state are
    as before. *)
Theorem writeResponse_error d i err pc :
  pieces d !! i = Some pc →
  ∃ d', handle (EvWriteResponse i (Some err)) d = Ok Next d' [ErrSend err] ∧
    pieces d' = <[i := set_writing false pc]> (pieces d) ∧
    bitfield d' = bitfield d ∧ store d' = store d ∧
    connectedPeers d' = connectedPeers d ∧ downloads d' = downloads d.
Proof.
  intros Hpc. exists (set_pieces (<[i := set_writing false pc]> (pieces d)) d).
  split; [|done].
  cbn [handle]. unfold onWriteResponse.
  by rewrite (bind_run0 _ _ _ _ _ (updatePiece_ok _ _ _ _ Hpc)).
Qed.

Lemma wants_ext d1 d2 q :
  bitfield d1 = bitfield d2 → pieces d1 = pieces d2 → wants d1 q ↔ wants d2 q.
Proof. unfold wants. by intros -> ->. Qed.

Lemma haves_app t1 t2 : haves (t1 ++ t2) = haves t1 ++ haves t2.
Proof. apply omap_app. Qed.

(** The broadcast loop of the successful [WriteResponse], from a state [d]
    whose connected peers are live objects. *)
Lemma broadcast_spec d i :
  length (bitfield d) ≤ length (pieces d) →
  map_Forall (pointsTo d) (connectedPeers d) →
  ∃ d' tr,
    forEach (range 125 0 (connectedPeers d))
            (λ kv, do p <- load kv.2;
                   emit (SendHave (Peer_Peer p) i) ;;
                   updateInterestedState kv.2) d = Ok tt d' tr ∧
    bitfield d' = bitfield d ∧ pieces d' = pieces d ∧
    connectedPeers d' = connectedPeers d ∧ downloads d' = downloads d ∧
    haves tr = (λ kv, (kv.1, i)) <$> range 125 0 (connectedPeers d) ∧
    ∀ k pe, connectedPeers d !! k = Some pe →
            ∃ a x, pe = Some a ∧ store d' !! a = Some x ∧ Peer_Peer x = k
                   ∧ (amInterested x = true ↔ wants d' k).
Proof.
  intros Hlen Hcon.
  set (l := range 125 0 (connectedPeers d)).
  destruct (forEach_inv l
    (λ kv, do p <- load kv.2;
           emit (SendHave (Peer_Peer p) i) ;;
           updateInterestedState kv.2)
    (λ done dx t,
       bitfield dx = bitfield d ∧ pieces dx = pieces d ∧
       connectedPeers dx = connectedPeers d ∧ downloads dx = downloads d ∧
       (∀ a x, store d !! a = Some x →
               ∃ x', store dx !! a = Some x' ∧ Peer_Peer x' = Peer_Peer x) ∧
       (∀ k pe, (k, pe) ∈ done →
                ∃ a x, pe = Some a ∧ store dx !! a = Some x ∧ Peer_Peer x = k
                       ∧ (amInterested x = true ↔ wants d k)) ∧
       haves t = (λ kv, (kv.1, i)) <$> done) d) as (d' & tr & Hrun & HI).
  { repeat split; try done.
    - intros a x Hx. eauto.
    - intros k pe Hin. by apply elem_of_nil in Hin. }
  { intros done [k pe] rest dx t Hl (Hbf & Hps & Hcp & Hdl & Hst & Hdone & Hhv).
    assert (Hin : connectedPeers d !! k = Some pe).
    { apply (elem_of_range 125 0). fold l. rewrite Hl. set_solver. }
    destruct (pointsTo_inv _ _ _ (Hcon _ _ Hin)) as (a & x0 & -> & Hx0 & Hk0).
    destruct (Hst _ _ Hx0) as (x' & Hx' & Hk'). rewrite Hk0 in Hk'.
    destruct (updateInterestedState_run dx a x' Hx') as (b & Hb & Hupd);
      [by rewrite Hbf, Hps|].
    rewrite Hk' in Hb, Hupd.
    rewrite (wants_ext dx d k Hbf Hps) in Hb.
    cbn [snd]. rewrite (bind_run0 _ _ _ _ _ (load_ok _ _ _ Hx')), bind_emit, Hk', Hupd.
    eexists _, _. split; [done|].
    repeat split; try done.
    - intros a1 x1 Hx1. cbn. destruct (Hst _ _ Hx1) as (x1' & Hx1' & Hk1).
      destruct (decide (a1 = a)) as [->|Hne].
      + rewrite lookup_insert_eq. eexists. split; [done|].
        rewrite Hx' in Hx1'. by simplify_eq.
      + rewrite lookup_insert_ne by done. eauto.
    - intros k1 pe1 [Hin1|Hin1]%elem_of_app.
      + destruct (Hdone _ _ Hin1) as (a1 & x1 & -> & Hx1 & Hk1 & Hw1).
        exists a1. cbn. destruct (decide (a1 = a)) as [->|Hne].
        * rewrite lookup_insert_eq. eexists. split; [done|]. split; [done|].
          rewrite Hx' in Hx1. simplify_eq. cbn. split; [done|].
          by rewrite Hk'.
        * rewrite lookup_insert_ne by done. eauto.
      + apply list_elem_of_singleton in Hin1. simplify_eq.
        exists a. cbn. rewrite lookup_insert_eq. eexists. split; [done|].
        split; [done|]. cbn. by split.
    - rewrite haves_app, Hhv, fmap_app. f_equal. cbn.
      by destruct (bool_decide (b = amInterested x')), b. }
  destruct HI as (Hbf & Hps & Hcp & Hdl & Hst & Hdone & Hhv).
  exists d', tr. repeat split; try done.
  intros k pe Hin. apply (elem_of_range 125 0) in Hin.
  destruct (Hdone _ _ Hin) as (a & x & -> & Hx & Hk & Hw).
  exists a, x. repeat split; try done.
  - intros ?. apply (wants_ext d' d k Hbf Hps). by apply Hw.
  - intros ?. apply Hw. by apply (wants_ext d' d k Hbf Hps).
Qed.

(** C7. A successful [WriteResponse] for piece [i], handled in a
    well-formed state, sets bit [i], runs the completion check, launches one
    [Have(i)] per connected peer and no other [Have], and leaves every
    connected peer with [amInterested] equal to the interest predicate
    evaluated on the new bitfield, all within the one iteration. *)
Theorem writeResponse_success d i pc :
  wf d →
  pieces d !! i = Some pc →
  ∃ d' tr,
    handle (EvWriteResponse i None) d = Ok Next d' (CheckCompletion :: tr) ∧
    bitfield d' = <[i := true]> (bitfield d) ∧
    pieces d' = <[i := set_writing false pc]> (pieces d) ∧
    connectedPeers d' = connectedPeers d ∧
    haves tr ≡ₚ (λ kv, (kv.1, i)) <$> map_to_list (connectedPeers d) ∧
    ∀ k pe, connectedPeers d !! k = Some pe →
            ∃ a x, pe = Some a ∧ store d' !! a = Some x ∧ Peer_Peer x = k
                   ∧ (amInterested x = true ↔ wants d' k).
Proof.
  intros Hwf Hpc.
  assert (Hlt : i < length (bitfield d)).
  { rewrite (wf_bitfield _ Hwf). by apply lookup_lt_Some in Hpc. }
  destruct (lookup_lt_is_Some_2 _ _ Hlt) as [b0 Hb0].
  set (d1 := set_pieces (<[i := set_writing false pc]> (pieces d)) d).
  set (d2 := set_bitfield (<[i := true]> (bitfield d)) d1).
  destruct (broadcast_spec d2 i) as (d' & tr & Hrun & Hbf & Hps & Hcp & Hdl & Hhv & Hint).
  { cbn. rewrite !length_insert. by rewrite (wf_bitfield _ Hwf). }
  { apply (wf_connectedPeers _ Hwf). }
  exists d', tr. split.
  { cbn [handle]. unfold onWriteResponse.
    rewrite (bind_run0 _ _ _ _ _ (updatePiece_ok _ _ _ _ Hpc)). fold d1.
    assert (bfSet i d1 = Ok tt d2 []) as Hset by (unfold bfSet; cbn; by rewrite Hb0).
    rewrite (bind_run0 _ _ _ _ _ Hset), bind_emit, bind_get.
    rewrite (bind_run _ _ _ _ _ _ Hrun). cbn. by rewrite app_nil_r. }
  repeat split; try done.
  rewrite Hhv. unfold range. by rewrite mapRange_perm.
Qed.

(** ** [DownloadDone] with a hash mismatch *)

Lemma size_zero_delete (m : gmap positive PieceDownloader) q :
  size (delete q m) = 0 ↔ ∀ k, is_Some (m !! k) → k = q.
Proof.
  rewrite map_size_empty_iff. split.
  - intros He k [v Hk]. destruct (decide (k = q)) as [|Hne]; [done|].
    assert (delete q m !! k = Some v) as H by (by rewrite lookup_delete_ne).
    rewrite He in H. by rewrite lookup_empty in H.
  - intros H. apply map_eq. intros k. rewrite lookup_empty.
    destruct (decide (k = q)) as [->|Hne]; [by rewrite lookup_delete_eq|].
    rewrite lookup_delete_ne by done.
    destruct (m !! k) eqn:E; [|done]. exfalso. apply Hne, H. eauto.
Qed.

(** C6 (amended). When the bytes of a finished download fail the hash
    check, the iteration sends no write request (its only effect is one
    semaphore signal), leaves the bitfield alone, removes the peer from
    [downloads] and from the piece's [requestedPeers]; after it the piece is
    eligible exactly when its bit is unset, it is not being written, some
    peer still has it and no other peer was requested for it. *)
Theorem downloadDone_hash_mismatch d pd buf submitted pc :
  pieces d !! pdPiece pd = Some pc →
  Verify (Index pc) buf = false →
  ∃ d' pc',
    handle (EvDownloadDone pd (PdDone buf submitted)) d = Ok Next d' [SemSignal 1] ∧
    writeRequests [SemSignal 1] = [] ∧
    bitfield d' = bitfield d ∧
    downloads d' = delete (pdPeer pd) (downloads d) ∧
    pieces d' = <[pdPiece pd := pc']> (pieces d) ∧
    pc' = set_requestedPeers (delete (pdPeer pd) (requestedPeers pc)) pc ∧
    (eligible d' pc' = true ↔
       bitfield d !! Index pc = Some false ∧ writing pc = false
       ∧ havingPeers pc ≠ ∅
       ∧ ∀ k, is_Some (requestedPeers pc !! k) → k = pdPeer pd).
Proof.
  intros Hpc Hv.
  set (pc' := set_requestedPeers (delete (pdPeer pd) (requestedPeers pc)) pc).
  set (d1 := set_downloads (delete (pdPeer pd) (downloads d)) d).
  set (d2 := set_pieces (<[pdPiece pd := pc']> (pieces d)) d1).
  exists d2, pc'. split.
  { cbn [handle]. unfold onDownloadDone. rewrite bind_modify. fold d1.
    assert (Hpc1 : pieces d1 !! pdPiece pd = Some pc) by done.
    rewrite (bind_run0 _ _ _ _ _ (updatePiece_ok _ _ _ _ Hpc1)). fold pc' d2.
    rewrite bind_emit.
    assert (Hpc2 : pieces d2 !! pdPiece pd = Some pc').
    { cbn. apply list_lookup_insert_eq. by apply lookup_lt_Some in Hpc. }
    rewrite (bind_run0 _ _ _ _ _ (pieceAt_ok _ _ _ Hpc2)).
    cbn [Index pc' set_requestedPeers]. by rewrite Hv. }
  do 5 (split; [done|]). split.
  - unfold eligible. cbn. intros He.
    destruct (bitfield d !! Index pc) as [[|]|]; try done.
    apply andb_true_iff in He as [[H1 H2]%andb_true_iff H3].
    apply Nat.eqb_eq in H1. apply negb_true_iff in H2, H3.
    apply Nat.eqb_neq in H3. repeat split; try done.
    + by apply map_size_non_empty_iff in H3.
    + by apply size_zero_delete.
  - intros (Hb & Hw & Hh & Hr). unfold eligible. cbn. rewrite Hb, Hw.
    apply size_zero_delete in Hr. rewrite Hr. cbn.
    apply negb_true_iff, Nat.eqb_neq. by apply map_size_non_empty_iff.
Qed.

(** ** Every iteration of the loop keeps the state well-formed *)

Lemma collect_preserves I keep l : preserves I (collect keep l).
Proof.
  induction l as [|[k pe] l IH]; cbn [collect]; [apply preserves_ret|].
  apply preserves_bind; [apply preserves_load|]. intros p.
  apply preserves_bind; [apply IH|]. intros rest. apply preserves_ret.
Qed.

Lemma firstAllowedFast_preserves I p l : preserves I (firstAllowedFast p l).
Proof.
  induction l as [|[k pe] l IH]; cbn [firstAllowedFast]; [apply preserves_ret|].
  apply preserves_bind; [apply preserves_load|]. intros x.
  apply preserves_bind; [apply preserves_get|]. intros d0.
  destruct (negb _); [apply IH|]. destruct (bool_decide _); [apply IH|apply preserves_ret].
Qed.

Lemma firstUnchoked_preserves I p l : preserves I (firstUnchoked p l).
Proof.
  induction l as [|[k pe] l IH]; cbn [firstUnchoked]; [apply preserves_ret|].
  apply preserves_bind; [apply preserves_load|]. intros x.
  apply preserves_bind; [apply preserves_get|]. intros d0.
  destruct (peerChoking x); [apply IH|].
  destruct (bool_decide _); [apply IH|apply preserves_ret].
Qed.

Lemma scanPieces_preserves I k l : preserves I (scanPieces k l).
Proof.
  revert k. induction l as [|i l IH]; intros k; cbn [scanPieces]; [apply preserves_ret|].
  apply preserves_bind; [apply preserves_pieceAt|]. intros p.
  apply preserves_bind; [apply preserves_bfTest|]. intros have.
  destruct have; [apply IH|].
  destruct (0 <? _); [apply IH|].
  destruct (writing p); [apply IH|].
  destruct (_ =? 0); [apply IH|].
  apply preserves_bind; [apply firstAllowedFast_preserves|]. intros [pd|];
    [apply preserves_ret|].
  apply preserves_bind; [apply firstUnchoked_preserves|]. intros [pd|];
    [apply preserves_ret|apply IH].
Qed.

Lemma nextDownload_wf : preserves wf nextDownload.
Proof.
  unfold nextDownload. apply hoare_bind_get. intros d0.
  apply hoare_bind with (R := λ _, wf); [|intros ?; apply scanPieces_preserves].
  apply hoare_modify. intros d [-> Hwf].
  apply wf_set_sortedPieces; [done|]. apply goSort_perm.
Qed.

Lemma onWait_wf : preserves wf onWait.
Proof.
  unfold onWait. apply preserves_bind; [apply nextDownload_wf|]. intros [pd|].
  - apply preserves_bind; [apply preserves_emit|]. intros _.
    apply preserves_bind; [apply preserves_modify; intros; by apply wf_set_downloads|].
    intros _. apply preserves_bind; [by apply updatePiece_wf|]. intros _.
    apply preserves_bind; [apply preserves_emit|]. intros _. apply preserves_ret.
  - apply preserves_bind; [apply preserves_emit|]. intros _. apply preserves_ret.
Qed.

Lemma onDownloadDone_wf pd o : preserves wf (onDownloadDone pd o).
Proof.
  unfold onDownloadDone.
  apply preserves_bind; [apply preserves_modify; intros; by apply wf_set_downloads|].
  intros _. apply preserves_bind; [by apply updatePiece_wf|]. intros _.
  apply preserves_bind; [apply preserves_emit|]. intros _.
  destruct o as [buf submitted|err|].
  - apply preserves_bind; [apply preserves_pieceAt|]. intros p.
    destruct (negb _); [apply preserves_ret|].
    destruct submitted; [|apply preserves_ret].
    apply preserves_bind; [apply preserves_emit|]. intros _.
    apply preserves_bind; [by apply updatePiece_wf|]. intros _. apply preserves_ret.
  - apply preserves_bind; [apply preserves_emit|]. intros _. apply preserves_ret.
  - apply preserves_ret.
Qed.

Lemma onWriteResponse_wf i err : preserves wf (onWriteResponse i err).
Proof.
  unfold onWriteResponse.
  apply preserves_bind; [by apply updatePiece_wf|]. intros _.
  destruct err as [e|].
  { apply preserves_bind; [apply preserves_emit|]. intros _. apply preserves_ret. }
  apply preserves_bind.
  { apply hoare_bfSet. intros d Hwf Hi. apply wf_set_bitfield; [done|].
    by rewrite length_insert. }
  intros _. apply preserves_bind; [apply preserves_emit|]. intros _.
  apply preserves_bind; [apply preserves_get|]. intros d0.
  apply preserves_bind; [|intros _; apply preserves_ret].
  apply preserves_forEach. intros [k pe]. cbn [snd].
  apply preserves_bind; [apply preserves_load|]. intros p.
  apply preserves_bind; [apply preserves_emit|]. intros _.
  apply updateInterestedState_wf.
Qed.

(** The three events that record what a peer has end with an interest
    update through the peer's entry of [connectedPeers]: for a peer that is
    not connected that pointer is [nil] and the iteration panics. *)
Lemma having_event_wf (pe : positive) (m : M unit) :
  (∀ a, preserves (knows pe a) m) → preserves (unknown pe) m →
  hoare wf (m ;; do d <- get;
                 updateInterestedState (mapGet (connectedPeers d) pe) ;; ret Next)
        (λ _, wf).
Proof.
  intros Hk Hu d Hwf. destruct (mapGet (connectedPeers d) pe) as [a|] eqn:Hg.
  - assert (H : hoare (knows pe a)
       (m ;; do d <- get;
             updateInterestedState (mapGet (connectedPeers d) pe) ;; ret Next)
       (λ _, wf)).
    { eapply hoare_bind; [apply Hk|]. intros ?. apply knows_update. }
    by apply H.
  - assert (H : hoare (unknown pe)
       (m ;; do d <- get;
             updateInterestedState (mapGet (connectedPeers d) pe) ;; ret Next)
       (λ _ _, False)).
    { eapply hoare_bind; [apply Hu|]. intros ?. apply unknown_update. }
    specialize (H d Hg). destruct (bind m _ d); [destruct H|done].
Qed.

Lemma onHave_wf pe i : preserves wf (onHave pe i).
Proof.
  unfold onHave.
  apply preserves_bind; [apply preserves_emit|]. intros _.
  apply (having_event_wf pe (addHaving i pe)).
  - intros a. apply addHaving_knows.
  - apply addHaving_unknown.
Qed.

Lemma onBitfield_wf pe bf : preserves wf (onBitfield pe bf).
Proof.
  unfold onBitfield.
  assert (Hloop : ∀ I, (∀ i, preserves I (addHaving i pe)) →
            preserves I (forEach (seq 0 (length bf))
              (λ i, if default false (bf !! i) then addHaving i pe else ret tt) ;;
                        emit (SemSignal (bfCount bf)))).
  { intros I HI. apply preserves_bind; [|intros _; apply preserves_emit].
    apply preserves_forEach. intros i. destruct (default _ _); [apply HI|apply preserves_ret]. }
  eapply hoare_ext; [intros d; apply bind_assoc|].
  apply (having_event_wf pe).
  - intros a. apply Hloop. intros i. apply addHaving_knows.
  - apply Hloop. intros i. apply addHaving_unknown.
Qed.

Lemma onHaveAll_wf pe : preserves wf (onHaveAll pe).
Proof.
  unfold onHaveAll. apply hoare_bind_get. intros d0.
  destruct (mapGet (connectedPeers d0) pe) as [a|] eqn:Hg.
  - apply hoare_weaken with (P' := knows pe a) (Q' := λ _, wf);
      [|by intros d [-> ?]|done].
    apply hoare_bind with (R := λ _, knows pe a).
    { apply preserves_forEach. intros i. apply addHaving_knows. }
    intros _. apply hoare_bind with (R := λ _, knows pe a);
      [apply preserves_emit|]. intros _.
    apply hoare_bind with (R := λ _, wf); [|intros ?; by apply hoare_ret].
    eapply hoare_weaken; [apply updateInterestedState_wf|by intros d [? _]|done].
  - apply hoare_bind with (R := λ _ _, True); [apply hoare_True|]. intros _.
    apply hoare_bind with (R := λ _ _, True); [apply hoare_True|]. intros _.
    apply hoare_bind with (R := λ _ _, False); [|by intros ? d []].
    apply updateInterestedState_nil.
Qed.

Lemma onAllowedFast_wf pe i : preserves wf (onAllowedFast pe i).
Proof.
  unfold onAllowedFast. apply preserves_bind; [apply preserves_get|]. intros d0.
  apply preserves_bind; [by apply updatePiece_wf|]. intros _. apply preserves_ret.
Qed.

Lemma onUnchoke_wf pe : preserves wf (onUnchoke pe).
Proof.
  unfold onUnchoke. apply preserves_bind; [apply preserves_emit|]. intros _.
  apply preserves_bind; [apply preserves_get|]. intros d0.
  apply preserves_bind; [by apply update_wf|]. intros _.
  apply preserves_bind; [|intros _; apply preserves_ret].
  destruct (downloads d0 !! pe); [apply preserves_emit|apply preserves_ret].
Qed.

Lemma onChoke_wf pe : preserves wf (onChoke pe).
Proof.
  unfold onChoke. apply preserves_bind; [apply preserves_get|]. intros d0.
  apply preserves_bind; [by apply update_wf|]. intros _.
  apply preserves_bind; [|intros _; apply preserves_ret].
  destruct (downloads d0 !! pe); [apply preserves_emit|apply preserves_ret].
Qed.

Lemma onPiece_wf msg : preserves wf (onPiece msg).
Proof.
  unfold onPiece. apply preserves_bind; [apply preserves_get|]. intros d0.
  apply preserves_bind.
  { destruct (connectedPeers d0 !! pmPeer msg); [by apply update_wf|apply preserves_ret]. }
  intros _. apply preserves_bind; [|intros _; apply preserves_ret].
  destruct (downloads d0 !! pmPeer msg); [apply preserves_emit|apply preserves_ret].
Qed.

Lemma onRequest_wf msg : preserves wf (onRequest msg).
Proof.
  unfold onRequest. apply preserves_bind; [apply preserves_get|]. intros d0.
  apply preserves_bind; [|intros _; apply preserves_ret].
  destruct (connectedPeers d0 !! reqPeer msg); [|apply preserves_ret].
  apply preserves_bind; [apply preserves_load|]. intros p.
  destruct (amChoking p); [|apply preserves_emit].
  destruct (reqFastExtension msg); [apply preserves_emit|apply preserves_ret].
Qed.

Lemma onConnect_wf p : preserves wf (onConnect p).
Proof.
  unfold onConnect. apply hoare_bind_get. intros d0. cbv zeta.
  set (a := fresh (dom (store d0))).
  apply hoare_bind with (R := λ _ d, wf d ∧ pointsTo d p (Some a)).
  { apply hoare_modify. intros d [-> Hwf]. split.
    - apply wf_store_alloc; [done|]. apply not_elem_of_dom. apply is_fresh.
    - eapply pointsTo_intro; [cbn; apply lookup_insert_eq|done]. }
  intros _. apply hoare_bind with (R := λ _, wf).
  { apply hoare_modify. intros d [Hwf Hp]. apply wf_set_connectedPeers; [done|].
    apply map_Forall_insert_2; [done|]. apply (wf_connectedPeers _ Hwf). }
  intros _. apply preserves_bind; [apply preserves_get|]. intros d1.
  apply preserves_bind; [|intros _; apply preserves_ret].
  destruct (_ <=? 4); [apply unchokePeer_wf|apply preserves_ret].
Qed.

Lemma onDisconnect_wf pe : preserves wf (onDisconnect pe).
Proof.
  unfold onDisconnect. apply preserves_bind.
  { apply preserves_modify. intros d Hwf. apply wf_set_connectedPeers; [done|].
    apply map_Forall_delete, (wf_connectedPeers _ Hwf). }
  intros _. apply preserves_bind; [apply preserves_get|]. intros d0.
  apply preserves_bind; [|intros _; apply preserves_ret].
  apply preserves_forEach. intros i.
  apply preserves_bind.
  { apply preserves_updatePiece. intros d p Hwf Hp.
    eapply wf_set_piece; [done|done|done|]. cbn.
    apply map_Forall_delete. by eapply wf_pieces_having. }
  intros _. apply preserves_bind; [by apply updatePiece_wf|]. intros _.
  by apply updatePiece_wf.
Qed.

Lemma unchokeTop_wf i peers s : preserves wf (unchokeTop i peers s).
Proof.
  revert i s. induction peers as [|pe peers IH]; intros i s; cbn [unchokeTop].
  - apply preserves_ret.
  - destruct (i =? 3); [apply preserves_ret|].
    apply preserves_bind; [apply unchokePeer_wf|]. intros _. apply IH.
Qed.

Lemma tickUnchoke_wf : preserves wf tickUnchoke.
Proof.
  unfold tickUnchoke. apply preserves_bind; [apply preserves_get|]. intros d0.
  apply preserves_bind; [apply collect_preserves|]. intros peers.
  apply preserves_bind; [apply preserves_get|]. intros d1. cbv zeta.
  apply preserves_bind.
  { apply preserves_forEach. intros kv. by apply update_wf. }
  intros _. apply preserves_bind; [apply unchokeTop_wf|]. intros s.
  apply preserves_forEach. intros kv.
  destruct (bool_decide _); [apply preserves_ret|apply chokePeer_wf].
Qed.

Lemma tickOptimisticUnchoke_wf : preserves wf tickOptimisticUnchoke.
Proof.
  unfold tickOptimisticUnchoke. apply preserves_bind; [apply preserves_get|]. intros d0.
  apply preserves_bind; [apply collect_preserves|]. intros peers.
  apply preserves_bind.
  { destruct (optimisticUnchokedPeer d0); [|apply preserves_ret].
    apply preserves_bind; [by apply update_wf|]. intros _. apply chokePeer_wf. }
  intros _. destruct (_ =? 0); [apply preserves_panic|].
  destruct (peers !! _) as [pe|]; [|apply preserves_panic].
  apply preserves_bind; [by apply update_wf|]. intros _.
  apply preserves_bind; [apply unchokePeer_wf|]. intros _.
  apply preserves_modify. intros d Hwf. by apply wf_set_optimisticUnchokedPeer.
Qed.

(** Every iteration of the loop that does not panic takes a well-formed
    state to a well-formed state. *)
Lemma handle_preserves_wf e : preserves wf (handle e).
Proof.
  destruct e; cbn [handle].
  - apply onWait_wf.
  - apply onDownloadDone_wf.
  - apply onWriteResponse_wf.
  - apply onHave_wf.
  - apply onBitfield_wf.
  - apply onHaveAll_wf.
  - apply onAllowedFast_wf.
  - apply onUnchoke_wf.
  - apply onChoke_wf.
  - apply onPiece_wf.
  - apply onRequest_wf.
  - apply preserves_bind; [apply tickUnchoke_wf|]. intros _. apply preserves_ret.
  - apply preserves_bind; [apply tickOptimisticUnchoke_wf|]. intros _. apply preserves_ret.
  - apply onConnect_wf.
  - apply onDisconnect_wf.
  - apply preserves_ret.
Qed.

Lemma handle_wf e d f d' tr : wf d → handle e d = Ok f d' tr → wf d'.
Proof. intros Hwf Hrun. exact (hoare_run _ _ _ _ _ _ _ (handle_preserves_wf e) Hwf Hrun). Qed.

Lemma run_preserves_wf es : preserves wf (run es).
Proof.
  induction es as [|e es IH]; cbn [run]; [apply preserves_ret|].
  apply preserves_bind; [apply handle_preserves_wf|]. intros [|]; [apply IH|apply preserves_ret].
Qed.

(** Every state [Run] reaches from [New] is well-formed. *)
Lemma stateAfter_wf n bf es d :
  length bf = n → stateAfter rt n bf es = Some d → wf d.
Proof.
  intros Hl. unfold stateAfter.
  destruct (run es (New n bf)) as [f d1 tr|] eqn:Hrun; [|done]. intros [= <-].
  exact (hoare_run _ _ _ _ _ _ _ (run_preserves_wf es) (New_wf n bf Hl) Hrun).
Qed.

(** ** The regular unchoke chokes the optimistic peer, in general *)


Lemma update_flagged a pe f :
  (∀ x, optimisticUnhoked (f x) = optimisticUnhoked x) →
  preserves (flagged a) (update pe f).
Proof.
  intros Hf. apply preserves_update. intros d a' x' (x & Hx & Ho) Hx'.
  unfold flagged. cbn.
  destruct (decide (a = a')) as [<-|Hne].
  - exists (f x'). rewrite lookup_insert_eq. split; [done|]. rewrite Hf. congruence.
  - exists x. by rewrite lookup_insert_ne.
Qed.

Lemma unchokePeer_flagged a pe : preserves (flagged a) (unchokePeer pe).
Proof.
  unfold unchokePeer. apply preserves_bind; [apply preserves_load|]. intros p.
  destruct (amChoking p); [|apply preserves_ret].
  apply preserves_bind; [by apply update_flagged|]. intros _. apply preserves_emit.
Qed.

Lemma chokePeer_flaggedChoked a pe : preserves (flaggedChoked a) (chokePeer pe).
Proof.
  unfold chokePeer. apply preserves_bind; [apply preserves_load|]. intros p.
  destruct (negb (amChoking p)); [|apply preserves_ret].
  apply preserves_bind; [|intros _; apply preserves_emit].
  apply preserves_update. intros d a' x' (x & Hx & Ho & Hc) Hx'.
  unfold flaggedChoked. cbn.
  destruct (decide (a = a')) as [<-|Hne].
  - exists (set_amChoking true x'). rewrite lookup_insert_eq.
    split; [done|]. split; [|done]. cbn. congruence.
  - exists x. by rewrite lookup_insert_ne.
Qed.

Lemma chokePeer_flagged a pe : preserves (flagged a) (chokePeer pe).
Proof.
  unfold chokePeer. apply preserves_bind; [apply preserves_load|]. intros p.
  destruct (negb (amChoking p)); [|apply preserves_ret].
  apply preserves_bind; [by apply update_flagged|]. intros _. apply preserves_emit.
Qed.

Lemma chokePeer_chokes a :
  hoare (flagged a) (chokePeer (Some a)) (λ _, flaggedChoked a).
Proof.
  unfold chokePeer. eapply hoare_bind; [apply (hoare_load (flagged a))|]. intros p.
  destruct (amChoking p) eqn:Hc; cbn [negb].
  - apply hoare_ret. intros d ((x & Hx & Ho) & a' & [= <-] & Hp).
    exists x. rewrite Hx in Hp. by simplify_eq.
  - apply hoare_bind with (R := λ _, flaggedChoked a); [|intros _; apply preserves_emit].
    apply hoare_update. intros d a' x' ((x & Hx & Ho) & _) [= <-] Hx'.
    unfold flaggedChoked. cbn.
    exists (set_amChoking true x'). rewrite lookup_insert_eq.
    split; [done|]. split; [|done]. cbn. congruence.
Qed.

Lemma collect_spec keep l d0 :
  hoare (λ d, d = d0) (collect keep l)
        (λ peers d, d = d0 ∧
           ∀ pe, pe ∈ peers → ∃ a x, pe = Some a ∧ store d0 !! a = Some x
                                     ∧ keep x = true).
Proof.
  induction l as [|[k pe] l IH]; cbn [collect].
  - apply hoare_ret. intros d ->. split; [done|]. intros pe H. by apply elem_of_nil in H.
  - eapply hoare_bind; [apply (hoare_load (λ d, d = d0))|]. intros p.
    apply hoare_bind with (R := λ peers d, (d = d0 ∧
           ∀ pe, pe ∈ peers → ∃ a x, pe = Some a ∧ store d0 !! a = Some x
                                     ∧ keep x = true)
           ∧ ∃ a, pe = Some a ∧ store d0 !! a = Some p).
    { intros d (-> & a & Ha). specialize (IH d0 eq_refl).
      destruct (collect keep l d0) as [r d1 t1|]; [|done]. destruct IH as [-> IH].
      split; [done|]. eauto. }
    intros rest. apply hoare_ret. intros d ((-> & Hrest) & a & -> & Hp).
    split; [done|]. destruct (keep p) eqn:Hk; [|done].
    intros pe [->|Hin]%elem_of_cons; [eauto|by apply Hrest].
Qed.

Lemma unchokeTop_spec a i peers s :
  hoare (flagged a) (unchokeTop i peers s)
        (λ s' d, flagged a d ∧ ∀ pe, pe ∈ s' → pe ∈ s ∨ pe ∈ peers).
Proof.
  revert i s. induction peers as [|pe peers IH]; intros i s; cbn [unchokeTop].
  - apply hoare_ret. intros d Hd. split; [done|]. by left.
  - destruct (i =? 3).
    { apply hoare_ret. intros d Hd. split; [done|]. by left. }
    apply hoare_bind with (R := λ _, flagged a); [apply unchokePeer_flagged|].
    intros _. eapply hoare_weaken; [apply IH|done|].
    intros s' d [Hd Hs]. split; [done|]. intros pe' Hin.
    destruct (Hs _ Hin) as [[->%elem_of_singleton|?]%elem_of_union|?];
      [right; left|by left|right; by right].
Qed.

Lemma forEach_app {A} (l1 l2 : list A) (body : A → M unit) d :
  forEach (l1 ++ l2) body d = (forEach l1 body ;; forEach l2 body) d.
Proof.
  revert d. induction l1 as [|x l1 IH]; intros d; cbn [app forEach].
  - by rewrite bind_ret.
  - rewrite bind_assoc. apply bind_ext. intros _ d1. apply IH.
Qed.

Lemma hoare_pure {A} (φ : Prop) (P : Downloader → Prop) (m : M A) Q :
  (φ → hoare P m Q) → hoare (λ d, φ ∧ P d) m Q.
Proof. intros H d [Hφ Hd]. by apply H. Qed.

Lemma hoare_pure_r {A} (φ : Prop) (P : Downloader → Prop) (m : M A) Q :
  (φ → hoare P m Q) → hoare (λ d, P d ∧ φ) m Q.
Proof. intros H d [Hd Hφ]. by apply H. Qed.

(** The last loop of the tick: once it reaches the entry of [a], which is
    not in [unchokedPeers], [a] is choked, and it stays so. *)
Lemma chokeLoop_chokes (a k : positive) (s : gset (option positive))
      (l : list (positive * option positive)) :
  (k, Some a) ∈ l → Some a ∉ s →
  hoare (flagged a)
        (forEach l (λ kv, if bool_decide (kv.2 ∈ s) then ret tt else chokePeer kv.2))
        (λ _, flaggedChoked a).
Proof.
  intros (l1 & l2 & ->)%list_elem_of_split Hs.
  eapply hoare_ext; [intros d; symmetry; apply forEach_app|].
  apply hoare_bind with (R := λ _, flagged a).
  { apply preserves_forEach. intros kv.
    destruct (bool_decide _); [apply preserves_ret|apply chokePeer_flagged]. }
  intros _. cbn [forEach].
  apply hoare_bind with (R := λ _, flaggedChoked a).
  { cbn [snd]. rewrite bool_decide_eq_false_2 by done. apply chokePeer_chokes. }
  intros _. apply preserves_forEach. intros kv.
  destruct (bool_decide _); [apply preserves_ret|apply chokePeer_flaggedChoked].
Qed.

(** Whatever the run time chooses: a connected peer that is flagged as the
    optimistic pick is choked by us after the regular unchoke tick, and is
    still flagged. *)
Lemma tickUnchoke_chokes_flagged d k a :
  connectedPeers d !! k = Some (Some a) → flagged a d →
  hoare (λ dx, dx = d) tickUnchoke (λ _, flaggedChoked a).
Proof.
  intros Hk Hfl. unfold tickUnchoke.
  apply hoare_bind_get. intros d0.
  eapply hoare_bind.
  { eapply hoare_weaken; [apply (collect_spec _ _ d)|by intros dx [_ ->]|].
    intros peers dx H. exact H. }
  intros peers. cbn beta. apply hoare_bind_get. intros d1. cbv zeta.
  eapply hoare_weaken with
    (P' := λ dx, (d1 = d ∧ Some a ∉ peers) ∧ flagged a dx)
    (Q' := λ _, flaggedChoked a); [|  |done].
  2:{ intros dx (-> & -> & Hp). split; [split; [done|]|done].
      intros Hin. destruct (Hp _ Hin) as (a' & x' & [= <-] & Hx' & Hkeep).
      destruct Hfl as (x & Hx & Ho). rewrite Hx in Hx'. simplify_eq.
      by rewrite Ho in Hkeep. }
  apply hoare_pure. intros [-> Hnot].
  set (sorted := goSort _ peers).
  assert (Hnot' : Some a ∉ sorted) by (unfold sorted; by rewrite goSort_perm).
  apply hoare_bind with (R := λ _, flagged a).
  { apply preserves_forEach. intros kv. by apply update_flagged. }
  intros _. eapply hoare_bind; [apply (unchokeTop_spec a)|].
  intros s. cbn beta. apply hoare_pure_r. intros Hs.
  apply chokeLoop_chokes with (k := k).
  - by apply elem_of_range.
  - intros Hin. destruct (Hs _ Hin) as [H|H]; [by apply not_elem_of_empty in H|done].
Qed.

Lemma unchokeTick_chokes_flagged d k a f d' tr :
  connectedPeers d !! k = Some (Some a) → flagged a d →
  handle EvUnchokeTick d = Ok f d' tr → flaggedChoked a d'.
Proof.
  intros Hk Hfl Hrun. cbn [handle] in Hrun.
  assert (H := tickUnchoke_chokes_flagged d k a Hk Hfl d eq_refl).
  unfold bind in Hrun. destruct (tickUnchoke d) as [[] d1 t1|]; [|done].
  cbn in Hrun. by simplify_eq.
Qed.

End Properties.

(** ** The regular unchoke and the optimistic peer *)

(** C1. With five peers connected and peer 5 optimistically unchoked (its
    flag set, not choked by us), the regular unchoke tick chokes peer 5 and
    sends it [Choke], while its flag stays set. *)
Theorem unchokeTick_chokes_optimistic_peer :
  ∃ d',
    handle (rt := rt0) EvUnchokeTick fivePeers
      = Ok Next d' [SendChoke 5; SendChoke 1] ∧
    optimisticUnchokedPeer fivePeers = Some 5%positive ∧
    connectedPeers fivePeers !! 5%positive = Some (Some 5%positive) ∧
    optimisticUnhoked <$> store fivePeers !! 5%positive = Some true ∧
    amChoking <$> store fivePeers !! 5%positive = Some false ∧
    optimisticUnhoked <$> store d' !! 5%positive = Some true ∧
    amChoking <$> store d' !! 5%positive = Some true.
Proof.
  eexists. split; [vm_compute; reflexivity|].
  repeat split; vm_compute; reflexivity.
Qed.

(** ** Concrete instances *)

Lemma twoPeers_wf : wf twoPeers.
Proof. apply (bool_decide_unpack _). vm_compute. exact I. Qed.

Lemma downloading_wf : wf downloading.
Proof. apply (bool_decide_unpack _). vm_compute. exact I. Qed.

(** The states above are reached: the runs that define them do not panic. *)
Lemma examples_reached :
  is_Some (stateAfter rt0 2 [false; false]
             [EvConnect 1; EvConnect 2; EvHave 1 0; EvHave 1 1; EvHave 2 1;
              EvUnchoke 2]) ∧
  is_Some (stateAfter rt0 1 [false]
             [EvConnect 1; EvHave 1 0; EvUnchoke 1; EvWait; EvDisconnect 1]) ∧
  is_Some (stateAfter rt0 1 [false]
             [EvConnect 1; EvConnect 2; EvConnect 3; EvConnect 4; EvConnect 5;
              EvOptimisticUnchokeTick]).
Proof. repeat split; vm_compute; eauto. Qed.

(** In [twoPeers], an interest update of peer 1. *)
Lemma updateInterestedState_spec_witness :
  ∃ (b : bool) d' tr,
    updateInterestedState (Some 1%positive) twoPeers = Ok tt d' tr ∧
    (b = true ↔ wants d' 1%positive) ∧
    store d' !! 1%positive
    = Some (set_amInterested b (mkPeer 1 true false true false 0)) ∧
    (∀ a', a' ≠ 1%positive → store d' !! a' = store twoPeers !! a') ∧
    bitfield d' = bitfield twoPeers ∧ pieces d' = pieces twoPeers ∧
    tr = (if bool_decide (b = true) then []
          else [if b then SendInterested 1 else SendNotInterested 1]).
Proof.
  apply (updateInterestedState_spec twoPeers 1%positive
           (mkPeer 1 true false true false 0)).
  - vm_compute. reflexivity.
  - vm_compute. lia.
Defined.

Lemma nextDownload_spec_witness :
  ∃ r d', nextDownload (rt := rt0) twoPeers = Ok r d' [] ∧
    bitfield d' = bitfield twoPeers ∧ pieces d' = pieces twoPeers ∧
    store d' = store twoPeers ∧
    connectedPeers d' = connectedPeers twoPeers ∧
    downloads d' = downloads twoPeers ∧
    match r with
    | Some pd =>
        ∃ pc, pieces twoPeers !! pdPiece pd = Some pc
              ∧ eligible twoPeers pc = true
              ∧ chosen twoPeers pc (pdPeer pd)
    | None =>
        ∀ j pcj q, pieces twoPeers !! j = Some pcj →
                   eligible twoPeers pcj = true → ¬ candidate twoPeers pcj q
    end.
Proof. apply (nextDownload_spec (rt := rt0) twoPeers). exact twoPeers_wf. Defined.

(** C4, as stated, fails in [twoPeers]: the selector returns piece 1, which
    two peers have, although piece 0, which one peer has, is eligible; that
    one peer chokes us. *)
Lemma nextDownload_rarest_counterexample :
  ∃ d' pc0,
    nextDownload (rt := rt0) twoPeers = Ok (Some (mkPD 1 2)) d' [] ∧
    pieces twoPeers !! 0 = Some pc0 ∧
    eligible twoPeers pc0 = true ∧
    availability (pieces twoPeers) 0 = 1 ∧
    availability (pieces twoPeers) 1 = 2 ∧
    ¬ (availability (pieces twoPeers) 1 ≤ availability (pieces twoPeers) 0).
Proof.
  eexists _, _. split; [vm_compute; reflexivity|].
  split; [vm_compute; reflexivity|].
  split; [vm_compute; reflexivity|].
  split; [vm_compute; reflexivity|].
  split; [vm_compute; reflexivity|].
  vm_compute. lia.
Qed.

Lemma nextDownload_rarest_witness :
  availability (pieces twoPeers) 1 < availability (pieces twoPeers) 1
  ∨ (availability (pieces twoPeers) 1 = availability (pieces twoPeers) 1 ∧ 1 ≤ 1).
Proof.
  refine (nextDownload_rarest (rt := rt0) twoPeers (mkPD 1 2)
            (set_sortedPieces [0; 1] twoPeers) [] twoPeers_wf _ 1
            (mkPiece 1 {[1%positive := Some 1%positive; 2%positive := Some 2%positive]}
                     ∅ ∅ false)
            2%positive _ _ _).
  - vm_compute. reflexivity.
  - vm_compute. reflexivity.
  - vm_compute. reflexivity.
  - right. exists 2%positive, (mkPeer 2 true false false false 0).
    repeat split; vm_compute; reflexivity.
Defined.

(** C2, as stated, fails in [downloading]: after [Disconnect(1)] peer 1 is
    still in [downloads], with the downloader that was started for it. *)
Lemma disconnect_counterexample :
  ∃ d',
    handle (rt := rt0) (EvDisconnect 1) downloading = Ok Next d' [] ∧
    downloads downloading !! 1%positive = Some (mkPD 0 1) ∧
    downloads d' !! 1%positive = Some (mkPD 0 1) ∧
    ¬ (downloads d' !! 1%positive = None).
Proof.
  eexists. split; [vm_compute; reflexivity|].
  repeat split; try (vm_compute; reflexivity).
  vm_compute. discriminate.
Qed.

Lemma downloadDone_hash_mismatch_witness :
  ∃ d' pc',
    handle (rt := rt0) (EvDownloadDone (mkPD 0 1) (PdDone [] true)) downloading
      = Ok Next d' [SemSignal 1] ∧
    writeRequests [SemSignal 1] = [] ∧
    bitfield d' = bitfield downloading ∧
    downloads d' = delete 1%positive (downloads downloading) ∧
    pieces d' = <[0 := pc']> (pieces downloading) ∧
    pc' = set_requestedPeers (delete 1%positive (requestedPeers piece0)) piece0 ∧
    (eligible d' pc' = true ↔
       bitfield downloading !! 0 = Some false ∧ writing piece0 = false
       ∧ havingPeers piece0 ≠ ∅
       ∧ ∀ k, is_Some (requestedPeers piece0 !! k) → k = 1%positive).
Proof.
  apply (downloadDone_hash_mismatch (rt := rt0) downloading (mkPD 0 1) [] true piece0).
  - vm_compute. reflexivity.
  - reflexivity.
Defined.

(** C6, as stated, fails in [disconnected]: the peer that was downloading
    the piece has left, its bytes arrive and fail the hash check, and the
    piece is not eligible afterwards, because no peer has it. *)
Lemma downloadDone_hash_mismatch_counterexample :
  ∃ d' pc',
    handle (rt := rt0) (EvDownloadDone (mkPD 0 1) (PdDone [] true)) disconnected
      = Ok Next d' [SemSignal 1] ∧
    pieces d' !! 0 = Some pc' ∧
    eligible d' pc' = false ∧
    ¬ (eligible d' pc' = true).
Proof.
  eexists _, _. split; [vm_compute; reflexivity|].
  split; [vm_compute; reflexivity|].
  split; [vm_compute; reflexivity|].
  vm_compute. discriminate.
Qed.

Lemma writeResponse_success_witness :
  ∃ d' tr,
    handle (rt := rt0) (EvWriteResponse 0 None) downloading
      = Ok Next d' (CheckCompletion :: tr) ∧
    bitfield d' = <[0 := true]> (bitfield downloading) ∧
    pieces d' = <[0 := set_writing false piece0]> (pieces downloading) ∧
    connectedPeers d' = connectedPeers downloading ∧
    haves tr ≡ₚ (λ kv, (kv.1, 0)) <$> map_to_list (connectedPeers downloading) ∧
    ∀ k pe, connectedPeers downloading !! k = Some pe →
            ∃ a x, pe = Some a ∧ store d' !! a = Some x ∧ Peer_Peer x = k
                   ∧ (amInterested x = true ↔ wants d' k).
Proof.
  apply (writeResponse_success (rt := rt0) downloading 0 piece0).
  - exact downloading_wf.
  - vm_compute. reflexivity.
Defined.

Lemma writeResponse_error_witness :
  ∃ d',
    handle (rt := rt0) (EvWriteResponse 0 (Some "disk full")) downloading
      = Ok Next d' [ErrSend "disk full"] ∧
    pieces d' = <[0 := set_writing false piece0]> (pieces downloading) ∧
    bitfield d' = bitfield downloading ∧ store d' = store downloading ∧
    connectedPeers d' = connectedPeers downloading ∧
    downloads d' = downloads downloading.
Proof.
  apply (writeResponse_error (rt := rt0) downloading 0 "disk full" piece0).
  vm_compute. reflexivity.
Defined.

(** ** The announcer *)

(** C9 (amended). [New] builds the back-off with an initial interval of 5 s,
    randomisation factor 0.5, multiplier 2, a cap of 30 min and no limit on
    the elapsed time, and [announce] never changes that configuration.
    After an announce that reached the tracker: on error, [nextAnnounce] is
    the value of [NextBackOff] and nothing is pushed to the peer list; on
    success, the back-off is reset, [nextAnnounce] is the interval of the
    response, and the peers of the response are pushed to the peer list
    once, unless [stopC] wins the [select] against that send, in which case
    nothing is pushed. *)
Theorem announce_spec {S T A : Type}
        (Reset : Announcer.BackOffConfig → S → S)
        (NextBackOff : Announcer.BackOffConfig → S → Z * S) :
  (∀ s0 : S,
      Announcer.backoffConfig (Announcer.New s0)
      = Announcer.mkConfig 5000000000 (1 # 2) 2 1800000000000 0) ∧
  ∀ (a : Announcer.Announcer) (e : Announcer.Event) (t : T)
    (res : string + Announcer.AnnounceResponse A) (stopAtPush : bool),
    let out := Announcer.announce Reset NextBackOff e
                 (Announcer.Announced t res stopAtPush) a in
    Announcer.backoffConfig out.1 = Announcer.backoffConfig a ∧
    match res with
    | inl err =>
        Announcer.nextAnnounce out.1
        = (NextBackOff (Announcer.backoffConfig a) (Announcer.backoffState a)).1 ∧
        Announcer.backoffState out.1
        = (NextBackOff (Announcer.backoffConfig a) (Announcer.backoffState a)).2 ∧
        Announcer.pushed out.2 = []
    | inr r =>
        Announcer.backoffState out.1
        = Reset (Announcer.backoffConfig a) (Announcer.backoffState a) ∧
        Announcer.nextAnnounce out.1 = Announcer.Interval r ∧
        Announcer.pushed out.2
        = if stopAtPush then [] else [Announcer.Peers r]
    end.
Proof.
  split; [done|].
  intros a e t [err|r] stopAtPush; cbn.
  - by destruct (NextBackOff _ _).
  - by destruct stopAtPush.
Qed.

(** C9, as stated, fails when [stopC] is closed while [announce] offers the
    peers to the peer list: the tracker answered with two peers and nothing
    is pushed. *)
Lemma announce_counterexample :
  Announcer.nextAnnounce stoppedAnnounce.1 = 1800000000000%Z ∧
  Announcer.pushed stoppedAnnounce.2 = [] ∧
  ¬ (Announcer.PushPeers [1; 2] ∈ stoppedAnnounce.2).
Proof.
  cbn. repeat split. intros H.
  repeat (apply elem_of_cons in H as [?|H]; [discriminate|]).
  by apply elem_of_nil in H.
Qed.

(** * More of the loop *)

(** ** [chokePeer] and [unchokePeer] *)

Lemma set_amChoking_id b p : amChoking p = b → set_amChoking b p = p.
Proof. intros <-. by destruct p. Qed.

Lemma chokePeer_run d a x :
  store d !! a = Some x →
  chokePeer (Some a) d
  = Ok tt (set_store (<[a := set_amChoking true x]> (store d)) d)
       (if amChoking x then [] else [SendChoke (Peer_Peer x)]).
Proof.
  intros Hx. unfold chokePeer. rewrite (bind_run0 _ _ _ _ _ (load_ok _ _ _ Hx)).
  destruct (amChoking x) eqn:Hc; cbn [negb].
  - by rewrite set_amChoking_id, insert_id, set_store_id.
  - by rewrite (bind_run0 _ _ _ _ _ (update_ok _ _ _ _ Hx)).
Qed.

Lemma unchokePeer_run d a x :
  store d !! a = Some x →
  unchokePeer (Some a) d
  = Ok tt (set_store (<[a := set_amChoking false x]> (store d)) d)
       (if amChoking x then [SendUnchoke (Peer_Peer x)] else []).
Proof.
  intros Hx. unfold unchokePeer. rewrite (bind_run0 _ _ _ _ _ (load_ok _ _ _ Hx)).
  destruct (amChoking x) eqn:Hc.
  - by rewrite (bind_run0 _ _ _ _ _ (update_ok _ _ _ _ Hx)).
  - by rewrite set_amChoking_id, insert_id, set_store_id.
Qed.

(** X1. [chokePeer] and [unchokePeer] on a live peer never panic, change
    nothing but the peer's [amChoking], which they leave true, respectively
    false, and send [Choke], respectively [Unchoke], exactly when the flag
    flips; so a second call in a row sends nothing, and through a [nil]
    pointer both panic. *)
Theorem choke_unchoke_flip d a x :
  store d !! a = Some x →
  chokePeer (Some a) d
  = Ok tt (set_store (<[a := set_amChoking true x]> (store d)) d)
       (if amChoking x then [] else [SendChoke (Peer_Peer x)]) ∧
  unchokePeer (Some a) d
  = Ok tt (set_store (<[a := set_amChoking false x]> (store d)) d)
       (if amChoking x then [SendUnchoke (Peer_Peer x)] else []) ∧
  (∃ d', (chokePeer (Some a) ;; chokePeer (Some a)) d
         = Ok tt d' (if amChoking x then [] else [SendChoke (Peer_Peer x)])) ∧
  (∃ d', (unchokePeer (Some a) ;; unchokePeer (Some a)) d
         = Ok tt d' (if amChoking x then [SendUnchoke (Peer_Peer x)] else [])) ∧
  chokePeer None d = Panic "nil pointer dereference" ∧
  unchokePeer None d = Panic "nil pointer dereference".
Proof.
  intros Hx. split; [by apply chokePeer_run|]. split; [by apply unchokePeer_run|].
  split; [|split; [|done]].
  - eexists. rewrite (bind_run _ _ _ _ _ _ (chokePeer_run _ _ _ Hx)).
    erewrite chokePeer_run by (cbn; apply lookup_insert_eq).
    cbn. by rewrite app_nil_r.
  - eexists. rewrite (bind_run _ _ _ _ _ _ (unchokePeer_run _ _ _ Hx)).
    erewrite unchokePeer_run by (cbn; apply lookup_insert_eq).
    cbn. by rewrite app_nil_r.
Qed.

(** ** What an iteration may launch *)

Lemma launches_ret {A} ok (a : A) : launches ok (ret a).
Proof. intros d. constructor. Qed.

Lemma launches_bind {A B} ok (m : M A) (f : A → M B) :
  launches ok m → (∀ a, launches ok (f a)) → launches ok (bind m f).
Proof.
  intros Hm Hf d. unfold bind. specialize (Hm d).
  destruct (m d) as [a d1 t1|]; [|done]. specialize (Hf a d1).
  destruct (f a d1); [|done]. by apply Forall_app.
Qed.

Lemma launches_get ok : launches ok get.
Proof. intros d. constructor. Qed.

Lemma launches_modify ok f : launches ok (modify f).
Proof. intros d. constructor. Qed.

Lemma launches_emit (ok : Effect → Prop) e : ok e → launches ok (emit e).
Proof. intros H d. by repeat constructor. Qed.

Lemma launches_panic {A} ok w : launches ok (panic (A := A) w).
Proof. by intros d. Qed.

Lemma launches_load ok pe : launches ok (load pe).
Proof.
  intros d. unfold load. destruct pe as [a|]; [|done].
  destruct (store d !! a); [constructor|done].
Qed.

Lemma launches_update ok pe f : launches ok (update pe f).
Proof.
  unfold update. apply launches_bind; [apply launches_load|]. intros p.
  destruct pe; [apply launches_modify|apply launches_ret].
Qed.

Lemma launches_pieceAt ok i : launches ok (pieceAt i).
Proof. intros d. unfold pieceAt. destruct (pieces d !! i); [constructor|done]. Qed.

Lemma launches_updatePiece ok i f : launches ok (updatePiece i f).
Proof.
  unfold updatePiece. apply launches_bind; [apply launches_pieceAt|]. intros p.
  apply launches_modify.
Qed.

Lemma launches_bfTest ok i : launches ok (bfTest i).
Proof. intros d. unfold bfTest. destruct (bitfield d !! i); [constructor|done]. Qed.

Lemma launches_bfSet ok i : launches ok (bfSet i).
Proof. intros d. unfold bfSet. destruct (bitfield d !! i); [constructor|done]. Qed.

Lemma launches_forEach {A} ok (l : list A) (body : A → M unit) :
  (∀ x, launches ok (body x)) → launches ok (forEach l body).
Proof.
  intros H. induction l as [|x l IH]; cbn [forEach]; [apply launches_ret|].
  apply launches_bind; [apply H|]. intros _. apply IH.
Qed.

(** One step of a proof that [m] launches only [ok] effects. *)
Ltac launch :=
  lazymatch goal with
  | |- launches _ (bind _ _) => apply launches_bind; [|intros ?]
  | |- launches _ (ret _) => apply launches_ret
  | |- launches _ get => apply launches_get
  | |- launches _ (modify _) => apply launches_modify
  | |- launches _ (emit _) => apply launches_emit; try done
  | |- launches _ (panic _) => apply launches_panic
  | |- launches _ (load _) => apply launches_load
  | |- launches _ (update _ _) => apply launches_update
  | |- launches _ (pieceAt _) => apply launches_pieceAt
  | |- launches _ (updatePiece _ _) => apply launches_updatePiece
  | |- launches _ (bfTest _) => apply launches_bfTest
  | |- launches _ (bfSet _) => apply launches_bfSet
  | |- launches _ (forEach _ _) => apply launches_forEach; intros ?
  | |- launches _ (if ?b then _ else _) => destruct b
  | |- launches _ (match ?x with _ => _ end) => destruct x
  end.

Lemma launches_chokePeer (ok : Effect → Prop) pe :
  (∀ p, ok (SendChoke p)) → launches ok (chokePeer pe).
Proof. intros H. unfold chokePeer. repeat launch. Qed.

Lemma launches_unchokePeer (ok : Effect → Prop) pe :
  (∀ p, ok (SendUnchoke p)) → launches ok (unchokePeer pe).
Proof. intros H. unfold unchokePeer. repeat launch. Qed.

Lemma launches_interestedLoop ok pe i n : launches ok (interestedLoop pe i n).
Proof.
  revert i. induction n as [|n IH]; intros i; cbn [interestedLoop]; repeat launch.
  apply IH.
Qed.

Lemma launches_updateInterestedState (ok : Effect → Prop) pe :
  (∀ p, ok (SendInterested p)) → (∀ p, ok (SendNotInterested p)) →
  launches ok (updateInterestedState pe).
Proof.
  intros H1 H2. unfold updateInterestedState.
  launch; [launch|]. launch; [apply launches_interestedLoop|]. repeat launch.
Qed.

Lemma launches_addHaving ok i pe : launches ok (addHaving i pe).
Proof. unfold addHaving. repeat launch. Qed.

Lemma launches_collect ok keep l : launches ok (collect keep l).
Proof.
  induction l as [|[k pe] l IH]; cbn [collect]; [launch|].
  launch; [launch|]. launch; [apply IH|]. launch.
Qed.

Lemma launches_unchokeTop (ok : Effect → Prop) i peers s :
  (∀ p, ok (SendUnchoke p)) → launches ok (unchokeTop i peers s).
Proof.
  intros H. revert i s. induction peers as [|pe peers IH]; intros i s; cbn [unchokeTop].
  - launch.
  - launch; [launch|]. launch; [by apply launches_unchokePeer|apply IH].
Qed.

(** ** Invariants of the loop *)

Lemma preserves_and {A} (I J : Downloader → Prop) (m : M A) :
  preserves I m → preserves J m → preserves (λ d, I d ∧ J d) m.
Proof.
  intros HI HJ d [Hi Hj]. specialize (HI d Hi). specialize (HJ d Hj).
  by destruct (m d).
Qed.

Lemma preserves_bfSet I i :
  (∀ d, I d → i < length (bitfield d) →
        I (set_bitfield (<[i := true]> (bitfield d)) d)) →
  preserves I (bfSet i).
Proof. intros H. by apply hoare_bfSet. Qed.

(** One step of a proof that [m] keeps an invariant; the side conditions of
    the steps that write are left. *)
Ltac keep :=
  lazymatch goal with
  | |- preserves _ (bind _ _) => apply preserves_bind; [|intros ?]
  | |- preserves _ (ret _) => apply preserves_ret
  | |- preserves _ get => apply preserves_get
  | |- preserves _ (emit _) => apply preserves_emit
  | |- preserves _ (panic _) => apply preserves_panic
  | |- preserves _ (load _) => apply preserves_load
  | |- preserves _ (pieceAt _) => apply preserves_pieceAt
  | |- preserves _ (bfTest _) => apply preserves_bfTest
  | |- preserves _ (modify _) => apply preserves_modify; intros ? ?
  | |- preserves _ (update _ _) => apply preserves_update; intros ? ? ? ? ?
  | |- preserves _ (updatePiece _ _) => apply preserves_updatePiece; intros ? ? ? ?
  | |- preserves _ (bfSet _) => apply preserves_bfSet; intros ? ? ?
  | |- preserves _ (forEach _ _) => apply preserves_forEach; intros ?
  | |- preserves _ (if ?b then _ else _) => destruct b
  | |- preserves _ (match ?x with _ => _ end) => destruct x
  end.

(** An invariant that every write of the loop keeps is kept by every loop
    of the choking timers and of the interest update. *)
Section Kept.
Context (I : Downloader → Prop).
Context (Istore : ∀ d st, I d → I (set_store st d)).

Lemma kept_chokePeer pe : preserves I (chokePeer pe).
Proof. unfold chokePeer. repeat keep; by apply Istore. Qed.

Lemma kept_unchokePeer pe : preserves I (unchokePeer pe).
Proof. unfold unchokePeer. repeat keep; by apply Istore. Qed.

Lemma kept_updateInterestedState pe : preserves I (updateInterestedState pe).
Proof.
  unfold updateInterestedState. keep; [keep|].
  keep; [apply interestedLoop_preserves|]. repeat keep; by apply Istore.
Qed.

Lemma kept_unchokeTop i peers s : preserves I (unchokeTop i peers s).
Proof.
  revert i s. induction peers as [|pe peers IH]; intros i s; cbn [unchokeTop].
  - keep.
  - keep; [keep|]. keep; [apply kept_unchokePeer|apply IH].
Qed.

End Kept.

(** ** What an iteration may write *)

Lemma agree_refl w d : agree w d d.
Proof. by split. Qed.

Lemma agree_trans w d1 d2 d3 : agree w d1 d2 → agree w d2 d3 → agree w d1 d3.
Proof.
  intros [A1 A2 A3 A4 A5 A6 A7] [B1 B2 B3 B4 B5 B6 B7].
  split; intros H; [rewrite B1, A1|rewrite B2, A2|rewrite B3, A3|rewrite B4, A4
                   |rewrite B5, A5|rewrite B6, A6|rewrite B7, A7]; done.
Qed.

Lemma writes_ret {A} w (a : A) : writes w (ret a).
Proof. intros d. apply agree_refl. Qed.

Lemma writes_bind {A B} w (m : M A) (f : A → M B) :
  writes w m → (∀ a, writes w (f a)) → writes w (bind m f).
Proof.
  intros Hm Hf d. unfold bind. specialize (Hm d).
  destruct (m d) as [a d1 t1|]; [|done]. specialize (Hf a d1).
  destruct (f a d1); [|done]. by eapply agree_trans.
Qed.

Lemma writes_get w : writes w get.
Proof. intros d. apply agree_refl. Qed.

Lemma writes_emit w e : writes w (emit e).
Proof. intros d. apply agree_refl. Qed.

Lemma writes_panic {A} w s : writes w (panic (A := A) s).
Proof. by intros d. Qed.

Lemma writes_load w pe : writes w (load pe).
Proof.
  intros d. unfold load. destruct pe as [a|]; [|done].
  destruct (store d !! a); [apply agree_refl|done].
Qed.

Lemma writes_pieceAt w i : writes w (pieceAt i).
Proof. intros d. unfold pieceAt. destruct (pieces d !! i); [apply agree_refl|done]. Qed.

Lemma writes_bfTest w i : writes w (bfTest i).
Proof. intros d. unfold bfTest. destruct (bitfield d !! i); [apply agree_refl|done]. Qed.

Lemma writes_modify w f : (∀ d, agree w d (f d)) → writes w (modify f).
Proof. intros H d. apply H. Qed.

Lemma agree_set_store (w : Field → Prop) st d : w FStore → agree w d (set_store st d).
Proof. by split. Qed.
Lemma agree_set_pieces (w : Field → Prop) ps d : w FPieces → agree w d (set_pieces ps d).
Proof. by split. Qed.
Lemma agree_set_bitfield (w : Field → Prop) bf d :
  w FBitfield → agree w d (set_bitfield bf d).
Proof. by split. Qed.
Lemma agree_set_sortedPieces (w : Field → Prop) l d :
  w FSortedPieces → agree w d (set_sortedPieces l d).
Proof. by split. Qed.
Lemma agree_set_connectedPeers (w : Field → Prop) m d :
  w FConnectedPeers → agree w d (set_connectedPeers m d).
Proof. by split. Qed.
Lemma agree_set_downloads (w : Field → Prop) m d :
  w FDownloads → agree w d (set_downloads m d).
Proof. by split. Qed.
Lemma agree_set_optimisticUnchokedPeer (w : Field → Prop) o d :
  w FOptimisticUnchokedPeer → agree w d (set_optimisticUnchokedPeer o d).
Proof. by split. Qed.

Lemma writes_update (w : Field → Prop) pe f : w FStore → writes w (update pe f).
Proof.
  intros H. unfold update. apply writes_bind; [apply writes_load|]. intros p.
  destruct pe; [|apply writes_ret]. apply writes_modify. intros d.
  by apply agree_set_store.
Qed.

Lemma writes_updatePiece (w : Field → Prop) i f : w FPieces → writes w (updatePiece i f).
Proof.
  intros H. unfold updatePiece. apply writes_bind; [apply writes_pieceAt|]. intros p.
  apply writes_modify. intros d. by apply agree_set_pieces.
Qed.

Lemma writes_bfSet (w : Field → Prop) i : w FBitfield → writes w (bfSet i).
Proof.
  intros H d. unfold bfSet. destruct (bitfield d !! i); [|done].
  by apply agree_set_bitfield.
Qed.

Lemma writes_forEach {A} w (l : list A) (body : A → M unit) :
  (∀ x, writes w (body x)) → writes w (forEach l body).
Proof.
  intros H. induction l as [|x l IH]; cbn [forEach]; [apply writes_ret|].
  apply writes_bind; [apply H|]. intros _. apply IH.
Qed.

(** One step of a proof that [m] writes only what [w] allows. *)
Ltac wr :=
  lazymatch goal with
  | |- writes _ (bind _ _) => apply writes_bind; [|intros ?]
  | |- writes _ (ret _) => apply writes_ret
  | |- writes _ get => apply writes_get
  | |- writes _ (emit _) => apply writes_emit
  | |- writes _ (panic _) => apply writes_panic
  | |- writes _ (load _) => apply writes_load
  | |- writes _ (pieceAt _) => apply writes_pieceAt
  | |- writes _ (bfTest _) => apply writes_bfTest
  | |- writes _ (update _ _) => apply writes_update; try done
  | |- writes _ (updatePiece _ _) => apply writes_updatePiece; try done
  | |- writes _ (bfSet _) => apply writes_bfSet; try done
  | |- writes _ (forEach _ _) => apply writes_forEach; intros ?
  | |- writes _ (modify _) =>
      apply writes_modify; intros ?;
      first [ by apply agree_set_store | by apply agree_set_pieces
            | by apply agree_set_bitfield | by apply agree_set_sortedPieces
            | by apply agree_set_connectedPeers | by apply agree_set_downloads
            | by apply agree_set_optimisticUnchokedPeer ]
  | |- writes _ (if ?b then _ else _) => destruct b
  | |- writes _ (match ?x with _ => _ end) => destruct x
  end.

Lemma writes_chokePeer (w : Field → Prop) pe : w FStore → writes w (chokePeer pe).
Proof. intros H. unfold chokePeer. repeat wr. Qed.

Lemma writes_unchokePeer (w : Field → Prop) pe : w FStore → writes w (unchokePeer pe).
Proof. intros H. unfold unchokePeer. repeat wr. Qed.

Lemma writes_interestedLoop w pe i n : writes w (interestedLoop pe i n).
Proof.
  revert i. induction n as [|n IH]; intros i; cbn [interestedLoop]; repeat wr. apply IH.
Qed.

Lemma writes_updateInterestedState (w : Field → Prop) pe :
  w FStore → writes w (updateInterestedState pe).
Proof.
  intros H. unfold updateInterestedState. wr; [wr|].
  wr; [apply writes_interestedLoop|]. repeat wr.
Qed.

Lemma writes_addHaving (w : Field → Prop) i pe : w FPieces → writes w (addHaving i pe).
Proof. intros H. unfold addHaving. repeat wr. Qed.

Lemma writes_collect w keep l : writes w (collect keep l).
Proof.
  induction l as [|[k pe] l IH]; cbn [collect]; [wr|].
  wr; [wr|]. wr; [apply IH|]. wr.
Qed.

Lemma writes_unchokeTop (w : Field → Prop) i peers s :
  w FStore → writes w (unchokeTop i peers s).
Proof.
  intros H. revert i s. induction peers as [|pe peers IH]; intros i s; cbn [unchokeTop].
  - wr.
  - wr; [wr|]. wr; [by apply writes_unchokePeer|apply IH].
Qed.

(** ** Triples that exclude a panic *)

Lemma succeeds_weaken {A} (P P' : Downloader → Prop) (m : M A) (Q Q' : A → Downloader → Prop) :
  succeeds P' m Q' → (∀ d, P d → P' d) → (∀ a d, Q' a d → Q a d) → succeeds P m Q.
Proof.
  intros H HP HQ d Hd. destruct (H d (HP d Hd)) as (a & d' & tr & Hrun & Hq).
  exists a, d', tr. split; [done|]. by apply HQ.
Qed.

Lemma succeeds_ret {A} (P : Downloader → Prop) (a : A) (Q : A → Downloader → Prop) :
  (∀ d, P d → Q a d) → succeeds P (ret a) Q.
Proof. intros H d Hd. exists a, d, []. split; [done|]. by apply H. Qed.

Lemma succeeds_bind {A B} (P : Downloader → Prop) (m : M A) (f : A → M B)
      (R : A → Downloader → Prop) (Q : B → Downloader → Prop) :
  succeeds P m R → (∀ a, succeeds (R a) (f a) Q) → succeeds P (bind m f) Q.
Proof.
  intros Hm Hf d Hd. destruct (Hm d Hd) as (a & d1 & t1 & Hrun & Hr).
  destruct (Hf a d1 Hr) as (b & d2 & t2 & Hrun2 & Hq).
  exists b, d2, (t1 ++ t2). split; [|done].
  by rewrite (bind_run _ _ _ _ _ _ Hrun), Hrun2.
Qed.

Lemma succeeds_bind_get {B} (P : Downloader → Prop) (f : Downloader → M B) Q :
  (∀ d0, succeeds (λ d, d = d0 ∧ P d) (f d0) Q) → succeeds P (bind get f) Q.
Proof.
  intros H d Hd. rewrite bind_get. by apply (H d).
Qed.

Lemma succeeds_modify (P : Downloader → Prop) f (Q : unit → Downloader → Prop) :
  (∀ d, P d → Q tt (f d)) → succeeds P (modify f) Q.
Proof. intros H d Hd. exists tt, (f d), []. split; [done|]. by apply H. Qed.

Lemma succeeds_emit (P : Downloader → Prop) e : succeeds P (emit e) (λ _, P).
Proof. intros d Hd. by exists tt, d, [e]. Qed.

Lemma succeeds_hoare {A} (P : Downloader → Prop) (m : M A) (Q Q' : A → Downloader → Prop) :
  succeeds P m Q → hoare P m Q' → succeeds P m (λ a d, Q a d ∧ Q' a d).
Proof.
  intros Ht Hh d Hd. destruct (Ht d Hd) as (a & d' & tr & Hrun & Hq).
  exists a, d', tr. split; [done|]. split; [done|].
  specialize (Hh d Hd). by rewrite Hrun in Hh.
Qed.

Lemma succeeds_forEach {A} (I : Downloader → Prop) (l : list A) (body : A → M unit) :
  (∀ x, x ∈ l → succeeds I (body x) (λ _, I)) →
  succeeds I (forEach l body) (λ _, I).
Proof.
  induction l as [|x l IH]; intros Hb; cbn [forEach].
  - by apply succeeds_ret.
  - apply succeeds_bind with (R := λ _, I); [apply Hb; left|]. intros _. apply IH.
    intros y Hy. apply Hb. by right.
Qed.

Lemma succeeds_pure {A} (φ : Prop) (P : Downloader → Prop) (m : M A) Q :
  (φ → succeeds P m Q) → succeeds (λ d, P d ∧ φ) m Q.
Proof. intros H d [Hd Hφ]. by apply H. Qed.

Lemma hoare_forall {A X} (P : Downloader → Prop) (m : M A) (Q : X → A → Downloader → Prop) :
  (∀ x, hoare P m (Q x)) → hoare P m (λ a d, ∀ x, Q x a d).
Proof.
  intros H d Hd. destruct (m d) as [a d' tr|] eqn:E; [|done].
  intros x. specialize (H x d Hd). by rewrite E in H.
Qed.

Lemma hoare_forall_impl {A X} (φ : X → Prop) (P : X → Downloader → Prop) (m : M A)
      (Q : X → A → Downloader → Prop) :
  (∀ x, φ x → hoare (P x) m (Q x)) →
  hoare (λ d, ∀ x, φ x → P x d) m (λ a d, ∀ x, φ x → Q x a d).
Proof.
  intros H d Hd. destruct (m d) as [a d' tr|] eqn:E; [|done].
  intros x Hx. specialize (H x Hx d (Hd x Hx)). by rewrite E in H.
Qed.

Lemma hoare_and {A} (P : Downloader → Prop) (m : M A) (Q Q' : A → Downloader → Prop) :
  hoare P m Q → hoare P m Q' → hoare P m (λ a d, Q a d ∧ Q' a d).
Proof.
  intros H H' d Hd. specialize (H d Hd). specialize (H' d Hd). by destruct (m d).
Qed.

(** ** The choking timer *)

Lemma connected_live C d k pe :
  connected C d → C !! k = Some pe →
  ∃ a x, pe = Some a ∧ store d !! a = Some x ∧ Peer_Peer x = k.
Proof.
  intros [Hwf <-] Hk. apply pointsTo_inv. by apply wf_connected.
Qed.

Lemma succeeds_update_connected C k pe f :
  C !! k = Some pe → (∀ x, Peer_Peer (f x) = Peer_Peer x) →
  succeeds (connected C) (update pe f) (λ _, connected C).
Proof.
  intros Hk Hf d Hd. destruct (connected_live _ _ _ _ Hd Hk) as (a & x & -> & Hx & _).
  rewrite (update_ok _ _ _ _ Hx). eexists _, _, _. split; [done|].
  destruct Hd as [Hwf Hc]. split; [|done]. by eapply wf_store_update.
Qed.

Lemma succeeds_chokePeer C k pe :
  C !! k = Some pe → succeeds (connected C) (chokePeer pe) (λ _, connected C).
Proof.
  intros Hk d Hd. destruct (connected_live _ _ _ _ Hd Hk) as (a & x & -> & Hx & _).
  rewrite (chokePeer_run _ _ _ Hx). eexists _, _, _. split; [done|].
  destruct Hd as [Hwf Hc]. split; [|done]. by eapply wf_store_update.
Qed.

Lemma succeeds_unchokePeer C k pe :
  C !! k = Some pe → succeeds (connected C) (unchokePeer pe) (λ _, connected C).
Proof.
  intros Hk d Hd. destruct (connected_live _ _ _ _ Hd Hk) as (a & x & -> & Hx & _).
  rewrite (unchokePeer_run _ _ _ Hx). eexists _, _, _. split; [done|].
  destruct Hd as [Hwf Hc]. split; [|done]. by eapply wf_store_update.
Qed.

Lemma succeeds_collect C keep l :
  (∀ k pe, (k, pe) ∈ l → C !! k = Some pe) →
  succeeds (connected C) (collect keep l)
        (λ peers d, connected C d ∧ ∀ pe, pe ∈ peers → ∃ k, C !! k = Some pe).
Proof.
  induction l as [|[k pe] l IH]; intros Hl; cbn [collect].
  - apply succeeds_ret. intros d Hd. split; [done|]. intros pe H. by apply elem_of_nil in H.
  - intros d Hd.
    destruct (connected_live _ _ k pe Hd) as (a & x & -> & Hx & _); [apply Hl; left|].
    rewrite (bind_run0 _ _ _ _ _ (load_ok _ _ _ Hx)).
    assert (Hl' : ∀ k' pe', (k', pe') ∈ l → C !! k' = Some pe')
      by (intros k' pe' H; apply Hl; by right).
    destruct (IH Hl' d Hd) as (rest & d' & tr & Hrun & Hd' & Hrest).
    rewrite (bind_run _ _ _ _ _ _ Hrun). cbn. eexists _, _, _. split; [done|].
    split; [done|]. destruct (keep x); [|done].
    intros pe [->|Hin]%elem_of_cons; [|by apply Hrest].
    exists k. apply Hl. left.
Qed.

Lemma succeeds_unchokeTop C i peers s :
  (∀ pe, pe ∈ peers → ∃ k, C !! k = Some pe) →
  succeeds (connected C) (unchokeTop i peers s) (λ _, connected C).
Proof.
  revert i s. induction peers as [|pe peers IH]; intros i s Hp; cbn [unchokeTop].
  - by apply succeeds_ret.
  - destruct (i =? 3); [by apply succeeds_ret|].
    destruct (Hp pe) as [k Hk]; [left|].
    apply succeeds_bind with (R := λ _, connected C);
      [by apply (succeeds_unchokePeer C k)|]. intros _.
    apply IH. intros pe' Hin. apply Hp. by right.
Qed.

(** What a write through one pointer does to the object behind another. *)

Lemma update_holds (φ : Peer → Prop) pe pe' f :
  (∀ x, φ x → φ (f x)) → preserves (holds φ pe) (update pe' f).
Proof.
  intros Hf. apply preserves_update. intros d a' x' (a & x & -> & Hx & Hz) Hx'.
  unfold holds. cbn. destruct (decide (a = a')) as [<-|Hne].
  - exists a, (f x'). rewrite lookup_insert_eq. split; [done|]. split; [done|].
    apply Hf. congruence.
  - exists a, x. by rewrite lookup_insert_ne.
Qed.

Lemma update_other (φ : Peer → Prop) pe pe' f :
  pe ≠ pe' → preserves (holds φ pe) (update pe' f).
Proof.
  intros Hne. unfold preserves. apply hoare_update.
  intros d a' x' (a & x & -> & Hx & Hz) -> Hx'.
  exists a, x. cbn. rewrite lookup_insert_ne by congruence. done.
Qed.

Lemma update_sets (φ : Peer → Prop) pe f :
  (∀ x, φ (f x)) → hoare (λ _, True) (update pe f) (λ _, holds φ pe).
Proof.
  intros Hf. apply hoare_update. intros d a x _ -> Hx.
  exists a, (f x). cbn. by rewrite lookup_insert_eq.
Qed.

Lemma chokePeer_holds (φ : Peer → Prop) pe pe' :
  (∀ x, φ x → φ (set_amChoking true x)) → preserves (holds φ pe) (chokePeer pe').
Proof.
  intros Hf. unfold chokePeer. keep; [keep|]. keep; [|keep].
  keep; [by apply update_holds|keep].
Qed.

Lemma unchokePeer_holds (φ : Peer → Prop) pe pe' :
  (∀ x, φ x → φ (set_amChoking false x)) → preserves (holds φ pe) (unchokePeer pe').
Proof.
  intros Hf. unfold unchokePeer. keep; [keep|]. keep; [|keep].
  keep; [by apply update_holds|keep].
Qed.

Lemma chokePeer_other (φ : Peer → Prop) pe pe' :
  pe ≠ pe' → preserves (holds φ pe) (chokePeer pe').
Proof.
  intros Hf. unfold chokePeer. keep; [keep|]. keep; [|keep].
  keep; [by apply update_other|keep].
Qed.

Lemma chokePeer_sets pe :
  hoare (λ _, True) (chokePeer pe) (λ _, holds (λ x, amChoking x = true) pe).
Proof.
  unfold chokePeer. eapply hoare_bind; [apply (hoare_load (λ _, True))|]. intros p.
  destruct (amChoking p) eqn:Hc; cbn [negb].
  - apply hoare_ret. intros d (_ & a & -> & Hp). by exists a, p.
  - apply hoare_bind with (R := λ _, holds (λ x, amChoking x = true) pe);
      [|intros _; apply preserves_emit].
    eapply hoare_weaken; [by apply (update_sets (λ x, amChoking x = true))|done|done].
Qed.

Lemma unchokePeer_sets pe :
  hoare (λ _, True) (unchokePeer pe) (λ _, holds (λ x, amChoking x = false) pe).
Proof.
  unfold unchokePeer. eapply hoare_bind; [apply (hoare_load (λ _, True))|]. intros p.
  destruct (amChoking p) eqn:Hc.
  - apply hoare_bind with (R := λ _, holds (λ x, amChoking x = false) pe);
      [|intros _; apply preserves_emit].
    eapply hoare_weaken; [by apply (update_sets (λ x, amChoking x = false))|done|done].
  - apply hoare_ret. intros d (_ & a & -> & Hp). by exists a, p.
Qed.

(** A loop establishes what one of its rounds establishes and the others
    keep. *)
Lemma forEach_establishes {A} (l : list A) (body : A → M unit) x (Q : Downloader → Prop) :
  x ∈ l → hoare (λ _, True) (body x) (λ _, Q) → (∀ y, preserves Q (body y)) →
  hoare (λ _, True) (forEach l body) (λ _, Q).
Proof.
  intros (l1 & l2 & ->)%list_elem_of_split Hx Hy.
  eapply hoare_ext; [intros d; symmetry; apply forEach_app|].
  apply hoare_bind with (R := λ _ _, True); [apply hoare_True|]. intros _.
  cbn [forEach]. apply hoare_bind with (R := λ _, Q); [exact Hx|]. intros _.
  by apply preserves_forEach.
Qed.

Lemma unchokeTop_holds (φ : Peer → Prop) pe i peers s :
  (∀ x, φ x → φ (set_amChoking false x)) →
  preserves (holds φ pe) (unchokeTop i peers s).
Proof.
  intros Hf. revert i s. induction peers as [|pe' peers IH]; intros i s; cbn [unchokeTop].
  - keep.
  - keep; [keep|]. keep; [by apply unchokePeer_holds|apply IH].
Qed.

Lemma unchokeTop_size (i : nat) (peers : list (option positive)) (s : gset (option positive)) :
  i ≤ 3 →
  hoare (λ _, True) (unchokeTop i peers s) (λ s' _, size s' ≤ size s + (3 - i)).
Proof.
  revert i s. induction peers as [|pe peers IH]; intros i s Hi; cbn [unchokeTop].
  - apply hoare_ret. intros. lia.
  - destruct (i =? 3) eqn:E; [apply hoare_ret; intros; lia|].
    apply Nat.eqb_neq in E.
    apply hoare_bind with (R := λ _ _, True); [apply hoare_True|]. intros _.
    eapply hoare_weaken; [apply (IH (S i)); lia|done|].
    intros s' d' H. cbn beta in H.
    assert (size ({[pe]} ∪ s) ≤ 1 + size s).
    { rewrite size_union_alt, size_singleton.
      assert (size (s ∖ {[pe]}) ≤ size s)
        by (by apply subseteq_size, subseteq_difference_l).
      lia. }
    lia.
Qed.

Lemma unchokeTop_unchoked (pe0 : option positive) (i : nat) (peers : list (option positive))
      (s : gset (option positive)) :
  hoare (λ d, pe0 ∈ s → holds (λ x, amChoking x = false) pe0 d)
        (unchokeTop i peers s)
        (λ s' d, pe0 ∈ s' → holds (λ x, amChoking x = false) pe0 d).
Proof.
  revert i s. induction peers as [|pe peers IH]; intros i s; cbn [unchokeTop].
  - by apply hoare_ret.
  - destruct (i =? 3); [by apply hoare_ret|].
    apply hoare_bind
      with (R := λ _ d, pe0 ∈ {[pe]} ∪ s → holds (λ x, amChoking x = false) pe0 d);
      [|intros _; apply IH].
    destruct (decide (pe0 = pe)) as [->|Hne].
    + eapply hoare_weaken; [apply unchokePeer_sets|done|]. intros ? d H ?. exact H.
    + destruct (decide (pe0 ∈ s)) as [Hin|Hnin].
      * eapply hoare_weaken;
          [by apply (unchokePeer_holds (λ x, amChoking x = false) pe0 pe)| |].
        -- intros d H. by apply H.
        -- intros ? d H ?. exact H.
      * apply hoare_weaken with (P' := λ _, True) (Q' := λ _ _, True);
          [apply hoare_True|done|].
        intros ? d ? [?%elem_of_singleton|?]%elem_of_union; done.
Qed.

(** ** The optimistic timer *)

Lemma collect_run keep l d :
  (∀ k pe, (k, pe) ∈ l → ∃ a, pe = Some a ∧ is_Some (store d !! a)) →
  ∃ peers, collect keep l d = Ok peers d [] ∧
    ∀ pe, pe ∈ peers ↔ ∃ k a x, (k, pe) ∈ l ∧ pe = Some a ∧ store d !! a = Some x
                               ∧ keep x = true.
Proof.
  induction l as [|[k pe] l IH]; intros Hl; cbn [collect].
  - exists []. split; [done|]. intros pe. split.
    + by intros ?%elem_of_nil.
    + by intros (? & ? & ? & ?%elem_of_nil & _).
  - destruct (Hl k pe) as (a & -> & x & Hx); [left|].
    destruct IH as (rest & Hrun & Hrest); [intros k' pe' H; apply (Hl k' pe'); by right|].
    rewrite (bind_run0 _ _ _ _ _ (load_ok _ _ _ Hx)).
    rewrite (bind_run0 _ _ _ _ _ Hrun). eexists. split; [done|].
    intros pe. destruct (keep x) eqn:Hkeep.
    + rewrite elem_of_cons, Hrest. split.
      * intros [->|(k' & a' & x' & Hin & H)].
        -- exists k, a, x. split; [left|done].
        -- exists k', a', x'. split; [by right|done].
      * intros (k' & a' & x' & Hin & H).
        apply elem_of_cons in Hin as [Heq|Hin]; [left; congruence|].
        right. by exists k', a', x'.
    + rewrite Hrest. split.
      * intros (k' & a' & x' & Hin & H). exists k', a', x'. split; [by right|done].
      * intros (k' & a' & x' & Hin & Hpe & Hx' & Hk').
        apply elem_of_cons in Hin as [Heq|Hin].
        -- simplify_eq. congruence.
        -- by exists k', a', x'.
Qed.

Lemma dropOld_run d :
  (∀ o, optimisticUnchokedPeer d = Some o → is_Some (store d !! o)) →
  ∃ d1 t1,
    (match optimisticUnchokedPeer d with
     | Some _ =>
         update (optimisticUnchokedPeer d) (set_optimisticUnhoked false) ;;
         chokePeer (optimisticUnchokedPeer d)
     | None => ret tt
     end) d = Ok tt d1 t1
    ∧ d1 = set_store (store d1) d
    ∧ (∀ a, optimisticUnchokedPeer d ≠ Some a → store d1 !! a = store d !! a)
    ∧ (∀ o z, optimisticUnchokedPeer d = Some o → store d !! o = Some z →
              store d1 !! o = Some (set_amChoking true (set_optimisticUnhoked false z))).
Proof.
  intros Hlive. destruct (optimisticUnchokedPeer d) as [o|] eqn:Ho.
  - destruct (Hlive o eq_refl) as [z Hz].
    rewrite (bind_run0 _ _ _ _ _ (update_ok _ _ _ _ Hz)).
    set (d0 := set_store _ d).
    assert (Hz0 : store d0 !! o = Some (set_optimisticUnhoked false z))
      by (cbn; apply lookup_insert_eq).
    rewrite (chokePeer_run _ _ _ Hz0).
    eexists _, _. split; [done|]. cbn. split; [done|]. split.
    + intros a Ha. rewrite !lookup_insert_ne by congruence. done.
    + intros o' z' [= <-] Hz'. rewrite Hz in Hz'. simplify_eq.
      by rewrite lookup_insert_eq.
  - exists d, []. split; [done|]. split; [by destruct d|]. split; [done|]. done.
Qed.

Lemma pick_run d b x :
  store d !! b = Some x → amChoking x = true →
  (update (Some b) (set_optimisticUnhoked true) ;;
   unchokePeer (Some b) ;;
   modify (set_optimisticUnchokedPeer (Some b))) d
  = Ok tt (set_optimisticUnchokedPeer (Some b)
             (set_store (<[b := set_amChoking false (set_optimisticUnhoked true x)]>
                           (store d)) d))
       [SendUnchoke (Peer_Peer x)].
Proof.
  intros Hx Hc. rewrite (bind_run0 _ _ _ _ _ (update_ok _ _ _ _ Hx)).
  set (d1 := set_store _ d).
  assert (Hx1 : store d1 !! b = Some (set_optimisticUnhoked true x))
    by (cbn; apply lookup_insert_eq).
  rewrite (bind_run _ _ _ _ _ _ (unchokePeer_run _ _ _ Hx1)).
  cbn. rewrite Hc. cbn. by rewrite insert_insert_eq.
Qed.

Section More.

Context `{rt : Runtime}.

Lemma launches_firstAllowedFast ok p l : launches ok (firstAllowedFast p l).
Proof.
  induction l as [|[k pe] l IH]; cbn [firstAllowedFast]; [launch|].
  launch; [launch|]. launch; [launch|]. launch; [apply IH|]. launch; [apply IH|launch].
Qed.

Lemma launches_firstUnchoked ok p l : launches ok (firstUnchoked p l).
Proof.
  induction l as [|[k pe] l IH]; cbn [firstUnchoked]; [launch|].
  launch; [launch|]. launch; [launch|]. launch; [apply IH|]. launch; [apply IH|launch].
Qed.

Lemma launches_scanPieces ok k l : launches ok (scanPieces k l).
Proof.
  revert k. induction l as [|i l IH]; intros k; cbn [scanPieces]; [launch|].
  launch; [launch|]. launch; [launch|].
  launch; [apply IH|]. launch; [apply IH|]. launch; [apply IH|]. launch; [apply IH|].
  launch; [apply launches_firstAllowedFast|]. launch; [launch|].
  launch; [apply launches_firstUnchoked|]. launch; [launch|apply IH].
Qed.

Lemma launches_nextDownload ok : launches ok nextDownload.
Proof.
  unfold nextDownload. launch; [launch|]. launch; [launch|]. apply launches_scanPieces.
Qed.

Lemma launches_tickUnchoke (ok : Effect → Prop) :
  (∀ p, ok (SendChoke p)) → (∀ p, ok (SendUnchoke p)) → launches ok tickUnchoke.
Proof.
  intros H1 H2. unfold tickUnchoke. launch; [launch|].
  launch; [apply launches_collect|]. launch; [launch|]. cbv zeta.
  launch; [launch; launch|]. launch; [by apply launches_unchokeTop|].
  launch. launch; [launch|by apply launches_chokePeer].
Qed.

Lemma launches_tickOptimisticUnchoke (ok : Effect → Prop) :
  (∀ p, ok (SendChoke p)) → (∀ p, ok (SendUnchoke p)) →
  launches ok tickOptimisticUnchoke.
Proof.
  intros H1 H2. unfold tickOptimisticUnchoke. launch; [launch|].
  launch; [apply launches_collect|]. launch.
  { launch; [|launch]. launch; [launch|by apply launches_chokePeer]. }
  launch; [launch|]. launch; [|launch]. launch; [launch|].
  launch; [by apply launches_unchokePeer|launch].
Qed.

(** Each case of the [select] launches only effects of its own kinds. *)
Lemma handle_launches e : launches (mayLaunch e) (handle e).
Proof.
  destruct e; cbn [handle].
  - unfold onWait. launch; [apply launches_nextDownload|]. repeat launch.
  - unfold onDownloadDone. repeat launch.
  - unfold onWriteResponse. launch; [launch|]. launch; [repeat launch|].
    launch; [launch|]. launch; [launch|]. launch; [launch|]. launch; [|launch].
    launch. launch; [launch|]. launch; [launch|].
    by apply launches_updateInterestedState.
  - unfold onHave. launch; [launch|]. launch; [apply launches_addHaving|].
    launch; [launch|]. launch; [by apply launches_updateInterestedState|launch].
  - unfold onBitfield. launch.
    { launch. launch; [apply launches_addHaving|launch]. }
    launch; [launch|]. launch; [launch|].
    launch; [by apply launches_updateInterestedState|launch].
  - unfold onHaveAll. launch; [launch|]. launch; [launch; apply launches_addHaving|].
    launch; [launch|]. launch; [by apply launches_updateInterestedState|launch].
  - unfold onAllowedFast. repeat launch.
  - unfold onUnchoke. repeat launch.
  - unfold onChoke. repeat launch.
  - unfold onPiece. repeat launch.
  - unfold onRequest. repeat launch.
  - launch; [by apply launches_tickUnchoke|launch].
  - launch; [by apply launches_tickOptimisticUnchoke|launch].
  - unfold onConnect. launch; [launch|]. cbv zeta. launch; [launch|].
    launch; [launch|]. launch; [launch|]. launch; [|launch].
    launch; [by apply launches_unchokePeer|launch].
  - unfold onDisconnect. repeat launch.
  - launch.
Qed.

(** X2. When an iteration does not panic, every effect it launched is of a
    kind of its case of the [select]: for instance [Have] is only sent by
    the [WriteResponse] case, [Choke] only by the two timers, [Unchoke]
    only by the timers and [Connect], and [AllowedFast], [Disconnect] and
    stop launch nothing. *)
Theorem handle_effect_kinds e d f d' tr :
  handle e d = Ok f d' tr → Forall (mayLaunch e) tr.
Proof. intros H. assert (Hl := handle_launches e d). by rewrite H in Hl. Qed.

(** The run of [DownloadDone]. *)
Lemma onDownloadDone_run pd o d f d' tr :
  onDownloadDone pd o d = Ok f d' tr →
  ∃ pc, pieces d !! pdPiece pd = Some pc ∧
    tr = SemSignal 1 ::
         match o with
         | PdDone buf true =>
             if Verify (Index pc) buf then [WriteRequest (pdPiece pd) buf] else []
         | PdDone _ false => []
         | PdErr _ => [LogLine "could not download piece:"]
         | PdStop => []
         end.
Proof.
  unfold onDownloadDone. rewrite bind_modify.
  set (d1 := set_downloads _ d).
  destruct (pieces d !! pdPiece pd) as [pc|] eqn:Hpc.
  2:{ unfold updatePiece. rewrite bind_assoc.
      assert (pieceAt (pdPiece pd) d1 = Panic "index out of range") as Hp
        by (unfold pieceAt; cbn; by rewrite Hpc).
      by rewrite (bind_panic _ _ _ _ Hp). }
  assert (Hpc1 : pieces d1 !! pdPiece pd = Some pc) by done.
  rewrite (bind_run0 _ _ _ _ _ (updatePiece_ok _ _ _ _ Hpc1)).
  set (pc' := set_requestedPeers _ pc). set (d2 := set_pieces _ d1).
  assert (Hpc2 : pieces d2 !! pdPiece pd = Some pc').
  { cbn. apply list_lookup_insert_eq. by apply lookup_lt_Some in Hpc. }
  rewrite bind_emit. intros Hrun. exists pc. split; [done|].
  destruct o as [buf [|]|err|].
  - rewrite (bind_run0 _ _ _ _ _ (pieceAt_ok _ _ _ Hpc2)) in Hrun.
    cbn [Index pc' set_requestedPeers] in Hrun.
    destruct (Verify (Index pc) buf); cbn [negb] in Hrun.
    + rewrite bind_emit in Hrun.
      assert (Hpc3 : pieces d2 !! pdPiece pd = Some pc') by done.
      rewrite (bind_run0 _ _ _ _ _ (updatePiece_ok _ _ _ _ Hpc3)) in Hrun.
      cbn in Hrun. by simplify_eq.
    + cbn in Hrun. by simplify_eq.
  - rewrite (bind_run0 _ _ _ _ _ (pieceAt_ok _ _ _ Hpc2)) in Hrun.
    destruct (negb _); cbn in Hrun; by simplify_eq.
  - rewrite bind_emit in Hrun. cbn in Hrun. by simplify_eq.
  - cbn in Hrun. by simplify_eq.
Qed.

(** X3. The loop only hands bytes to the writers that passed the hash
    check: a write request is launched by no case but [DownloadDone], and
    there only for the piece of the finished downloader, with the bytes it
    delivered, after [Verify] accepted them. *)
Theorem write_requests_are_verified e d f d' tr i buf :
  handle e d = Ok f d' tr →
  WriteRequest i buf ∈ tr →
  ∃ pd pc, e = EvDownloadDone pd (PdDone buf true) ∧ i = pdPiece pd
           ∧ pieces d !! i = Some pc ∧ Verify (Index pc) buf = true.
Proof.
  intros Hrun Hin.
  assert (Hk := handle_launches e d). rewrite Hrun in Hk.
  rewrite Forall_forall in Hk. specialize (Hk _ Hin).
  destruct e; try done. cbn [handle] in Hrun.
  destruct (onDownloadDone_run _ _ _ _ _ _ Hrun) as (pc & Hpc & ->).
  apply elem_of_cons in Hin as [?|Hin]; [done|].
  destruct o as [buf' [|]|err|].
  - destruct (Verify (Index pc) buf') eqn:Hv.
    + apply list_elem_of_singleton in Hin. simplify_eq. eauto 10.
    + by apply elem_of_nil in Hin.
  - by apply elem_of_nil in Hin.
  - apply list_elem_of_singleton in Hin. done.
  - by apply elem_of_nil in Hin.
Qed.

(** The run of [Request]. *)
Lemma onRequest_run msg d f d' tr :
  onRequest msg d = Ok f d' tr →
  f = Next ∧ d' = d ∧
  match connectedPeers d !! reqPeer msg with
  | None => tr = []
  | Some pe =>
      ∃ a x, pe = Some a ∧ store d !! a = Some x ∧
        tr = if amChoking x
             then if reqFastExtension msg
                  then [SendReject (reqPeer msg) (reqIndex msg) (reqBegin msg)
                                   (reqLength msg)]
                  else []
             else [GoSendPiece msg]
  end.
Proof.
  unfold onRequest. rewrite bind_get.
  destruct (connectedPeers d !! reqPeer msg) as [pe|] eqn:Hc.
  2:{ cbn. intros [= <- <- <-]. done. }
  destruct pe as [a|]; [|done].
  destruct (store d !! a) as [x|] eqn:Hx.
  2:{ unfold bind, load. by rewrite Hx. }
  rewrite bind_assoc, (bind_run0 _ _ _ _ _ (load_ok _ _ _ Hx)).
  destruct (amChoking x) eqn:Hch, (reqFastExtension msg) eqn:Hfe; cbn;
    intros [= <- <- <-]; (split; [done|]); (split; [done|]); exists a, x;
    by rewrite Hch.
Qed.

(** X4. The loop serves a block only in answer to a [Request], and only to
    a connected peer that it is not choking; a [Request] never changes the
    state, gets at most one answer, and from a peer that is not connected
    it gets none. *)
Theorem blocks_go_to_unchoked_peers e d f d' tr :
  handle e d = Ok f d' tr →
  (∀ r, GoSendPiece r ∈ tr →
        e = EvRequest r ∧
        ∃ a x, connectedPeers d !! reqPeer r = Some (Some a)
               ∧ store d !! a = Some x ∧ amChoking x = false) ∧
  (∀ msg, e = EvRequest msg →
          d' = d ∧ length tr ≤ 1 ∧
          (connectedPeers d !! reqPeer msg = None → tr = [])).
Proof.
  intros Hrun. split.
  - intros r Hin.
    assert (Hk := handle_launches e d). rewrite Hrun in Hk.
    rewrite Forall_forall in Hk. specialize (Hk _ Hin).
    destruct e; try done. cbn [handle] in Hrun.
    destruct (onRequest_run _ _ _ _ _ Hrun) as (_ & _ & Htr).
    destruct (connectedPeers d !! reqPeer msg) as [pe|] eqn:Hc.
    2:{ subst. by apply elem_of_nil in Hin. }
    destruct Htr as (a & x & -> & Hx & ->).
    destruct (amChoking x) eqn:Hch.
    + destruct (reqFastExtension msg).
      * apply list_elem_of_singleton in Hin. done.
      * by apply elem_of_nil in Hin.
    + apply list_elem_of_singleton in Hin. simplify_eq. split; [done|].
      exists a, x. by rewrite Hc.
  - intros msg ->. cbn [handle] in Hrun.
    destruct (onRequest_run _ _ _ _ _ Hrun) as (_ & -> & Htr).
    split; [done|].
    destruct (connectedPeers d !! reqPeer msg) as [pe|] eqn:Hc.
    + destruct Htr as (a & x & -> & Hx & ->). split; [|done].
      destruct (amChoking x), (reqFastExtension msg); cbn; lia.
    + subst. split; [cbn; lia|done].
Qed.

(** ** [Connect] *)

(** X5. [Connect(p)] never panics.  It allocates a new [Peer] for [p]
    (interested in nothing, choking and choked) at an address that was not
    in use, so no existing object changes, makes it the entry of [p] in
    [connectedPeers], replacing an older entry, and unchokes it at once,
    with one [Unchoke] message, exactly when at most 4 peers are connected
    afterwards. *)
Theorem connect_spec d p :
  ∃ a d',
    store d !! a = None ∧
    handle (EvConnect p) d
    = Ok Next d'
         (if size (<[p := Some a]> (connectedPeers d)) <=? 4
          then [SendUnchoke p] else []) ∧
    connectedPeers d' = <[p := Some a]> (connectedPeers d) ∧
    store d'
    = <[a := mkPeer p false
                    (negb (size (<[p := Some a]> (connectedPeers d)) <=? 4))
                    true false 0]> (store d) ∧
    pieces d' = pieces d ∧ bitfield d' = bitfield d ∧ downloads d' = downloads d ∧
    optimisticUnchokedPeer d' = optimisticUnchokedPeer d.
Proof.
  set (a := fresh (dom (store d))).
  assert (Ha : store d !! a = None) by (apply not_elem_of_dom, is_fresh).
  exists a. cbn [handle]. unfold onConnect. rewrite bind_get. cbv zeta. fold a.
  rewrite !bind_modify, bind_get. cbn [connectedPeers set_connectedPeers set_store].
  set (d1 := set_connectedPeers _ _).
  assert (Hx : store d1 !! a = Some (mkPeer p false true true false 0))
    by (cbn; apply lookup_insert_eq).
  destruct (size (<[p:=Some a]> (connectedPeers d)) <=? 4) eqn:Hs.
  - rewrite (bind_run _ _ _ _ _ _ (unchokePeer_run _ _ _ Hx)).
    cbn. eexists. split; [done|]. split; [done|]. repeat split; try done.
    by rewrite insert_insert_eq.
  - rewrite bind_ret. cbn. eexists. split; [done|]. by split.
Qed.

(** ** [Piece] *)

Lemma wrap64_small z : (- 2 ^ 63 ≤ z < 2 ^ 63)%Z → wrap64 z = z.
Proof. intros H. unfold wrap64. rewrite Z.mod_small; lia. Qed.

Lemma wrap64_range z : (- 2 ^ 63 ≤ wrap64 z < 2 ^ 63)%Z.
Proof.
  unfold wrap64. assert (H := Z.mod_pos_bound (z + 2 ^ 63) (2 ^ 64) ltac:(lia)). lia.
Qed.

(** X6. A block from a connected peer adds its length to the peer's
    counter of the choke period, as an [int64] (the sum itself whenever it
    fits), changes nothing else, and is handed to the peer's downloader
    exactly when it has one. *)
Theorem piece_counts_bytes d msg a x :
  connectedPeers d !! pmPeer msg = Some (Some a) →
  store d !! a = Some x →
  handle (EvPiece msg) d
  = Ok Next
       (set_store
          (<[a := set_bytes (wrap64 (bytesDownlaodedInChokePeriod x
                                     + Z.of_nat (length (pmData msg)))) x]>
             (store d)) d)
       (match downloads d !! pmPeer msg with
        | Some pd => [ToPieceC pd msg]
        | None => []
        end) ∧
  (- 2 ^ 63 ≤ wrap64 (bytesDownlaodedInChokePeriod x
                      + Z.of_nat (length (pmData msg))) < 2 ^ 63)%Z ∧
  ((- 2 ^ 63 ≤ bytesDownlaodedInChokePeriod x
                + Z.of_nat (length (pmData msg)) < 2 ^ 63)%Z →
   wrap64 (bytesDownlaodedInChokePeriod x + Z.of_nat (length (pmData msg)))
   = (bytesDownlaodedInChokePeriod x + Z.of_nat (length (pmData msg)))%Z).
Proof.
  intros Hc Hx. split; [|split; [apply wrap64_range|apply wrap64_small]].
  cbn [handle]. unfold onPiece. rewrite bind_get, Hc.
  rewrite (bind_run0 _ _ _ _ _ (update_ok _ _ _ _ Hx)).
  by destruct (downloads d !! pmPeer msg).
Qed.

(** ** Messages from a peer that is not connected *)

Lemma never_ok {A} (P : Downloader → Prop) (m : M A) d :
  hoare P m (λ _ _, False) → P d → ∃ w, m d = Panic w.
Proof. intros H Hd. specialize (H d Hd). destruct (m d); [done|eauto]. Qed.

Lemma unknown_intro d pe : connectedPeers d !! pe = None → unknown pe d.
Proof. intros H. unfold unknown, mapGet. by rewrite H. Qed.

(** X7. [Have], [Bitfield], [HaveAll], [Unchoke] and [Choke] from a peer
    that is not in [connectedPeers] make the loop panic: each goes through
    the peer's entry of the map, which is [nil]. *)
Theorem unconnected_peer_panics d pe :
  connectedPeers d !! pe = None →
  (∀ i, ∃ w, handle (EvHave pe i) d = Panic w) ∧
  (∀ bf, ∃ w, handle (EvBitfield pe bf) d = Panic w) ∧
  (∃ w, handle (EvHaveAll pe) d = Panic w) ∧
  (∃ w, handle (EvUnchoke pe) d = Panic w) ∧
  (∃ w, handle (EvChoke pe) d = Panic w).
Proof.
  intros Hc. assert (Hu := unknown_intro _ _ Hc). repeat split.
  - intros i. apply (never_ok (unknown pe)); [|done]. cbn [handle]. unfold onHave.
    apply hoare_bind with (R := λ _, unknown pe); [apply preserves_emit|]. intros _.
    apply hoare_bind with (R := λ _, unknown pe); [apply addHaving_unknown|].
    intros _. apply unknown_update.
  - intros bf. apply (never_ok (unknown pe)); [|done]. cbn [handle]. unfold onBitfield.
    apply hoare_bind with (R := λ _, unknown pe).
    { apply preserves_forEach. intros i.
      destruct (default _ _); [apply addHaving_unknown|apply preserves_ret]. }
    intros _. apply hoare_bind with (R := λ _, unknown pe); [apply preserves_emit|].
    intros _. apply unknown_update.
  - apply (never_ok (λ dx, dx = d)); [|done]. cbn [handle]. unfold onHaveAll.
    apply hoare_bind_get. intros d0.
    apply hoare_bind with (R := λ _ _, d0 = d); [|intros _].
    { intros dx [-> ->]. by destruct (forEach _ _ _). }
    apply hoare_bind with (R := λ _ _, d0 = d); [|intros _].
    { intros dx ->. done. }
    apply hoare_bind with (R := λ _ _, False); [|by intros ? ? []].
    intros dx ->. unfold unknown in Hu. rewrite Hu.
    by apply (updateInterestedState_nil (λ _, True)).
  - cbn [handle]. unfold onUnchoke. rewrite bind_emit, bind_get.
    unfold unknown in Hu. rewrite Hu. cbn. eauto.
  - cbn [handle]. unfold onChoke. rewrite bind_get.
    unfold unknown in Hu. rewrite Hu. cbn. eauto.
Qed.

(** An invariant [I] that the writes of the loop keep, except for those of
    [requestedPeers], [havingPeers] and the bitfield, which are left to the
    cases that make them. *)
Section KeptByHandle.
Context (I : Downloader → Prop).
Context (Istore : ∀ d st, I d → I (set_store st d)).
Context (Isorted : ∀ d l, I d → I (set_sortedPieces l d)).
Context (Idownloads : ∀ d m, I d → I (set_downloads m d)).
Context (Iconnected : ∀ d m, I d → I (set_connectedPeers m d)).
Context (Ioptimistic : ∀ d o, I d → I (set_optimisticUnchokedPeer o d)).
Context (Iwriting : ∀ d i p b, I d → pieces d !! i = Some p →
                      I (set_pieces (<[i := set_writing b p]> (pieces d)) d)).
Context (Ifast : ∀ d i p m, I d → pieces d !! i = Some p →
                   I (set_pieces (<[i := set_allowedFastPeers m p]> (pieces d)) d)).
Context (Ihaving : ∀ d i p k v, I d → pieces d !! i = Some p →
                     I (set_pieces (<[i := set_havingPeers (<[k := v]> (havingPeers p)) p]>
                                      (pieces d)) d)).
Context (Iforget : ∀ d i p k, I d → pieces d !! i = Some p →
                     I (set_pieces (<[i := set_havingPeers (delete k (havingPeers p)) p]>
                                      (pieces d)) d)).
Context (Irelease : ∀ d i p k, I d → pieces d !! i = Some p →
                     I (set_pieces (<[i := set_requestedPeers (delete k (requestedPeers p)) p]>
                                      (pieces d)) d)).
Context (Ibit : ∀ d i, I d → i < length (bitfield d) →
                  I (set_bitfield (<[i := true]> (bitfield d)) d)).

Lemma kept_nextDownload : preserves I nextDownload.
Proof.
  unfold nextDownload. keep; [keep|]. keep; [keep; by apply Isorted|].
  apply scanPieces_preserves.
Qed.

Lemma kept_addHaving i pe : preserves I (addHaving i pe).
Proof. unfold addHaving. repeat keep. by apply Ihaving. Qed.

(** Every case but [Wait], whose launch writes [requestedPeers]. *)
Lemma kept_handle e : e ≠ EvWait → preserves I (handle e).
Proof.
  intros He. destruct e; cbn [handle]; [done|..].
  - unfold onDownloadDone. keep; [keep; by apply Idownloads|].
    keep; [keep; by apply Irelease|]. repeat keep. by apply Iwriting.
  - unfold onWriteResponse. keep; [keep; by apply Iwriting|].
    keep; [repeat keep|]. keep; [keep; by apply Ibit|]. keep; [keep|].
    keep; [keep|]. keep; [|keep]. keep. keep; [keep|]. keep; [keep|].
    by apply kept_updateInterestedState.
  - unfold onHave. keep; [keep|]. keep; [apply kept_addHaving|]. keep; [keep|].
    keep; [by apply kept_updateInterestedState|keep].
  - unfold onBitfield. keep.
    { keep. keep; [apply kept_addHaving|keep]. }
    keep; [keep|]. keep; [keep|].
    keep; [by apply kept_updateInterestedState|keep].
  - unfold onHaveAll. keep; [keep|]. keep; [keep; apply kept_addHaving|].
    keep; [keep|]. keep; [by apply kept_updateInterestedState|keep].
  - unfold onAllowedFast. repeat keep. by apply Ifast.
  - unfold onUnchoke. repeat keep; by apply Istore.
  - unfold onChoke. repeat keep; by apply Istore.
  - unfold onPiece. repeat keep; by apply Istore.
  - unfold onRequest. repeat keep.
  - keep; [|keep]. unfold tickUnchoke. keep; [keep|].
    keep; [apply collect_preserves|]. keep; [keep|]. cbv zeta.
    keep; [keep; keep; by apply Istore|]. keep; [by apply kept_unchokeTop|].
    keep. keep; [keep|by apply kept_chokePeer].
  - keep; [|keep]. unfold tickOptimisticUnchoke. keep; [keep|].
    keep; [apply collect_preserves|]. keep.
    { keep; [|keep]. keep; [keep; by apply Istore|by apply kept_chokePeer]. }
    keep; [keep|]. keep; [|keep]. keep; [keep; by apply Istore|].
    keep; [by apply kept_unchokePeer|keep; by apply Ioptimistic].
  - unfold onConnect. keep; [keep|]. cbv zeta. keep; [keep; by apply Istore|].
    keep; [keep; by apply Iconnected|]. keep; [keep|]. keep; [|keep].
    keep; [by apply kept_unchokePeer|keep].
  - unfold onDisconnect. keep; [keep; by apply Iconnected|]. keep; [keep|].
    keep; [|keep]. keep. keep; [keep; by apply Iforget|]. keep; [keep|].
    + apply (Ifast _ _ _ _ H H0).
    + keep. by apply Irelease.
  - keep.
Qed.

End KeptByHandle.

Lemma writes_firstAllowedFast w p l : writes w (firstAllowedFast p l).
Proof.
  induction l as [|[k pe] l IH]; cbn [firstAllowedFast]; [wr|].
  wr; [wr|]. wr; [wr|]. wr; [apply IH|]. wr; [apply IH|wr].
Qed.

Lemma writes_firstUnchoked w p l : writes w (firstUnchoked p l).
Proof.
  induction l as [|[k pe] l IH]; cbn [firstUnchoked]; [wr|].
  wr; [wr|]. wr; [wr|]. wr; [apply IH|]. wr; [apply IH|wr].
Qed.

Lemma writes_scanPieces w k l : writes w (scanPieces k l).
Proof.
  revert k. induction l as [|i l IH]; intros k; cbn [scanPieces]; [wr|].
  wr; [wr|]. wr; [wr|].
  wr; [apply IH|]. wr; [apply IH|]. wr; [apply IH|]. wr; [apply IH|].
  wr; [apply writes_firstAllowedFast|]. wr; [wr|].
  wr; [apply writes_firstUnchoked|]. wr; [wr|apply IH].
Qed.

Lemma writes_nextDownload (w : Field → Prop) :
  w FSortedPieces → writes w nextDownload.
Proof.
  intros H. unfold nextDownload. wr; [wr|]. wr; [wr|]. apply writes_scanPieces.
Qed.

(** Each case of the [select] writes only the parts of the state of its
    row of [mayWrite]. *)
Lemma handle_writes e : writes (mayWrite e) (handle e).
Proof.
  destruct e; cbn [handle].
  - unfold onWait. wr; [by apply writes_nextDownload|]. repeat wr.
  - unfold onDownloadDone. repeat wr.
  - unfold onWriteResponse. wr; [wr|]. wr; [repeat wr|].
    wr; [wr|]. wr; [wr|]. wr; [wr|]. wr; [|wr].
    wr. wr; [wr|]. wr; [wr|]. by apply writes_updateInterestedState.
  - unfold onHave. wr; [wr|]. wr; [by apply writes_addHaving|].
    wr; [wr|]. wr; [by apply writes_updateInterestedState|wr].
  - unfold onBitfield. wr.
    { wr. wr; [by apply writes_addHaving|wr]. }
    wr; [wr|]. wr; [wr|]. wr; [by apply writes_updateInterestedState|wr].
  - unfold onHaveAll. wr; [wr|]. wr; [wr; by apply writes_addHaving|].
    wr; [wr|]. wr; [by apply writes_updateInterestedState|wr].
  - unfold onAllowedFast. repeat wr.
  - unfold onUnchoke. repeat wr.
  - unfold onChoke. repeat wr.
  - unfold onPiece. repeat wr.
  - unfold onRequest. repeat wr.
  - wr; [|wr]. unfold tickUnchoke. wr; [wr|].
    wr; [apply writes_collect|]. wr; [wr|]. cbv zeta.
    wr; [wr; wr|]. wr; [by apply writes_unchokeTop|].
    wr. wr; [wr|by apply writes_chokePeer].
  - wr; [|wr]. unfold tickOptimisticUnchoke. wr; [wr|].
    wr; [apply writes_collect|]. wr.
    { wr; [|wr]. wr; [wr|by apply writes_chokePeer]. }
    wr; [wr|]. wr; [|wr]. wr; [wr|]. wr; [by apply writes_unchokePeer|wr].
  - unfold onConnect. wr; [wr|]. cbv zeta. wr; [wr|].
    wr; [wr|]. wr; [wr|]. wr; [|wr]. wr; [by apply writes_unchokePeer|wr].
  - unfold onDisconnect. repeat wr.
  - wr.
Qed.

(** ** The [Wait] case *)

Lemma onWait_run d :
  wf d →
  ∃ r sorted,
    sorted = goSort (ByAvailability_Less (pieces d)) (sortedPieces d) ∧
    nextDownload d = Ok r (set_sortedPieces sorted d) [] ∧
    match r with
    | None => onWait d = Ok Next (set_sortedPieces sorted d) [SemBlock]
    | Some pd =>
        ∃ pc, pieces d !! pdPiece pd = Some pc
          ∧ eligible d pc = true ∧ chosen d pc (pdPeer pd)
          ∧ onWait d
            = Ok Next
                 (set_pieces
                    (<[pdPiece pd :=
                         set_requestedPeers (<[pdPeer pd := pd]> (requestedPeers pc)) pc]>
                       (pieces d))
                    (set_downloads (<[pdPeer pd := pd]> (downloads d))
                                   (set_sortedPieces sorted d)))
                 [LogLine "downloading piece"; StartDownload pd]
    end.
Proof.
  intros Hwf. destruct (nextDownload_run d Hwf) as (r & sorted & Hs & Hrun & Hr).
  exists r, sorted. split; [done|]. split; [done|].
  unfold onWait. rewrite (bind_run0 _ _ _ _ _ Hrun).
  destruct r as [pd|]; [|done].
  destruct Hr as (l1 & l2 & pc & _ & Hpc & Hel & Hch & _).
  exists pc. do 3 (split; [done|]).
  rewrite bind_emit, bind_modify.
  set (d1 := set_downloads _ _).
  assert (Hpc1 : pieces d1 !! pdPiece pd = Some pc) by done.
  rewrite (bind_run0 _ _ _ _ _ (updatePiece_ok _ _ _ _ Hpc1)).
  by rewrite bind_emit.
Qed.

Lemma eligible_unrequested d pc : eligible d pc = true → requestedPeers pc = ∅.
Proof.
  unfold eligible. destruct (bitfield d !! Index pc) as [[|]|]; try done.
  intros [[H _]%andb_prop _]%andb_prop. apply Nat.eqb_eq in H.
  by apply map_size_empty_iff.
Qed.

(** X8. In a well-formed state the [Wait] case does not panic.  Either no
    download can start, and it blocks the semaphore and changes nothing but
    the order of [sortedPieces]; or it launches exactly one piece downloader,
    for an eligible piece and a peer the selector may choose, and records it
    under that peer in [downloads] and as the only entry of the piece's
    [requestedPeers].  After that the piece is not eligible any more and the
    peer is no candidate for any piece. *)
Theorem wait_spec d :
  wf d →
  ∃ d', 
    (handle EvWait d = Ok Next d' [SemBlock]
     ∧ d' = set_sortedPieces (sortedPieces d') d)
    ∨ ∃ pd pc pc',
        handle EvWait d
        = Ok Next d' [LogLine "downloading piece"; StartDownload pd]
        ∧ pieces d !! pdPiece pd = Some pc
        ∧ eligible d pc = true ∧ chosen d pc (pdPeer pd)
        ∧ downloads d' = <[pdPeer pd := pd]> (downloads d)
        ∧ pieces d' !! pdPiece pd = Some pc'
        ∧ requestedPeers pc' = {[pdPeer pd := pd]}
        ∧ (∀ j, j ≠ pdPiece pd → pieces d' !! j = pieces d !! j)
        ∧ store d' = store d ∧ bitfield d' = bitfield d
        ∧ connectedPeers d' = connectedPeers d
        ∧ eligible d' pc' = false
        ∧ ∀ pcx, ¬ candidate d' pcx (pdPeer pd).
Proof.
  intros Hwf. destruct (onWait_run d Hwf) as (r & sorted & Hs & _ & Hr).
  destruct r as [pd|].
  - destruct Hr as (pc & Hpc & Hel & Hch & Hrun).
    eexists. right. exists pd, pc. eexists.
    split; [exact Hrun|]. do 3 (split; [done|]). split; [done|].
    split. { cbn. apply list_lookup_insert_eq. by apply lookup_lt_Some in Hpc. }
    split. { cbn. by rewrite (eligible_unrequested _ _ Hel). }
    split. { intros j Hj. cbn. by apply list_lookup_insert_ne. }
    do 3 (split; [done|]). split.
    + unfold eligible. cbn. destruct (bitfield d !! Index pc) as [[|]|]; try done.
      by rewrite map_size_insert, (eligible_unrequested _ _ Hel), lookup_empty.
    + intros pcx [(_ & _ & H)|(a & x & _ & _ & _ & H)];
        cbn in H; by rewrite lookup_insert_eq in H.
  - eexists. left. split; [exact Hr|]. done.
Qed.

(** ** At most one request for a piece *)

Lemma oneRequest_set d i p' :
  oneRequest d → size (requestedPeers p') ≤ 1 →
  oneRequest (set_pieces (<[i := p']> (pieces d)) d).
Proof.
  unfold oneRequest. cbn. intros H Hle. rewrite Forall_lookup in H.
  apply Forall_lookup. intros j q Hq.
  destruct (decide (i = j)) as [<-|Hne].
  - apply list_lookup_insert_Some in Hq as [(_ & <- & _)|[? _]]; done.
  - rewrite list_lookup_insert_ne in Hq by done. by apply (H _ _ Hq).
Qed.

Lemma oneRequest_update d i p p' :
  oneRequest d → pieces d !! i = Some p →
  size (requestedPeers p') ≤ size (requestedPeers p) →
  oneRequest (set_pieces (<[i := p']> (pieces d)) d).
Proof.
  intros H Hp Hle. apply oneRequest_set; [done|].
  unfold oneRequest in H. rewrite Forall_lookup in H. specialize (H _ _ Hp).
  cbn in H. lia.
Qed.

Lemma size_delete_le (m : gmap positive PieceDownloader) k : size (delete k m) ≤ size m.
Proof.
  destruct (m !! k) eqn:E.
  - rewrite map_size_delete, E. lia.
  - by rewrite delete_id.
Qed.

Lemma onWait_oneRequest : preserves (λ d, wf d ∧ oneRequest d) onWait.
Proof.
  intros d [Hwf Hone].
  assert (Hwf' := handle_preserves_wf EvWait d Hwf). cbn [handle] in Hwf'.
  destruct (onWait_run d Hwf) as (r & sorted & _ & _ & Hr).
  destruct r as [pd|].
  - destruct Hr as (pc & Hpc & Hel & _ & Hrun). rewrite Hrun in *.
    split; [done|].
    apply (oneRequest_set (set_downloads _ (set_sortedPieces _ d))); [done|].
    cbn. rewrite (eligible_unrequested _ _ Hel), map_size_insert, lookup_empty.
    rewrite map_size_empty. lia.
  - rewrite Hr in *. done.
Qed.

Lemma handle_oneRequest e :
  preserves (λ d, wf d ∧ oneRequest d) (handle e).
Proof.
  assert (H : e ≠ EvWait → preserves (λ d, wf d ∧ oneRequest d) (handle e)).
  { intros He. apply preserves_and; [apply handle_preserves_wf|].
    apply kept_handle; try done.
    + intros d i p b H Hp. by apply (oneRequest_update d i p).
    + intros d i p m H Hp. by apply (oneRequest_update d i p).
    + intros d i p k v H Hp. by apply (oneRequest_update d i p).
    + intros d i p k H Hp. by apply (oneRequest_update d i p).
    + intros d i p k H Hp. apply (oneRequest_update d i p); [done|done|].
      apply size_delete_le. }
  destruct e; try (by apply H). apply onWait_oneRequest.
Qed.

Lemma run_oneRequest es : preserves (λ d, wf d ∧ oneRequest d) (run es).
Proof.
  induction es as [|e es IH]; cbn [run]; [apply preserves_ret|].
  apply preserves_bind; [apply handle_oneRequest|].
  intros [|]; [apply IH|apply preserves_ret].
Qed.

Lemma New_oneRequest n bf : oneRequest (New n bf).
Proof.
  unfold oneRequest, New. cbn. apply Forall_fmap, Forall_forall. intros i _. cbn.
  rewrite map_size_empty. lia.
Qed.

(** X9. Every state that [Run] reaches from [New], whatever the events and
    whatever the run time chooses, is well-formed (one bit per piece,
    [pieces[i].Index = i], [sortedPieces] a permutation of the pieces, and
    the pointers of [connectedPeers] and [havingPeers] at live [Peer]
    objects of their key), and no piece has more than one requested peer. *)
Theorem reachable_invariants n bf es d :
  length bf = n → stateAfter rt n bf es = Some d → wf d ∧ oneRequest d.
Proof.
  intros Hl. unfold stateAfter.
  destruct (run es (New n bf)) as [f d1 tr|] eqn:Hrun; [|done]. intros [= <-].
  refine (hoare_run _ _ _ _ _ _ _ (run_oneRequest es) _ Hrun).
  split; [by apply New_wf|apply New_oneRequest].
Qed.

(** ** What an iteration writes *)

Lemma handle_agree e d f d' tr :
  handle e d = Ok f d' tr → agree (mayWrite e) d d'.
Proof. intros H. assert (Hw := handle_writes e d). by rewrite H in Hw. Qed.

(** X10. An iteration of the loop changes at most the parts of the state
    that the row of its case in [mayWrite] lists: [downloads] only in the
    [Wait] and [downloadDone] cases, [connectedPeers] only at [Connect] and
    [Disconnect], [optimisticUnchokedPeer] only at the optimistic timer, the
    bitfield only at a write response, and a [Request] nothing at all. *)
Theorem handle_write_table e d f d' tr :
  handle e d = Ok f d' tr → agree (mayWrite e) d d'.
Proof. apply handle_agree. Qed.

Lemma onWriteResponse_bitfield i bf0 :
  hoare (λ d, bitfield d = bf0) (onWriteResponse i None)
        (λ _ d, bitfield d = <[i := true]> bf0).
Proof.
  unfold onWriteResponse.
  apply hoare_bind with (R := λ _ d, bitfield d = bf0).
  { apply preserves_updatePiece. by intros d p Hd Hp. }
  intros _. apply hoare_bind with (R := λ _ d, bitfield d = <[i := true]> bf0).
  { apply hoare_bfSet. intros d Hd Hi. cbn. by rewrite Hd. }
  intros _.
  cut (∀ m : M Flow, preserves (λ d, bitfield d = <[i := true]> bf0) m →
                     hoare (λ d, bitfield d = <[i := true]> bf0) m
                           (λ _ d, bitfield d = <[i := true]> bf0)); [|done].
  intros K. apply K. repeat keep. by apply kept_updateInterestedState.
Qed.

(** X11. The bitfield only grows, and only by a successful write: an
    iteration leaves the bitfield as it is, unless it is a write response
    without error, which sets the bit of its piece and no other. *)
Theorem bitfield_only_grows e d f d' tr :
  handle e d = Ok f d' tr →
  bitfield d' = bitfield d
  ∨ ∃ i, e = EvWriteResponse i None ∧ bitfield d' = <[i := true]> (bitfield d).
Proof.
  intros Hrun.
  destruct e as [| | i [err|] | | | | | | | | | | | | |];
    try (left; apply (agree_bitfield _ _ _ (handle_agree _ _ _ _ _ Hrun)); by intros []).
  - left. assert (H : preserves (λ dx, bitfield dx = bitfield d)
                               (onWriteResponse i (Some err))).
    { unfold onWriteResponse. repeat keep. done. }
    exact (hoare_run _ _ _ _ _ _ _ H eq_refl Hrun).
  - right. exists i. split; [done|].
    exact (hoare_run _ _ _ _ _ _ _ (onWriteResponse_bitfield i (bitfield d)) eq_refl Hrun).
Qed.

Lemma succeeds_tickUnchoke C : succeeds (connected C) tickUnchoke (λ _, connected C).
Proof.
  intros d Hd. unfold tickUnchoke. rewrite bind_get.
  destruct (succeeds_collect C (λ p, negb (optimisticUnhoked p))
              (range 182 0 (connectedPeers d))) with (d := d)
    as (peers & d1 & t1 & Hrun1 & Hd1 & Hp); [|done|].
  { intros k pe Hin. apply elem_of_range in Hin. destruct Hd as [_ <-]. done. }
  rewrite (bind_run _ _ _ _ _ _ Hrun1), bind_get. cbv zeta.
  set (sorted := goSort _ peers).
  assert (Hrest : succeeds (connected C)
    (forEach (range 188 0 (connectedPeers d1)) (λ kv, update kv.2 (set_bytes 0%Z)) ;;
     do unchokedPeers <- unchokeTop 0 sorted ∅;
     forEach (range 199 0 (connectedPeers d1))
             (λ kv, if bool_decide (kv.2 ∈ unchokedPeers) then ret tt else chokePeer kv.2))
    (λ _, connected C)).
  { destruct Hd1 as [_ Hc1].
    apply succeeds_bind with (R := λ _, connected C).
    { apply succeeds_forEach. intros [k pe] Hin. apply elem_of_range in Hin. cbn [snd].
      apply (succeeds_update_connected C k); [by rewrite <- Hc1|done]. }
    intros _. apply succeeds_bind with (R := λ _, connected C).
    { apply succeeds_unchokeTop. intros pe Hin. apply Hp.
      unfold sorted in Hin. by rewrite goSort_perm in Hin. }
    intros s. apply succeeds_forEach. intros [k pe] Hin. apply elem_of_range in Hin.
    cbn [snd]. destruct (bool_decide _); [by apply succeeds_ret|].
    apply (succeeds_chokePeer C k). by rewrite <- Hc1. }
  destruct (Hrest d1 Hd1) as ([] & d2 & t2 & Hrun2 & Hd2). rewrite Hrun2.
  by eexists _, _, _.
Qed.


(** What the three loops of the tick do to one connected peer [pe]. *)

Lemma resetLoop_zeroes (l : list (positive * option positive)) (k : positive)
      (pe : option positive) :
  (k, pe) ∈ l →
  hoare (λ _, True)
        (forEach l (λ kv : positive * option positive, update kv.2 (set_bytes 0%Z)))
        (λ _, holds (λ x, bytesDownlaodedInChokePeriod x = 0%Z) pe).
Proof.
  intros Hin. apply forEach_establishes with (x := (k, pe)); [done| |].
  - cbn [snd]. by apply (update_sets (λ x, bytesDownlaodedInChokePeriod x = 0%Z)).
  - intros kv. by apply update_holds.
Qed.

Lemma chokeLoop_peer (l : list (positive * option positive)) (k : positive)
      (pe : option positive) (s : gset (option positive)) :
  (k, pe) ∈ l →
  hoare (λ d, holds (λ x, bytesDownlaodedInChokePeriod x = 0%Z) pe d
              ∧ (pe ∈ s → holds (λ x, amChoking x = false) pe d))
        (forEach l (λ kv : positive * option positive,
                      if bool_decide (kv.2 ∈ s) then ret tt else chokePeer kv.2))
        (λ _ d, holds (λ x, bytesDownlaodedInChokePeriod x = 0%Z) pe d
                ∧ if decide (pe ∈ s) then holds (λ x, amChoking x = false) pe d
                  else holds (λ x, amChoking x = true) pe d).
Proof.
  intros Hin. destruct (decide (pe ∈ s)) as [Hs|Hs].
  - eapply hoare_weaken;
      [apply (preserves_forEach
                (λ d, holds (λ x, bytesDownlaodedInChokePeriod x = 0%Z) pe d
                      ∧ holds (λ x, amChoking x = false) pe d))| |done].
    + intros [k' pe']. cbn [snd]. destruct (bool_decide (pe' ∈ s)) eqn:E; [keep|].
      apply bool_decide_eq_false in E.
      apply preserves_and; [by apply chokePeer_holds|].
      apply chokePeer_other. by intros <-.
    + intros d [Hz Hu]. split; [done|by apply Hu].
  - apply hoare_and.
    + eapply hoare_weaken;
        [apply (preserves_forEach (holds (λ x, bytesDownlaodedInChokePeriod x = 0%Z) pe))
        |by intros d [? _]|done].
      intros kv. destruct (bool_decide _); [keep|]. by apply chokePeer_holds.
    + apply hoare_weaken with (P' := λ _, True)
                              (Q' := λ _, holds (λ x, amChoking x = true) pe);
        [|done|done].
      apply forEach_establishes with (x := (k, pe)); [done| |].
      * cbn [snd]. rewrite bool_decide_eq_false_2 by done. apply chokePeer_sets.
      * intros kv. destruct (bool_decide _); [keep|]. by apply chokePeer_holds.
Qed.

Lemma tickUnchoke_post d :
  hoare (λ dx, dx = d) tickUnchoke
        (λ _ d', ∃ s : gset (option positive),
           size s ≤ 3 ∧
           ∀ pe, (∃ k, connectedPeers d !! k = Some pe) →
                 holds (λ x, bytesDownlaodedInChokePeriod x = 0%Z) pe d'
                 ∧ if decide (pe ∈ s) then holds (λ x, amChoking x = false) pe d'
                   else holds (λ x, amChoking x = true) pe d').
Proof.
  unfold tickUnchoke. apply hoare_bind_get. intros d0.
  apply hoare_bind with (R := λ _ dx, dx = d).
  { eapply hoare_weaken; [apply (collect_preserves (λ dx, dx = d))|by intros dx [_ ->]|done]. }
  intros peers. apply hoare_bind_get. intros d1. cbv zeta.
  apply hoare_weaken with (P' := λ dx, True ∧ d1 = d) (Q' := λ _ d', ∃ s : gset (option positive),
           size s ≤ 3 ∧
           ∀ pe, (∃ k, connectedPeers d !! k = Some pe) →
                 holds (λ x, bytesDownlaodedInChokePeriod x = 0%Z) pe d'
                 ∧ if decide (pe ∈ s) then holds (λ x, amChoking x = false) pe d'
                   else holds (λ x, amChoking x = true) pe d'); [|by intros dx [-> ->]|done].
  apply hoare_pure_r. intros ->.
  set (φ := λ pe, ∃ k, connectedPeers d !! k = Some pe).
  apply hoare_bind
    with (R := λ _ dx, ∀ pe, φ pe → holds (λ x, bytesDownlaodedInChokePeriod x = 0%Z) pe dx).
  { apply hoare_weaken
      with (P' := λ dx, ∀ pe, φ pe → True)
           (Q' := λ _ dx, ∀ pe, φ pe →
                     holds (λ x, bytesDownlaodedInChokePeriod x = 0%Z) pe dx);
      [|done|done].
    apply hoare_forall_impl. intros pe [k Hk].
    apply resetLoop_zeroes with (k := k). by apply elem_of_range. }
  intros _.
  apply hoare_bind
    with (R := λ s dx, (∀ pe, φ pe →
                   holds (λ x, bytesDownlaodedInChokePeriod x = 0%Z) pe dx
                   ∧ (pe ∈ s → holds (λ x, amChoking x = false) pe dx))
                 ∧ size s ≤ 3).
  { apply hoare_and.
    - apply hoare_forall_impl. intros pe _. apply hoare_and.
      + by apply unchokeTop_holds.
      + eapply hoare_weaken; [apply (unchokeTop_unchoked pe)| |done].
        intros dx _ Hin. by apply not_elem_of_empty in Hin.
    - apply hoare_weaken with (P' := λ _, True)
                              (Q' := λ (s : gset (option positive)) _, size s ≤ size (∅ : gset (option positive)) + (3 - 0));
        [apply unchokeTop_size; lia|done|].
      intros s dx. rewrite size_empty. lia. }
  intros s. apply hoare_pure_r. intros Hs.
  apply hoare_weaken
    with (P' := λ dx, ∀ pe, φ pe →
                  holds (λ x, bytesDownlaodedInChokePeriod x = 0%Z) pe dx
                  ∧ (pe ∈ s → holds (λ x, amChoking x = false) pe dx))
         (Q' := λ _ d', ∀ pe, φ pe →
                  holds (λ x, bytesDownlaodedInChokePeriod x = 0%Z) pe d'
                  ∧ if decide (pe ∈ s) then holds (λ x, amChoking x = false) pe d'
                    else holds (λ x, amChoking x = true) pe d'); [|done|].
  2:{ intros ? d' H. exists s. split; [exact Hs|]. exact H. }
  apply hoare_forall_impl. intros pe [k Hk].
  apply chokeLoop_peer with (k := k). by apply elem_of_range.
Qed.

(** X12. The regular unchoke timer in a well-formed state: the case does
    not panic; afterwards the counter of the choke period of every connected
    peer is zero, and there is a set of at most three pointers (the loop's
    [unchokedPeers]) such that a connected peer is unchoked by us exactly
    when its pointer is in the set.  So at most three connected peers are
    left unchoked. *)
Theorem unchoke_tick_spec d :
  wf d →
  ∃ d' tr (s : gset (option positive)),
    handle EvUnchokeTick d = Ok Next d' tr ∧ size s ≤ 3 ∧
    ∀ k pe, connectedPeers d !! k = Some pe →
      ∃ a x, pe = Some a ∧ store d' !! a = Some x
             ∧ bytesDownlaodedInChokePeriod x = 0%Z
             ∧ (amChoking x = false ↔ pe ∈ s).
Proof.
  intros Hwf.
  destruct (succeeds_tickUnchoke (connectedPeers d) d) as ([] & d' & tr & Hrun & _);
    [done|].
  assert (Hpost := tickUnchoke_post d d eq_refl). rewrite Hrun in Hpost.
  destruct Hpost as (s & Hs & Hpost).
  exists d', tr, s. split.
  { cbn [handle]. rewrite (bind_run _ _ _ _ _ _ Hrun). cbn. by rewrite app_nil_r. }
  split; [done|]. intros k pe Hk.
  destruct (Hpost pe) as [(a & x & -> & Hx & Hz) Hc]; [by exists k|].
  exists a, x. do 3 (split; [done|]).
  destruct (decide (Some a ∈ s)) as [Hin|Hnin].
  - destruct Hc as (a' & x' & [= <-] & Hx' & Hc). rewrite Hx in Hx'. by simplify_eq.
  - destruct Hc as (a' & x' & [= <-] & Hx' & Hc). rewrite Hx in Hx'. simplify_eq.
    split; [congruence|done].
Qed.


(** X13. The optimistic timer in a well-formed state in which a connected
    peer is choked by us and not flagged: the case does not panic.  It
    picks a connected peer that was choked and not flagged, flags it,
    unchokes it, sends it [Unchoke] last, and remembers it in
    [optimisticUnchokedPeer]; the peer remembered before, if it is another
    one, is left choked and without the flag. *)
Theorem optimistic_tick_spec d k a x :
  wf d →
  (∀ o, optimisticUnchokedPeer d = Some o → is_Some (store d !! o)) →
  connectedPeers d !! k = Some (Some a) → store d !! a = Some x →
  optimisticUnhoked x = false → amChoking x = true →
  ∃ d' tr k' b x' y,
    handle EvOptimisticUnchokeTick d = Ok Next d' (tr ++ [SendUnchoke (Peer_Peer x')])
    ∧ connectedPeers d !! k' = Some (Some b) ∧ store d !! b = Some x'
    ∧ optimisticUnhoked x' = false ∧ amChoking x' = true
    ∧ optimisticUnchokedPeer d' = Some b ∧ store d' !! b = Some y
    ∧ optimisticUnhoked y = true ∧ amChoking y = false
    ∧ ∀ o z, optimisticUnchokedPeer d = Some o → o ≠ b → store d !! o = Some z →
             store d' !! o = Some (set_amChoking true (set_optimisticUnhoked false z)).
Proof.
  intros Hwf Hold Hk Hx Hflag Hchoke.
  cbn [handle]. unfold tickOptimisticUnchoke. rewrite bind_assoc, bind_get.
  destruct (collect_run (λ p, negb (optimisticUnhoked p) && amChoking p)
                        (range 206 0 (connectedPeers d)) d)
    as (peers & Hrun & Hpeers).
  { intros k0 pe Hin. apply elem_of_range in Hin.
    destruct (pointsTo_inv _ _ _ (wf_connected _ _ _ Hwf Hin)) as (a0 & x0 & -> & Hx0 & _).
    eauto. }
  rewrite bind_assoc, (bind_run0 _ _ _ _ _ Hrun).
  destruct (dropOld_run d Hold) as (d1 & t1 & Hrun1 & Hd1 & Hother & Hsame).
  rewrite bind_assoc, (bind_run _ _ _ _ _ _ Hrun1).
  assert (Hne : length peers ≠ 0).
  { assert (Some a ∈ peers) as Hin.
    { apply Hpeers. exists k, a, x. split; [by apply elem_of_range|].
      do 2 (split; [done|]). by rewrite Hflag, Hchoke. }
    destruct peers; [by apply elem_of_nil in Hin|done]. }
  destruct (length peers =? 0) eqn:E; [by apply Nat.eqb_eq in E|].
  destruct (lookup_lt_is_Some_2 peers (randIntn (length peers))) as [pe Hpe];
    [apply randIntn_lt; lia|].
  rewrite Hpe.
  destruct (proj1 (Hpeers pe)) as (k' & b & x' & Hin & -> & Hx' & Hkeep);
    [by eapply list_elem_of_lookup_2|].
  apply elem_of_range in Hin. apply andb_prop in Hkeep as [Hf' Hc'].
  apply negb_true_iff in Hf'.
  assert (∃ x1, store d1 !! b = Some x1 ∧ amChoking x1 = true
                ∧ Peer_Peer x1 = Peer_Peer x') as (x1 & Hx1 & Hc1 & Hp1).
  { destruct (decide (optimisticUnchokedPeer d = Some b)) as [Ho|Ho].
    - eexists. split; [by apply (Hsame b x')|]. done.
    - exists x'. by rewrite Hother. }
  rewrite (bind_run _ _ _ _ _ _ (pick_run d1 b x1 Hx1 Hc1)). cbn.
  rewrite Hp1.
  eexists _, t1, k', b, x', _. split; [done|]. do 4 (split; [done|]).
  split; [done|]. split; [cbn; apply lookup_insert_eq|]. do 2 (split; [done|]).
  intros o z Ho Hob Hz. cbn. rewrite lookup_insert_ne by done. by apply Hsame.
Qed.

End More.

(** ** Concrete instances of the properties of the loop *)

Lemma fivePeers_wf : wf fivePeers.
Proof. apply (bool_decide_unpack _). vm_compute. exact I. Qed.

Lemma rechoked_wf : wf rechoked.
Proof. apply (bool_decide_unpack _). vm_compute. exact I. Qed.

(** Peer 1 of [twoPeers] is not choked by us: [chokePeer] sends [Choke],
    [unchokePeer] sends nothing. *)
Lemma choke_unchoke_flip_witness :
  chokePeer (Some 1%positive) twoPeers
  = Ok tt (set_store (<[1%positive := mkPeer 1 true true true false 0]>
                        (store twoPeers)) twoPeers)
       [SendChoke 1] ∧
  unchokePeer (Some 1%positive) twoPeers
  = Ok tt (set_store (<[1%positive := mkPeer 1 true false true false 0]>
                        (store twoPeers)) twoPeers)
       [].
Proof.
  destruct (choke_unchoke_flip twoPeers 1%positive (mkPeer 1 true false true false 0))
    as (H1 & H2 & _); [vm_compute; reflexivity|].
  split; [exact H1|exact H2].
Defined.

(** The regular unchoke timer in [fivePeers] sends two [Choke]. *)
Lemma handle_effect_kinds_witness :
  Forall (mayLaunch EvUnchokeTick) [SendChoke 5; SendChoke 1].
Proof.
  eapply (handle_effect_kinds (rt := rt0) EvUnchokeTick fivePeers).
  vm_compute. reflexivity.
Defined.

(** In [downloading], the bytes of piece 0 arrive and pass the hash check. *)
Lemma write_requests_are_verified_witness :
  ∃ pd pc,
    EvDownloadDone (mkPD 0 1) (PdDone [] true) = EvDownloadDone pd (PdDone [] true)
    ∧ 0 = pdPiece pd ∧ pieces downloading !! 0 = Some pc
    ∧ Verify (Runtime := rt1) (Index pc) [] = true.
Proof.
  eapply (write_requests_are_verified (rt := rt1)
            (EvDownloadDone (mkPD 0 1) (PdDone [] true)) downloading
            Next _ [SemSignal 1; WriteRequest 0 []]).
  - vm_compute. reflexivity.
  - right. left.
Defined.

(** In [twoPeers], peer 1, which we do not choke, requests a block. *)
Lemma blocks_go_to_unchoked_peers_witness :
  ∃ a x, connectedPeers twoPeers !! 1%positive = Some (Some a)
         ∧ store twoPeers !! a = Some x ∧ amChoking x = false.
Proof.
  destruct (blocks_go_to_unchoked_peers (rt := rt0)
              (EvRequest (mkRequest 1 false 0 0 16)) twoPeers Next twoPeers
              [GoSendPiece (mkRequest 1 false 0 0 16)]) as [H _];
    [vm_compute; reflexivity|].
  destruct (H (mkRequest 1 false 0 0 16)) as [_ H']; [left|]. exact H'.
Defined.

(** In [twoPeers], two bytes of a block arrive from peer 2. *)
Lemma piece_counts_bytes_witness :
  handle (rt := rt0) (EvPiece (mkPieceMsg 2 1 0 [Byte.x00; Byte.x01])) twoPeers
  = Ok Next
       (set_store (<[2%positive := mkPeer 2 true false false false 2]>
                     (store twoPeers)) twoPeers)
       [].
Proof.
  destruct (piece_counts_bytes (rt := rt0) twoPeers
              (mkPieceMsg 2 1 0 [Byte.x00; Byte.x01]) 2%positive
              (mkPeer 2 true false false false 0)) as [H _].
  - vm_compute. reflexivity.
  - vm_compute. reflexivity.
  - exact H.
Defined.

(** Before any peer has connected, an [Unchoke] message panics. *)
Lemma unconnected_peer_panics_witness :
  ∃ w, handle (rt := rt0) (EvUnchoke 1) (New 1 [false]) = Panic w.
Proof.
  destruct (unconnected_peer_panics (rt := rt0) (New 1 [false]) 1%positive)
    as (_ & _ & _ & H & _); [reflexivity|exact H].
Defined.

(** The [Wait] case in [twoPeers]. *)
Lemma wait_spec_witness :
  ∃ d',
    (handle (rt := rt0) EvWait twoPeers = Ok Next d' [SemBlock]
     ∧ d' = set_sortedPieces (sortedPieces d') twoPeers)
    ∨ ∃ pd pc pc',
        handle (rt := rt0) EvWait twoPeers
        = Ok Next d' [LogLine "downloading piece"; StartDownload pd]
        ∧ pieces twoPeers !! pdPiece pd = Some pc
        ∧ eligible twoPeers pc = true ∧ chosen twoPeers pc (pdPeer pd)
        ∧ downloads d' = <[pdPeer pd := pd]> (downloads twoPeers)
        ∧ pieces d' !! pdPiece pd = Some pc'
        ∧ requestedPeers pc' = {[pdPeer pd := pd]}
        ∧ (∀ j, j ≠ pdPiece pd → pieces d' !! j = pieces twoPeers !! j)
        ∧ store d' = store twoPeers ∧ bitfield d' = bitfield twoPeers
        ∧ connectedPeers d' = connectedPeers twoPeers
        ∧ eligible d' pc' = false
        ∧ ∀ pcx, ¬ candidate d' pcx (pdPeer pd).
Proof. apply (wait_spec (rt := rt0) twoPeers). exact twoPeers_wf. Defined.

(** [downloading] is reached from [New] by four events. *)
Lemma reachable_invariants_witness : wf downloading ∧ oneRequest downloading.
Proof.
  apply (reachable_invariants (rt := rt0) 1 [false]
           [EvConnect 1; EvHave 1 0; EvUnchoke 1; EvWait] downloading).
  - reflexivity.
  - vm_compute. reflexivity.
Defined.

(** The regular unchoke timer in [fivePeers] writes nothing but [Peer]
    objects. *)
Lemma handle_write_table_witness :
  ∃ d', agree (mayWrite EvUnchokeTick) fivePeers d'
        ∧ amChoking <$> store d' !! 5%positive = Some true.
Proof.
  eexists. split.
  - eapply (handle_write_table (rt := rt0) EvUnchokeTick fivePeers Next _
              [SendChoke 5; SendChoke 1]).
    vm_compute. reflexivity.
  - vm_compute. reflexivity.
Defined.

(** A write response without error for piece 0 in [downloading]. *)
Lemma bitfield_only_grows_witness :
  ∃ d' : Downloader,
    bitfield d' = bitfield downloading
    ∨ ∃ i, EvWriteResponse 0 None = EvWriteResponse i None
           ∧ bitfield d' = <[i := true]> (bitfield downloading).
Proof.
  eexists.
  eapply (bitfield_only_grows (rt := rt0) (EvWriteResponse 0 None) downloading Next _
            [CheckCompletion; SendHave 1 0; SendNotInterested 1]).
  vm_compute. reflexivity.
Defined.

(** The regular unchoke timer in [fivePeers]. *)
Lemma unchoke_tick_spec_witness :
  ∃ d' tr (s : gset (option positive)),
    handle (rt := rt0) EvUnchokeTick fivePeers = Ok Next d' tr ∧ size s ≤ 3 ∧
    ∀ k pe, connectedPeers fivePeers !! k = Some pe →
      ∃ a x, pe = Some a ∧ store d' !! a = Some x
             ∧ bytesDownlaodedInChokePeriod x = 0%Z
             ∧ (amChoking x = false ↔ pe ∈ s).
Proof. apply (unchoke_tick_spec (rt := rt0) fivePeers). exact fivePeers_wf. Defined.

(** The optimistic timer in [rechoked], where peer 1 is choked and not
    flagged, and peer 5 is remembered as the pick. *)
Lemma optimistic_tick_spec_witness :
  ∃ d' tr k' b x' y,
    handle (rt := rt0) EvOptimisticUnchokeTick rechoked
    = Ok Next d' (tr ++ [SendUnchoke (Peer_Peer x')])
    ∧ connectedPeers rechoked !! k' = Some (Some b) ∧ store rechoked !! b = Some x'
    ∧ optimisticUnhoked x' = false ∧ amChoking x' = true
    ∧ optimisticUnchokedPeer d' = Some b ∧ store d' !! b = Some y
    ∧ optimisticUnhoked y = true ∧ amChoking y = false
    ∧ ∀ o z, optimisticUnchokedPeer rechoked = Some o → o ≠ b →
             store rechoked !! o = Some z →
             store d' !! o = Some (set_amChoking true (set_optimisticUnhoked false z)).
Proof.
  apply (optimistic_tick_spec (rt := rt0) rechoked 1%positive 1%positive
           (mkPeer 1 false true true false 0)).
  - exact rechoked_wf.
  - intros o H. vm_compute in H. injection H as <-. vm_compute. eexists. reflexivity.
  - vm_compute. reflexivity.
  - vm_compute. reflexivity.
  - reflexivity.
  - reflexivity.
Defined.
